(** * airtable-interfaces: grid aggregation and sales-series reconstruction

    A shallow embedding of the data-shaping code of two interface
    extensions:

    - the box-office dashboard ([graphique_dual_axes/frontend/index.js],
      component [DetailPage]): paginated fetch, per-day indexing,
      carry-forward reconstruction, aggregate mode, period statistics and
      the cancellation protocol of the fetch effect;
    - the routing grid, in its row-per-event variant and in its
      cross-product variant ([routage/routage/frontend/index.js]): event
      processing loop, week ordering, per-cell totals and the alert
      threshold.

    Conventions.  A calendar day, written ["YYYY-MM-DD"] in the source, is
    represented by its day number (days since the epoch, a [Z]); the
    lexicographic order of such strings is the numeric order of day numbers.
    A [Date] object is represented by its time value in milliseconds, and an
    invalid [Date] by [None].  Numbers are exact integers ([Z]); the revenue
    column, parsed by [parseFloat] in the source, is taken as an exact
    amount.  JavaScript objects used as dictionaries are [gmap]s, [Set]s are
    [gset]s, and a [Map] whose iteration order matters is an association
    list in insertion order. *)

From stdpp Require Import gmap strings list fin_maps sorting pretty.
From Stdlib Require Import ZArith Lia.

(** * Part I.  Definitions *)

Module Sales.

Local Open Scope Z_scope.

(** ** Rows, index entries and series points *)

(** A row of the remote [sales_report] table as returned in a JSON page.
    [date] is [None] when the column is null or empty; otherwise it is the
    day number of the part of the string before ['T'].  A numeric column is
    [None] when it is null (or, for [total], when [parseFloat] gives NaN). *)
Record rawRow := RawRow {
  record_id : string;
  date : option Z;
  sold : option Z;
  free : option Z;
  total : option Z
}.

(** The value stored in [byDay[day]] and in [lastKnown[rid]]. *)
Record entry := Entry {
  e_sold : Z;
  e_free : Z;
  e_total : Z
}.

(** An element of [formatted]; the [dateLabel] display string is a function
    of [date] alone and is left out. *)
Record point := Point {
  p_date : Z;
  ventes : Z;
  gratuits : Z;
  total_dollars : Z
}.

#[global] Instance rawRow_eq_dec : EqDecision rawRow.
Proof. solve_decision. Defined.
#[global] Instance entry_eq_dec : EqDecision entry.
Proof. solve_decision. Defined.
#[global] Instance point_eq_dec : EqDecision point.
Proof. solve_decision. Defined.

(** [v || 0] *)
Definition orZero (v : option Z) : Z := default 0 v.

(** [row.date ? row.date.split('T')[0] : row.date]: the key under which the
    row is indexed; [None] stands for the key of a row without date. *)
Definition dayOf (row : rawRow) : option Z := date row.

(** [{sold: row.sold || 0, free: row.free || 0, total: parseFloat(row.total) || 0}] *)
Definition entryOf (row : rawRow) : entry :=
  Entry (orZero (sold row)) (orZero (free row)) (orZero (total row)).

Definition zeroEntry : entry := Entry 0 0 0.

(** The three [Math.max] updates of the carried-forward values. *)
Definition maxEntry (lastE e : entry) : entry :=
  Entry (Z.max (e_sold lastE) (e_sold e))
        (Z.max (e_free lastE) (e_free e))
        (Z.max (e_total lastE) (e_total e)).

Definition addEntry (a b : entry) : entry :=
  Entry (e_sold a + e_sold b) (e_free a + e_free b) (e_total a + e_total b).

Definition mkPoint (day : Z) (e : entry) : point :=
  Point day (e_sold e) (e_free e) (e_total e).

Definition pointEntry (p : point) : entry :=
  Entry (ventes p) (gratuits p) (total_dollars p).

(** ** Dates *)

Definition msPerDay : Z := 86400000.

(** [new Date(key)]: a date-only string is read as midnight UTC of that
    day; the key of a row without date gives an invalid date. *)
Definition newDate (key : option Z) : option Z :=
  match key with
  | Some day => Some (day * msPerDay)
  | None => None
  end.

(** [d.toISOString().split('T')[0]]: the UTC calendar day of a time value. *)
Definition isoDay (t : Z) : Z := t / msPerDay.

(** [d.setDate(d.getDate() + 1)].  The step is taken in the host's local
    zone; the zone is assumed to keep one UTC offset over the span of the
    series, so that the step adds exactly one day of milliseconds. *)
Definition setDateNext (t : Z) : Z := t + msPerDay.

(** Order of the keys of the per-day index under the default [sort()]:
    date strings in chronological order, the key of rows without date
    (["null"]) after every date. *)
Definition key_le (a b : option Z) : Prop :=
  match a, b with
  | Some x, Some y => x <= y
  | _, None => True
  | None, Some _ => False
  end.

#[global] Instance key_le_dec : RelDecision key_le.
Proof.
  intros [x|] [y|]; simpl; try apply _.
Defined.

#[global] Instance key_le_refl : Reflexive key_le.
Proof. intros [x|]; simpl; [lia|done]. Qed.

#[global] Instance key_le_trans : Transitive key_le.
Proof. intros [x|] [y|] [z|]; simpl; try done; lia. Qed.

#[global] Instance key_le_total : Total key_le.
Proof. intros [x|] [y|]; simpl; try tauto; lia. Qed.

(** [Object.keys(m).sort()] for an index keyed by day. *)
Definition sortedKeys {A} (m : gmap (option Z) A) : list (option Z) :=
  merge_sort key_le (elements (dom m)).

(** ** Single-performance mode *)

(** [data.forEach(row => { byDay[day] = {...} })] *)
Definition indexByDay (data : list rawRow) : gmap (option Z) entry :=
  foldl (fun byDay row => <[dayOf row := entryOf row]> byDay) ∅ data.

(** One iteration of the day loop: update [last] from the day's row when
    there is one, then push a point with the current values of [last]. *)
Definition carry (byDay : gmap (option Z) entry) (key : Z) (lastE : entry) : entry :=
  match byDay !! Some key with
  | Some e => maxEntry lastE e
  | None => lastE
  end.

(** [for (let d = new Date(start); d <= end; d.setDate(d.getDate() + 1))].
    [fuel] bounds the number of iterations. *)
Fixpoint fillDays (fuel : nat) (byDay : gmap (option Z) entry)
    (d endT : Z) (lastE : entry) : list point :=
  match fuel with
  | O => []
  | S fuel' =>
      if d <=? endT then
        let key := isoDay d in
        let lastE' := carry byDay key lastE in
        mkPoint key lastE' :: fillDays fuel' byDay (setDateNext d) endT lastE'
      else []
  end.

(** Enough iterations for the loop from [startT] to [endT] to leave through
    its guard. *)
Definition spanFuel (startT endT : Z) : nat :=
  S (Z.to_nat ((endT - startT) / msPerDay + 1)).

(** The [else] branch of [if (isAllMode)]: the series of one performance. *)
Definition reconstructSingle (data : list rawRow) : list point :=
  let byDay := indexByDay data in
  let days := sortedKeys byDay in
  if bool_decide (0 < length days)%nat then
    match newDate (default None (head days)), newDate (default None (last days)) with
    | Some startT, Some endT => fillDays (spanFuel startT endT) byDay startT endT zeroEntry
    | _, _ => []
    end
  else [].

(** ** Aggregate mode *)

(** [if (!byRecord[rid]) byRecord[rid] = {}; byRecord[rid][day] = {...}] *)
Definition indexRow (byRecord : gmap string (gmap (option Z) entry)) (row : rawRow)
    : gmap string (gmap (option Z) entry) :=
  let rid := record_id row in
  <[rid := <[dayOf row := entryOf row]> (default ∅ (byRecord !! rid))]> byRecord.

Definition indexByRecord (data : list rawRow) : gmap string (gmap (option Z) entry) :=
  foldl indexRow ∅ data.

(** [allDatesSet.add(day)] for every row. *)
Definition allDatesSet (data : list rawRow) : gset (option Z) :=
  foldl (fun s row => {[dayOf row]} ∪ s) ∅ data.

(** [Object.keys(byRecord)]: record identifiers are not array indices, so
    the keys come in the order of their first insertion. *)
Definition recordIdsOf (data : list rawRow) : list string :=
  foldl (fun ids row =>
           if bool_decide (record_id row ∈ ids) then ids else ids ++ [record_id row])
        [] data.

(** Body of [for (const rid of recordIds)]: refresh [lastKnown[rid]] from
    the day's row of that record, then add [lastKnown[rid]], when it
    exists, to the sums of the day. *)
Definition perRecord (byRecord : gmap string (gmap (option Z) entry)) (day : Z)
    (acc : gmap string entry * entry) (rid : string) : gmap string entry * entry :=
  let lastKnown :=
    match byRecord !! rid ≫= (fun m => m !! Some day) with
    | Some e => <[rid := maxEntry (default zeroEntry (acc.1 !! rid)) e]> acc.1
    | None => acc.1
    end in
  match lastKnown !! rid with
  | Some lk => (lastKnown, addEntry acc.2 lk)
  | None => (lastKnown, acc.2)
  end.

Fixpoint fillDaysAll (fuel : nat) (byRecord : gmap string (gmap (option Z) entry))
    (recordIds : list string) (d endT : Z) (lastKnown : gmap string entry) : list point :=
  match fuel with
  | O => []
  | S fuel' =>
      if d <=? endT then
        let day := isoDay d in
        let r := foldl (perRecord byRecord day) (lastKnown, zeroEntry) recordIds in
        mkPoint day r.2 :: fillDaysAll fuel' byRecord recordIds (setDateNext d) endT r.1
      else []
  end.

(** The [if (isAllMode)] branch.  With no row at all, [sortedDates[0]] is
    [undefined] and both dates are invalid. *)
Definition reconstructAll (data : list rawRow) : list point :=
  let byRecord := indexByRecord data in
  let sortedDates := merge_sort key_le (elements (allDatesSet data)) in
  let recordIds := recordIdsOf data in
  match newDate (default None (head sortedDates)),
        newDate (default None (last sortedDates)) with
  | Some startT, Some endT =>
      fillDaysAll (spanFuel startT endT) byRecord recordIds startT endT ∅
  | _, _ => []
  end.

Definition reconstruct (isAllMode : bool) (data : list rawRow) : list point :=
  if isAllMode then reconstructAll data else reconstructSingle data.

(** ** Period statistics *)

(** The elements of [filteredSalesData] are the very objects of
    [salesData]; an object is identified by its position in [salesData]. *)
Definition refsOf (salesData : list point) : list (nat * point) :=
  imap (fun i p => (i, p)) salesData.

(** [dateFrom] and [dateTo] are [None] for the empty string. *)
Definition filteredSalesData (salesData : list point) (dateFrom dateTo : option Z)
    : list (nat * point) :=
  if bool_decide (length salesData = 0%nat) then refsOf salesData
  else
    let data := refsOf salesData in
    let data := match dateFrom with
                | Some f => filter (fun d => f <= p_date d.2) data
                | None => data
                end in
    match dateTo with
    | Some t => filter (fun d => p_date d.2 <= t) data
    | None => data
    end.

Record stats := Stats {
  ventesInPeriod : Z;
  revenusInPeriod : Z
}.

Definition zeroPoint : point := Point 0 0 0 0.

(** [salesData.indexOf(first)] compares object identities, hence returns
    the position carried by the reference. *)
Definition periodStats (salesData : list point) (filtered : list (nat * point))
    : option stats :=
  match head filtered, last filtered with
  | Some first, Some lastP =>
      let baseIndex := first.1 in
      let base := if bool_decide (0 < baseIndex)%nat
                  then default zeroPoint (salesData !! (baseIndex - 1)%nat)
                  else zeroPoint in
      Some (Stats (ventes lastP.2 - ventes base)
                  (total_dollars lastP.2 - total_dollars base))
  | _, _ => None
  end.

(** ** Pagination *)

Definition pageSize : nat := 1000.

(** What one request of the loop resolves to: a JSON page, or a response
    that is not [ok] (with the message of the error thrown). *)
Inductive response :=
  | RespOk (page : list rawRow)
  | RespErr (msg : string).

(** How one turn of [while (true)] ends. *)
Inductive turn :=
  | Continue (data : list rawRow) (offset : nat)
  | Finished (data : list rawRow)
  | Cancelled
  | Failed (msg : string).

(** The body of the loop from the resolution of the request on;
    [didCancel] is the value of the flag when the turn reads it. *)
Definition pageTurn (didCancel : bool) (data : list rawRow) (offset : nat)
    (resp : response) : turn :=
  match resp with
  | RespErr msg => Failed msg
  | RespOk page =>
      let data := data ++ page in
      if bool_decide (length page < pageSize)%nat then Finished data
      else
        let offset := (offset + pageSize)%nat in
        if didCancel then Cancelled else Continue data offset
  end.

(** The whole loop against a remote source answering the request for each
    offset; [cancelled k] is the value of [didCancel] when the turn of the
    request number [k] reads it.  The result carries the way the loop was
    left and the number of requests made. *)
Fixpoint paginate (fuel : nat) (remote : nat -> response) (cancelled : nat -> bool)
    (data : list rawRow) (offset : nat) (requests : nat) : option (turn * nat) :=
  match fuel with
  | O => None
  | S fuel' =>
      match pageTurn (cancelled requests) data offset (remote offset) with
      | Continue data' offset' =>
          paginate fuel' remote cancelled data' offset' (S requests)
      | t => Some (t, S requests)
      end
  end.

(** ** The fetch effect and its cancellation flag *)

(** Component state written by the effect. *)
Record view := View {
  salesData : list point;
  loading : bool;
  error : option string;
  cache : gmap string (list point)
}.

(** The closure of one run of the effect that reached [fetchSales()]. *)
Record fetch := Fetch {
  cacheKey : string;
  isAllMode : bool;
  data : list rawRow;
  offset : nat;
  didCancel : bool;
  running : bool
}.

(** The component and the closures of the effects run so far, oldest
    first. *)
Record world := World {
  ui : view;
  fetches : list fetch
}.

Inductive event :=
  (** the dependencies changed: cleanup of the previous effect, then a new
      run of the effect with these values *)
  | Select (configured : bool) (selectedRepId : option string) (allRepIds : string)
  (** the pending request of the [i]-th fetch resolves *)
  | Respond (i : nat) (resp : response).

Definition cancelFetch (f : fetch) : fetch :=
  Fetch (cacheKey f) (isAllMode f) (data f) (offset f) true (running f).

(** [return () => { didCancel = true; }] of the previous effect: the
    cleanup of the latest closure runs before the effect runs again. *)
Fixpoint cleanup (fs : list fetch) : list fetch :=
  match fs with
  | [] => []
  | [f] => [cancelFetch f]
  | f :: fs' => f :: cleanup fs'
  end.

(** The synchronous part of a run of the effect, up to the first [await]. *)
Definition runEffect (w : world) (configured : bool) (selectedRepId : option string)
    (allRepIds : string) : world :=
  let v := ui w in
  let fs := cleanup (fetches w) in
  if negb configured then
    World (View [] false None (cache v)) fs
  else
    let allMode := bool_decide (selectedRepId = None) in
    if allMode && bool_decide (allRepIds = "") then
      World (View [] (loading v) (error v) (cache v)) fs
    else
      let key := match selectedRepId with
                 | None => "all_" +:+ allRepIds
                 | Some rep => rep
                 end in
      match cache v !! key with
      | Some series =>
          World (View series false (error v) (cache v))
                (fs ++ [Fetch key allMode [] 0 false false])
      | None =>
          World (View (salesData v) true None (cache v))
                (fs ++ [Fetch key allMode [] 0 false true])
      end.

(** The continuation of [fetchSales] when its pending request resolves. *)
Definition resume (v : view) (f : fetch) (resp : response) : view * fetch :=
  match pageTurn (didCancel f) (data f) (offset f) resp with
  | Continue data' offset' =>
      (v, Fetch (cacheKey f) (isAllMode f) data' offset' (didCancel f) true)
  | Finished data' =>
      let f' := Fetch (cacheKey f) (isAllMode f) data' (offset f) (didCancel f) false in
      if didCancel f then (v, f')
      else
        let formatted := reconstruct (isAllMode f) data' in
        (View formatted false (error v) (<[cacheKey f := formatted]> (cache v)), f')
  | Cancelled =>
      (v, Fetch (cacheKey f) (isAllMode f) (data f) (offset f) (didCancel f) false)
  | Failed msg =>
      let f' := Fetch (cacheKey f) (isAllMode f) (data f) (offset f) (didCancel f) false in
      if didCancel f then (v, f')
      else (View (salesData v) false (Some msg) (cache v), f')
  end.

Definition step (w : world) (e : event) : world :=
  match e with
  | Select configured selectedRepId allRepIds =>
      runEffect w configured selectedRepId allRepIds
  | Respond i resp =>
      match fetches w !! i with
      | Some f =>
          if running f then
            let r := resume (ui w) f resp in
            World r.1 (<[i := r.2]> (fetches w))
          else w
      | None => w
      end
  end.

Definition run (w : world) (evs : list event) : world := foldl step w evs.

Definition initial : world := World (View [] false None ∅) [].

End Sales.

Module Grid.

(** ** Records read from the host tables *)

(** An element of a linked-record or multiple-select cell value. *)
Record link := Link {
  l_id : string;
  l_name : string
}.

(** A week record; [w_dateDebut] is [parseAirtableDate] of its start cell:
    [None] for [null], otherwise the time value of the date, which is taken
    to be a valid date. *)
Record weekRecord := WeekRecord {
  w_id : string;
  w_name : string;
  w_dateDebut : option Z;
  w_dateFin : option Z
}.

Record blocRecord := BlocRecord {
  b_id : string;
  b_name : string
}.

(** A value of [weeksMap]. *)
Record weekInfo := WeekInfo {
  wi_name : string;
  wi_dateDebut : option Z;
  wi_dateFin : option Z
}.

(** [weeksMap.set(wr.id, {...})] for every week record. *)
Definition weeksMapOf (weekRecords : list weekRecord) : gmap string weekInfo :=
  foldl (fun m wr => <[w_id wr := WeekInfo (w_name wr) (w_dateDebut wr) (w_dateFin wr)]> m)
        ∅ weekRecords.

(** [blocsMap.set(br.id, {name: br.name})] for every bloc record. *)
Definition blocsMapOf (blocRecords : list blocRecord) : gmap string string :=
  foldl (fun m br => <[b_id br := b_name br]> m) ∅ blocRecords.

(** ** A [Map] in insertion order *)

Definition mapGet {V} (k : string) (m : list (string * V)) : option V :=
  snd <$> List.find (fun kv => bool_decide (kv.1 = k)) m.

(** [if (!m.has(k)) m.set(k, init); m.get(k) := f (m.get(k))] *)
Fixpoint upsert {V} (k : string) (init : V) (f : V -> V) (m : list (string * V))
    : list (string * V) :=
  match m with
  | [] => [(k, f init)]
  | kv :: rest =>
      if bool_decide (kv.1 = k) then (kv.1, f kv.2) :: rest
      else kv :: upsert k init f rest
  end.

(** ** Ordering of the weeks *)

(** The comparator given to [sort]. *)
Definition weekCmp {A} (dateDebut : A -> option Z) (a b : A) : Z :=
  match dateDebut a with
  | None => 1
  | Some ta =>
      match dateDebut b with
      | None => -1
      | Some tb => (ta - tb)%Z
      end
  end.

(** [Array.prototype.sort] belongs to the host.  It is modelled as the
    insertion sort that takes the elements in array order and places each
    one before the first element [e] of the sorted prefix for which
    [comparefn(x, e) < 0]; this is the position found by the binary
    insertion with which V8 sorts short arrays, and the only use the
    engine makes of the comparator is this sign test on (later, earlier)
    pairs. *)
Fixpoint insertBy {A} (cmp : A -> A -> Z) (x : A) (sorted : list A) : list A :=
  match sorted with
  | [] => [x]
  | e :: rest =>
      if (cmp x e <? 0)%Z then x :: e :: rest else e :: insertBy cmp x rest
  end.

Definition sortBy {A} (cmp : A -> A -> Z) (l : list A) : list A :=
  foldl (fun sorted x => insertBy cmp x sorted) [] l.

(** [selected !== '__all__'] guards of the site and canal filters: the
    event is kept when no filter is selected or when its cell value is an
    array with a link to the selected record. *)
Definition passes (selected : string) (linked : option (list link)) : bool :=
  bool_decide (selected = "__all__")
  || match linked with
     | Some ls => existsb (fun s => bool_decide (l_id s = selected)) ls
     | None => false
     end.

End Grid.

(** The row-per-event grid (the variant with site, canal and week filters
    and a totals row). *)
Module RoutageA.

Import Grid.

Definition BLOC_ORDER : list string := ["am"; "pm"; "soir"; "nuit"].
Definition DAY_CODES : list string := ["D"; "L"; "Ma"; "Me"; "J"; "V"; "S"].
Definition ALERT_THRESHOLD : nat := 5.

(** An event record through the cell values the loop reads; a cell value
    is [None] for [null] and a list for an array. *)
Record eventRecord := EventRecord {
  ev_id : string;
  ev_name : string;
  ev_weeks : option (list link);
  ev_blocs : option (list link);
  ev_sites : option (list link);
  ev_canals : option (list link);
  ev_jours : option (list link)
}.

(** An element of [events] of a week: one row of the grid. *)
Record eventRow := EventRow {
  eventName : string;
  eventId : string;
  activeDays : gset string;
  blocNames : gset string
}.

(** A value of [gridData]. *)
Record weekGroup := WeekGroup {
  weekId : string;
  weekName : string;
  dateDebut : option Z;
  dateFin : option Z;
  events : list eventRow
}.

Record config := Config {
  allConfigured : bool;
  weekRecords : list weekRecord;
  blocRecords : list blocRecord;
  selectedSiteId : string;
  selectedWeekId : string;
  selectedCanalId : string
}.

Definition pushRow (row : eventRow) (g : weekGroup) : weekGroup :=
  WeekGroup (weekId g) (weekName g) (dateDebut g) (dateFin g) (events g ++ [row]).

(** [activeDays.add(day.name)] for every element when the cell is an array. *)
Definition activeDaysOf (event : eventRecord) : gset string :=
  list_to_set (l_name <$> default [] (ev_jours event)).

(** [blocNames.add(blocInfo.name)] for every linked bloc found in [blocsMap]. *)
Definition blocNamesOf (blocsMap : gmap string string) (linkedBlocs : list link)
    : gset string :=
  list_to_set (omap (fun blocLink => blocsMap !! l_id blocLink) linkedBlocs).

(** Body of [for (const weekLink of linkedWeeks)]. *)
Definition addWeekLink (cfg : config) (weeksMap : gmap string weekInfo) (row : eventRow)
    (gridData : list (string * weekGroup)) (weekLink : link) : list (string * weekGroup) :=
  if negb (bool_decide (selectedWeekId cfg = "__all__"))
     && negb (bool_decide (l_id weekLink = selectedWeekId cfg))
  then gridData
  else
    match weeksMap !! l_id weekLink with
    | None => gridData
    | Some weekInfo =>
        upsert (l_id weekLink)
               (WeekGroup (l_id weekLink) (wi_name weekInfo) (wi_dateDebut weekInfo)
                          (wi_dateFin weekInfo) [])
               (pushRow row) gridData
    end.

(** Body of [for (const event of eventRecords)]. *)
Definition processEvent (cfg : config) (weeksMap : gmap string weekInfo)
    (blocsMap : gmap string string)
    (gridData : list (string * weekGroup)) (event : eventRecord) : list (string * weekGroup) :=
  if negb (passes (selectedSiteId cfg) (ev_sites event)) then gridData
  else if negb (passes (selectedCanalId cfg) (ev_canals event)) then gridData
  else
    match ev_weeks event, ev_blocs event with
    | Some linkedWeeks, Some linkedBlocs =>
        let row := EventRow (ev_name event) (ev_id event) (activeDaysOf event)
                            (blocNamesOf blocsMap linkedBlocs) in
        foldl (addWeekLink cfg weeksMap row) gridData linkedWeeks
    | _, _ => gridData
    end.

Definition gridDataOf (cfg : config) (eventRecords : list eventRecord)
    : list (string * weekGroup) :=
  foldl (processEvent cfg (weeksMapOf (weekRecords cfg)) (blocsMapOf (blocRecords cfg)))
        [] eventRecords.

(** The memoised [sortedWeeks]. *)
Definition sortedWeeks (cfg : config) (eventRecords : list eventRecord) : list weekGroup :=
  if negb (allConfigured cfg) then []
  else sortBy (weekCmp dateDebut) (snd <$> gridDataOf cfg eventRecords).

(** The inner loops of the totals: the number of rows of the week that are
    in [bloc] and active on [dayCode]. *)
Definition cellTotal (evs : list eventRow) (bloc dayCode : string) : nat :=
  foldl (fun count ev =>
           if bool_decide (bloc ∈ blocNames ev) && bool_decide (dayCode ∈ activeDays ev)
           then S count else count)
        0%nat evs.

(** [totals[bloc] = DAY_CODES.map(...)] for every bloc of [BLOC_ORDER]. *)
Definition totals (evs : list eventRow) : list (string * list nat) :=
  (fun bloc => (bloc, cellTotal evs bloc <$> DAY_CODES)) <$> BLOC_ORDER.

(** [count > ALERT_THRESHOLD] *)
Definition overLimit (count : nat) : bool := bool_decide (ALERT_THRESHOLD < count)%nat.

(** The text of a totals cell, [{count || ''}]: a number child is rendered
    as its decimal digits. *)
Definition totalText (count : nat) : string :=
  if bool_decide (count = 0%nat) then "" else pretty count.

(** [inBloc && event.activeDays.has(dayCode)] and the text of the cell. *)
Definition isActive (ev : eventRow) (blocName dayCode : string) : bool :=
  bool_decide (blocName ∈ blocNames ev) && bool_decide (dayCode ∈ activeDays ev).

Definition cellText (ev : eventRow) (blocName dayCode : string) : string :=
  if isActive ev blocName dayCode then "X" else "".

(** The occupancy count of the cell of week [w], bloc [bloc] and day
    [dayCode] in the rendered grid; a week without group has no cell. *)
Definition cellOf (cfg : config) (eventRecords : list eventRecord)
    (w bloc dayCode : string) : nat :=
  match List.find (fun g => bool_decide (weekId g = w)) (sortedWeeks cfg eventRecords) with
  | Some g => cellTotal (events g) bloc dayCode
  | None => 0%nat
  end.

End RoutageA.

(** The cross-product grid (one row per week and bloc of the event). *)
Module RoutageB.

Import Grid.

Definition BLOC_ORDER : list string := ["AM"; "PM"; "SOIR"; "NUIT"].
Definition DAY_CODES : list string := ["D"; "L"; "M"; "M2"; "J"; "V"; "S"].

Record eventRecord := EventRecord {
  ev_name : string;
  ev_weeks : option (list link);
  ev_blocs : option (list link);
  ev_jours : option (list link)
}.

Record eventRow := EventRow {
  eventName : string;
  activeDays : gset string
}.

(** A value of [gridData]; [blocs] is the inner [Map] from bloc name to the
    rows stacked in that column group. *)
Record weekEntry := WeekEntry {
  weekId : string;
  weekName : string;
  dateDebut : option Z;
  dateFin : option Z;
  blocs : list (string * list eventRow)
}.

Record config := Config {
  allConfigured : bool;
  weekRecords : list weekRecord;
  blocRecords : list blocRecord
}.

Definition activeDaysOf (event : eventRecord) : gset string :=
  list_to_set (l_name <$> default [] (ev_jours event)).

(** Body of [for (const blocLink of linkedBlocs)]. *)
Definition addBlocLink (blocsMap : gmap string string) (row : eventRow)
    (entry : weekEntry) (blocLink : link) : weekEntry :=
  match blocsMap !! l_id blocLink with
  | None => entry
  | Some blocName =>
      WeekEntry (weekId entry) (weekName entry) (dateDebut entry) (dateFin entry)
                (upsert blocName [] (fun evs => evs ++ [row]) (blocs entry))
  end.

(** Body of [for (const weekLink of linkedWeeks)]. *)
Definition addWeekLink (weeksMap : gmap string weekInfo) (blocsMap : gmap string string)
    (row : eventRow) (linkedBlocs : list link)
    (gridData : list (string * weekEntry)) (weekLink : link) : list (string * weekEntry) :=
  match weeksMap !! l_id weekLink with
  | None => gridData
  | Some weekInfo =>
      upsert (l_id weekLink)
             (WeekEntry (l_id weekLink) (wi_name weekInfo) (wi_dateDebut weekInfo)
                        (wi_dateFin weekInfo) [])
             (fun entry => foldl (addBlocLink blocsMap row) entry linkedBlocs)
             gridData
  end.

Definition processEvent (weeksMap : gmap string weekInfo) (blocsMap : gmap string string)
    (gridData : list (string * weekEntry)) (event : eventRecord) : list (string * weekEntry) :=
  match ev_weeks event, ev_blocs event with
  | Some linkedWeeks, Some linkedBlocs =>
      let row := EventRow (ev_name event) (activeDaysOf event) in
      foldl (addWeekLink weeksMap blocsMap row linkedBlocs) gridData linkedWeeks
  | _, _ => gridData
  end.

Definition gridDataOf (cfg : config) (eventRecords : list eventRecord)
    : list (string * weekEntry) :=
  foldl (processEvent (weeksMapOf (weekRecords cfg)) (blocsMapOf (blocRecords cfg)))
        [] eventRecords.

Definition sortedWeeks (cfg : config) (eventRecords : list eventRecord) : list weekEntry :=
  if negb (allConfigured cfg) then []
  else sortBy (weekCmp dateDebut) (snd <$> gridDataOf cfg eventRecords).

(** The rows drawn for a week: for each bloc of [BLOC_ORDER], the rows of
    [weekData.blocs.get(blocName)], each paired with its column group. *)
Definition renderedRows (weekData : weekEntry) : list (string * eventRow) :=
  flat_map (fun blocName =>
              (fun ev => (blocName, ev)) <$> default [] (mapGet blocName (blocs weekData)))
           BLOC_ORDER.

End RoutageB.

(** Closed forms against which the loops are stated. *)
Module SalesSpec.

Import Sales.
Local Open Scope Z_scope.

(** The carried-forward values after the days [lo], ..., [lo + n - 1] have
    been read from a per-day index, starting from [e]. *)
Definition carryOver (byDay : gmap (option Z) entry) (lo : Z) (n : nat) (e : entry)
    : entry :=
  foldl (fun e day => carry byDay day e) e (seqZ lo (Z.of_nat n)).

(** The value a reconstructed series stands for on [day]: its point of that
    day, its last point after its end, zero before its first point. *)
Definition valueAt (series : list point) (day : Z) : entry :=
  default zeroEntry (pointEntry <$> last (filter (fun p => p_date p <= day) series)).

Definition sumEntries (l : list entry) : entry := foldl addEntry zeroEntry l.

(** The rows of one performance, in fetch order. *)
Definition rowsOf (rid : string) (data : list rawRow) : list rawRow :=
  filter (fun row => record_id row = rid) data.

(** A day is in the range of the period filter: both bounds are inclusive,
    and an unset bound does not restrict. *)
Definition inRange (dateFrom dateTo : option Z) (day : Z) : Prop :=
  from_option (fun f => f <= day) True dateFrom
  /\ from_option (fun t => day <= t) True dateTo.

#[global] Instance inRange_dec dateFrom dateTo day : Decision (inRange dateFrom dateTo day).
Proof. unfold inRange. destruct dateFrom, dateTo; simpl; apply _. Defined.

(** The pages requested are those at the offsets [0], [pageSize],
    [2 * pageSize], ...; [pagesOk remote cancelled r pages] says that
    [pages] are the answers to the requests number [r], [r + 1], ..., all
    of them full, and read by an effect not yet cancelled, except the last
    one, which is short. *)
Fixpoint pagesOk (remote : nat -> response) (cancelled : nat -> bool) (r : nat)
    (pages : list (list rawRow)) : Prop :=
  match pages with
  | [] => False
  | [page] => remote (r * pageSize)%nat = RespOk page /\ (length page < pageSize)%nat
  | page :: rest =>
      remote (r * pageSize)%nat = RespOk page /\ (pageSize <= length page)%nat
      /\ cancelled r = false /\ pagesOk remote cancelled (S r) rest
  end.

(** Every closure but the latest has its flag set. *)
Definition superseded (fs : list fetch) : Prop :=
  forall i f, fs !! i = Some f -> (S i < length fs)%nat -> didCancel f = true.

(** The resolution of a pending request, as an event. *)
Definition respond (r : nat * response) : event := Respond r.1 r.2.

(** The responses addressed to the latest closure of [w]. *)
Definition forLatest (w : world) (rs : list (nat * response)) : list (nat * response) :=
  filter (fun r => S r.1 = length (fetches w)) rs.

(** [byRecord[rid]] as a per-day index, empty when the record has none. *)
Definition dayIndexOf (byRecord : gmap string (gmap (option Z) entry)) (rid : string)
    : gmap (option Z) entry :=
  default ∅ (byRecord !! rid).

(** Componentwise order of carried-forward values. *)
Definition entry_le (a b : entry) : Prop :=
  e_sold a <= e_sold b /\ e_free a <= e_free b /\ e_total a <= e_total b.

End SalesSpec.

Module GridSpec.

Import Grid.

(** A week with a start date that is not after the start date of another
    week with a start date. *)
Definition startsBefore {A} (dateDebut : A -> option Z) (a b : A) : Prop :=
  match dateDebut a, dateDebut b with
  | Some ta, Some tb => (ta <= tb)%Z
  | _, _ => False
  end.

(** The row-per-event grid read cell by cell. *)
Module A.

Import RoutageA.

(** The row pushed for an event whose bloc cell is [linkedBlocs]. *)
Definition rowOf (cfg : config) (event : eventRecord) (linkedBlocs : list link) : eventRow :=
  EventRow (ev_name event) (ev_id event) (activeDaysOf event)
           (blocNamesOf (blocsMapOf (blocRecords cfg)) linkedBlocs).

(** A week link materialises a row in week [w]: it points to [w], the
    week filter lets it through and [w] is a record of the weeks table. *)
Definition admits (cfg : config) (w : string) (weekLink : link) : Prop :=
  l_id weekLink = w
  /\ (selectedWeekId cfg = "__all__" \/ l_id weekLink = selectedWeekId cfg)
  /\ is_Some (weeksMapOf (weekRecords cfg) !! w).

#[global] Instance admits_dec cfg w weekLink : Decision (admits cfg w weekLink).
Proof. unfold admits. apply _. Defined.

(** The rows an event record adds to week [w]. *)
Definition rowsFor (cfg : config) (w : string) (event : eventRecord) : list eventRow :=
  if passes (selectedSiteId cfg) (ev_sites event)
     && passes (selectedCanalId cfg) (ev_canals event)
  then
    match ev_weeks event, ev_blocs event with
    | Some linkedWeeks, Some linkedBlocs =>
        (fun _ => rowOf cfg event linkedBlocs) <$> filter (admits cfg w) linkedWeeks
    | _, _ => []
    end
  else [].

(** What an event record adds to the count of a cell. *)
Definition contribution (cfg : config) (event : eventRecord) (w bloc dayCode : string) : nat :=
  cellTotal (rowsFor cfg w event) bloc dayCode.

(** The rows of week [w] in [gridData]. *)
Definition eventsOf (w : string) (gridData : list (string * weekGroup)) : list eventRow :=
  default [] (events <$> mapGet w gridData).

(** Every group of [gridData] is stored under its own week identifier,
    and the identifiers are distinct. *)
Definition keyed (gridData : list (string * weekGroup)) : Prop :=
  NoDup gridData.*1 /\ Forall (fun kv => weekId kv.2 = kv.1) gridData.

(** The event record adds no row to the grid: a week or bloc cell is
    [null], or no week link is materialised. *)
Definition addsNoRow (cfg : config) (event : eventRecord) : Prop :=
  ev_weeks event = None \/ ev_blocs event = None
  \/ exists linkedWeeks, ev_weeks event = Some linkedWeeks
       /\ forall weekLink, weekLink ∈ linkedWeeks -> ~ admits cfg (l_id weekLink) weekLink.

(** The event record without its links to week [w]. *)
Definition dropWeek (w : string) (event : eventRecord) : eventRecord :=
  EventRecord (ev_id event) (ev_name event)
    (filter (fun weekLink => l_id weekLink <> w) <$> ev_weeks event)
    (ev_blocs event) (ev_sites event) (ev_canals event) (ev_jours event).

(** The event record without its links to the blocs named [bloc]. *)
Definition dropBloc (cfg : config) (bloc : string) (event : eventRecord) : eventRecord :=
  EventRecord (ev_id event) (ev_name event) (ev_weeks event)
    (filter (fun blocLink => blocsMapOf (blocRecords cfg) !! l_id blocLink <> Some bloc)
       <$> ev_blocs event)
    (ev_sites event) (ev_canals event) (ev_jours event).

(** The event record without the day [dayCode] in its days cell. *)
Definition dropDay (dayCode : string) (event : eventRecord) : eventRecord :=
  EventRecord (ev_id event) (ev_name event) (ev_weeks event) (ev_blocs event)
    (ev_sites event) (ev_canals event)
    (filter (fun day => l_name day <> dayCode) <$> ev_jours event).

End A.

(** The cross-product grid read row by row. *)
Module B.

Import RoutageB.

Definition rowOf (event : eventRecord) : eventRow :=
  EventRow (ev_name event) (activeDaysOf event).

(** The row [row], drawn in week [w] under the bloc [blocName], comes
    from an event record linked to [w] and to a bloc record of that name. *)
Definition sourced (cfg : config) (eventRecords : list eventRecord)
    (w blocName : string) (row : eventRow) : Prop :=
  exists event linkedWeeks linkedBlocs weekLink blocLink,
    event ∈ eventRecords /\
    ev_weeks event = Some linkedWeeks /\ ev_blocs event = Some linkedBlocs /\
    weekLink ∈ linkedWeeks /\ l_id weekLink = w /\
    blocLink ∈ linkedBlocs /\
    blocsMapOf (blocRecords cfg) !! l_id blocLink = Some blocName /\
    row = rowOf event.

Definition entrySourced (cfg : config) (eventRecords : list eventRecord)
    (w : string) (entry : weekEntry) : Prop :=
  weekId entry = w /\
  forall blocName rows row,
    (blocName, rows) ∈ blocs entry -> row ∈ rows ->
    sourced cfg eventRecords w blocName row.

Definition wellSourced (cfg : config) (eventRecords : list eventRecord)
    (gridData : list (string * weekEntry)) : Prop :=
  forall w entry, (w, entry) ∈ gridData ->
    is_Some (weeksMapOf (weekRecords cfg) !! w) /\ entrySourced cfg eventRecords w entry.

(** The event record leaves the grid as it is: a week or bloc cell is
    [null], or no week link points to a record of the weeks table. *)
Definition addsNothing (cfg : config) (event : eventRecord) : Prop :=
  ev_weeks event = None \/ ev_blocs event = None
  \/ exists linkedWeeks, ev_weeks event = Some linkedWeeks
       /\ forall weekLink, weekLink ∈ linkedWeeks ->
            weeksMapOf (weekRecords cfg) !! l_id weekLink = None.

End B.

End GridSpec.

(** Concrete inputs on which the statements are evaluated. *)
Module Examples.

Import Sales Grid.
Local Open Scope Z_scope.

(** Sold 10 on day 1 and 8 on day 3. *)
Definition anomalyRows : list rawRow :=
  [RawRow "recP" (Some 1) (Some 10) None None; RawRow "recP" (Some 3) (Some 8) None None].

(** Two performances over three days: the first sold 5 on day 1 and 7 on
    day 3, the second 3 on day 2. *)
Definition twoPerformances : list rawRow :=
  [RawRow "recA" (Some 1) (Some 5) None None;
   RawRow "recB" (Some 2) (Some 3) None None;
   RawRow "recA" (Some 3) (Some 7) None None].

(** Two rows of the same performance on the same day, the earlier one
    higher. *)
Definition sameDayRows : list rawRow :=
  [RawRow "recP" (Some 1) (Some 10) None None; RawRow "recP" (Some 1) (Some 4) None None].

(** Cumulative sold 0, 4, 10, 10, 15 on the days 1 to 5. *)
Definition fiveDays : list point :=
  [Point 1 0 0 0; Point 2 4 0 0; Point 3 10 0 0; Point 4 10 0 0; Point 5 15 0 0].

Definition pageOfSize (n : nat) : list rawRow :=
  replicate n (RawRow "recP" (Some 1) (Some 1) None None).

(** A remote source answering 1000, 1000, then 400 rows. *)
Definition threePages (offset : nat) : response :=
  if bool_decide (offset = 0%nat) then RespOk (pageOfSize 1000)
  else if bool_decide (offset = 1000%nat) then RespOk (pageOfSize 1000)
  else if bool_decide (offset = 2000%nat) then RespOk (pageOfSize 400)
  else RespOk [].

(** Request R1 for performance P1, superseded by request R2 for P2; R2
    completes first, R1 afterwards. *)
Definition rowsP1 : list rawRow := [RawRow "recP1" (Some 1) (Some 50) None None].
Definition rowsP2 : list rawRow := [RawRow "recP2" (Some 1) (Some 7) None None].
Definition supersededRun : list event :=
  [Select true (Some "recP1") "recP1,recP2";
   Select true (Some "recP2") "recP1,recP2";
   Respond 1 (RespOk rowsP2);
   Respond 0 (RespOk rowsP1)].

(** Weeks starting on no date, on 2024-01-08 and on 2024-01-01, then on no
    date again. *)
Definition weeksToSort : list (string * option Z) :=
  [("recW1", None); ("recW2", Some (19730 * 86400000));
   ("recW3", Some (19723 * 86400000)); ("recW4", None)].

Definition gridConfig : RoutageA.config :=
  RoutageA.Config true
    [WeekRecord "recW1" "Semaine 1" (Some (19723 * 86400000)) None]
    [BlocRecord "recAM" "am"; BlocRecord "recPM" "pm"]
    "__all__" "__all__" "__all__".

(** An event of week 1, in the blocs am and pm, active on day D. *)
Definition twoBlocEvent : RoutageA.eventRecord :=
  RoutageA.EventRecord "recE1" "Montage"
    (Some [Link "recW1" "Semaine 1"])
    (Some [Link "recAM" "am"; Link "recPM" "pm"])
    None None (Some [Link "selD" "D"]).

(** An event whose bloc cell is an empty array, and one whose only bloc
    link points to no record of the blocs table. *)
Definition noBlocEvent : RoutageA.eventRecord :=
  RoutageA.EventRecord "recE2" "Repetition"
    (Some [Link "recW1" "Semaine 1"]) (Some []) None None (Some [Link "selD" "D"]).
Definition strayBlocEvent : RoutageA.eventRecord :=
  RoutageA.EventRecord "recE3" "Demontage"
    (Some [Link "recW1" "Semaine 1"]) (Some [Link "recZZ" "?"]) None None
    (Some [Link "selD" "D"]).

End Examples.

(** What the detail page draws from the state of the fetch effect, and the
    closed forms used to state how fetch, cache and series fit together. *)
Module Dashboard.

Import Sales SalesSpec.
Local Open Scope Z_scope.

(** The four outcomes of [chartContent], tested in this order: [loading],
    [error], an empty [salesData], the chart itself. *)
Inductive content :=
  | Spinner
  | ErrorMessage (msg : string)
  | NoSales
  | Chart.

Definition chartContent (v : view) : content :=
  if loading v then Spinner
  else match error v with
       | Some msg => ErrorMessage msg
       | None =>
           if bool_decide (length (salesData v) = 0%nat) then NoSales
           else Chart
       end.

(** [isAllMode ? `all_${allRepIds}` : selectedRepId] *)
Definition cacheKeyOf (selectedRepId : option string) (allRepIds : string) : string :=
  match selectedRepId with
  | None => "all_" +:+ allRepIds
  | Some rep => rep
  end.

(** The pages of one fetch resolving in turn, as events addressed to the
    closure number [i]. *)
Definition answers (i : nat) (pages : list (list rawRow)) : list event :=
  (fun page => Respond i (RespOk page)) <$> pages.


(** A series whose counters start at or above zero and never decrease. *)
Definition cumulative (series : list point) : Prop :=
  (forall p, p ∈ series -> entry_le zeroEntry (pointEntry p))
  /\ (forall i j p q, (i <= j)%nat -> series !! i = Some p -> series !! j = Some q ->
        entry_le (pointEntry p) (pointEntry q)).

(** The invariant of the cache: the closure that may still write to it was
    started on a miss for its own key. *)
Definition pendingMiss (w : world) : Prop :=
  forall f, last (fetches w) = Some f -> running f = true -> didCancel f = false ->
    cache (ui w) !! cacheKey f = None.

(** ** The band of indicator cards *)

(** An indicator card. *)
Record kpi := Kpi {
  k_value : string;
  k_label : string
}.

(** [!!(dateFrom || dateTo)] *)
Definition hasFilter (dateFrom dateTo : option Z) : bool :=
  bool_decide (is_Some dateFrom) || bool_decide (is_Some dateTo).

Section cards.

(** [n.toLocaleString('fr-FR')], and the same with no fraction digit:
    formatting belongs to the host. *)
Variables toLocaleString toLocaleString0 : Z -> string.

(** [fixedKPIs].  [filtered] is [filteredSalesData]; the point [last] is
    read only where [salesData] is not empty. *)
Definition fixedKPIs (salesData : list point) (filtered : list (nat * point))
    (hasFilter : bool) (periodStats : option stats) : list kpi :=
  if bool_decide (length salesData = 0%nat)
  then [Kpi "—" "Billets vendus"; Kpi "—" "Revenus"]
  else
    let lastP := match last filtered with
                 | Some d => d.2
                 | None => default zeroPoint (last salesData)
                 end in
    match (if hasFilter then periodStats else None) with
    | Some st =>
        [Kpi ("+" +:+ toLocaleString (ventesInPeriod st)) "Billets vendus (période)";
         Kpi ("+" +:+ toLocaleString0 (revenusInPeriod st) +:+ " $") "Revenus (période)"]
    | None =>
        [Kpi (toLocaleString (ventes lastP)) "Billets vendus";
         Kpi (toLocaleString0 (total_dollars lastP) +:+ " $") "Revenus"]
    end.

End cards.

(** A field of the spectacles table, and a spectacle record through
    [getCellValueAsString], by field identifier. *)
Record field := Field {
  f_id : string;
  f_name : string
}.

Record spectacleRecord := SpectacleRecord {
  s_id : string;
  s_cells : gmap string string
}.

(** [[kpiField1, ..., kpiField6].filter(Boolean)] *)
Definition kpiFieldsOf (configured : list (option field)) : list field :=
  omap id configured.

(** [spectacleKPIs] *)
Definition spectacleKPIs (selectedSpectacleId : option string)
    (spectacleRecords : list spectacleRecord) (kpiFields : list field) : list kpi :=
  match selectedSpectacleId with
  | None => []
  | Some sid =>
      if bool_decide (length kpiFields = 0%nat) then []
      else match List.find (fun r => bool_decide (s_id r = sid)) spectacleRecords with
           | None => []
           | Some record =>
               (fun f => Kpi (default "" (s_cells record !! f_id f)) (f_name f)) <$> kpiFields
           end
  end.

(** [Math.max(0, 6 - spectacleKPIs.length)] *)
Definition emptySlots (shown : nat) : nat := Z.to_nat (Z.max 0 (6 - Z.of_nat shown)).

End Dashboard.

(** The code of the row-per-event grid around its main loop: the lookup
    behind a click on a row and the options of the week filter, with the
    configurations against which the three filters are stated. *)
Module RoutageAView.

Import Grid RoutageA.

(** [eventRecordsById]: [map.set(r.id, r)] for every event record. *)
Definition eventRecordsById (eventRecords : list eventRecord) : gmap string eventRecord :=
  foldl (fun m r => <[ev_id r := r]> m) ∅ eventRecords.

(** [handleRowClick(eventId)]: the record handed to [expandRecord], if
    any. *)
Definition handleRowClick (canExpand : bool) (eventRecords : list eventRecord)
    (eventId : string) : option eventRecord :=
  if negb canExpand then None else eventRecordsById eventRecords !! eventId.


(** The event passes the site filter and the canal filter. *)
Definition keepsEvent (cfg : config) (event : eventRecord) : bool :=
  passes (selectedSiteId cfg) (ev_sites event)
  && passes (selectedCanalId cfg) (ev_canals event).

(** The configuration with the site and canal filters on "all". *)
Definition withoutRecordFilters (cfg : config) : config :=
  Config (allConfigured cfg) (weekRecords cfg) (blocRecords cfg)
         "__all__" (selectedWeekId cfg) "__all__".

(** The configuration with the week filter on "all". *)
Definition withoutWeekFilter (cfg : config) : config :=
  Config (allConfigured cfg) (weekRecords cfg) (blocRecords cfg)
         (selectedSiteId cfg) "__all__" (selectedCanalId cfg).

(** A group has a row, and carries the name and the dates of the week
    record it stands for. *)
Definition groupOk (cfg : config) (g : weekGroup) : Prop :=
  events g <> []
  /\ weeksMapOf (weekRecords cfg) !! weekId g
     = Some (WeekInfo (weekName g) (dateDebut g) (dateFin g)).

Definition groupsOk (cfg : config) (gridData : list (string * weekGroup)) : Prop :=
  forall k g, (k, g) ∈ gridData -> groupOk cfg g.

End RoutageAView.

(** The table body of the cross-product grid, and the closed form of its
    stacks of rows. *)
Module RoutageBView.

Import Grid RoutageB.

(** [Math.max(1, ...BLOC_ORDER.map((bn) => bd ? bd.events.length : 0))] *)
Definition maxEvents (weekData : weekEntry) : nat :=
  Nat.max 1 (max_list ((fun bn => match mapGet bn (blocs weekData) with
                                  | Some evs => length evs
                                  | None => 0
                                  end) <$> BLOC_ORDER)).

(** [blocData ? blocData.events[rowIdx] : null]; past the end of the
    array the index gives [undefined], as falsy as [null]. *)
Definition cellEvent (weekData : weekEntry) (blocName : string) (rowIdx : nat)
    : option eventRow :=
  mapGet blocName (blocs weekData) ≫= (fun evs => evs !! rowIdx).

(** [event && event.activeDays.has(dayCode)] *)
Definition isActive (event : option eventRow) (dayCode : string) : bool :=
  match event with
  | Some ev => bool_decide (dayCode ∈ activeDays ev)
  | None => false
  end.

(** One row of the body: for each bloc of [BLOC_ORDER], the texts of the
    seven day cells and of the name cell. *)
Definition bodyRow (weekData : weekEntry) (rowIdx : nat) : list (list string * string) :=
  (fun blocName =>
     let event := cellEvent weekData blocName rowIdx in
     ((fun dayCode => if isActive event dayCode then "X" else "") <$> DAY_CODES,
      match event with Some ev => eventName ev | None => "" end))
  <$> BLOC_ORDER.

(** [Array.from({length: maxEvents}, (_, rowIdx) => ...)] *)
Definition body (weekData : weekEntry) : list (list (list string * string)) :=
  bodyRow weekData <$> seq 0 (maxEvents weekData).

(** The rows stacked under [blocName] in an entry, and in the entry of
    week [w] of the grid; none when there is no such entry or stack. *)
Definition blocStack (blocName : string) (entry : weekEntry) : list eventRow :=
  default [] (mapGet blocName (blocs entry)).

Definition stackOf (w blocName : string) (gridData : list (string * weekEntry))
    : list eventRow :=
  from_option (blocStack blocName) [] (mapGet w gridData).

(** A week link points to [w], a record of the weeks table; a bloc link
    points to a bloc record named [blocName]. *)
Definition toWeek (cfg : config) (w : string) (weekLink : link) : Prop :=
  l_id weekLink = w /\ is_Some (weeksMapOf (weekRecords cfg) !! w).

Definition toBloc (cfg : config) (blocName : string) (blocLink : link) : Prop :=
  blocsMapOf (blocRecords cfg) !! l_id blocLink = Some blocName.

#[global] Instance toWeek_dec cfg w weekLink : Decision (toWeek cfg w weekLink).
Proof. unfold toWeek. apply _. Defined.

#[global] Instance toBloc_dec cfg blocName blocLink : Decision (toBloc cfg blocName blocLink).
Proof. unfold toBloc. apply _. Defined.

(** The rows an event record stacks under the bloc [blocName] of week
    [w]: one for each pair of a link to [w] and a link to a bloc of that
    name. *)
Definition rowsUnder (cfg : config) (w blocName : string) (event : eventRecord)
    : list eventRow :=
  match ev_weeks event, ev_blocs event with
  | Some linkedWeeks, Some linkedBlocs =>
      flat_map (fun _ => (fun _ => EventRow (ev_name event) (activeDaysOf event))
                           <$> filter (toBloc cfg blocName) linkedBlocs)
               (filter (toWeek cfg w) linkedWeeks)
  | _, _ => []
  end.

(** The event record opens (or finds) the entry of week [w]. *)
Definition reachesWeek (cfg : config) (w : string) (event : eventRecord) : Prop :=
  exists linkedWeeks linkedBlocs weekLink,
    ev_weeks event = Some linkedWeeks /\ ev_blocs event = Some linkedBlocs
    /\ weekLink ∈ linkedWeeks /\ toWeek cfg w weekLink.

(** A grid of two weeks and two blocs, and an event linked to both weeks
    and both blocs, active on day L. *)
Definition crossConfig : config :=
  Config true
    [WeekRecord "recW1" "Semaine 1" (Some 1704085200000%Z) None;
     WeekRecord "recW2" "Semaine 2" (Some 1704690000000%Z) None]
    [BlocRecord "recAM" "AM"; BlocRecord "recPM" "PM"].

Definition crossEvent : eventRecord :=
  EventRecord "Montage"
    (Some [Link "recW1" "Semaine 1"; Link "recW2" "Semaine 2"])
    (Some [Link "recAM" "AM"; Link "recPM" "PM"])
    (Some [Link "selL" "L"]).

End RoutageBView.

(** The representations of the selected spectacle ([SalesChartApp]), in
    the order of the table of the detail page and of [allRepIds]. *)
Module Representations.

Import Grid.

(** A record of the representations table through the cells that decide
    which rows are kept and in which order: the cell of the link field
    ([None] when it is not an array), the name of the record and the
    string of the name field, the cell of the date column as a time value
    ([None] when it is falsy; a date is taken to be valid), and the string
    of the status field. *)
Record repRecord := RepRecord {
  rr_id : string;
  rr_name : string;
  rr_spectacles : option (list link);
  rr_repName : string;
  rr_date : option Z;
  rr_status : string
}.

(** An element of [representations]; the capacity, the revenue potential
    and the display columns play no part in filtering or sorting and are
    left out. *)
Record representation := Representation {
  rep_id : string;
  rep_name : string;
  rawDate : option Z;
  rawStatus : string
}.

(** Which of the optional fields are configured. *)
Record repFields := RepFields {
  spectacleLinkField : bool;
  repNameField : bool;
  colDateRep : bool;
  filterStatusField : bool
}.

(** The predicate of the first [filter]. *)
Definition linkedTo (selectedSpectacleId : string) (record : repRecord) : bool :=
  match rr_spectacles record with
  | Some linkValue => existsb (fun l => bool_decide (l_id l = selectedSpectacleId)) linkValue
  | None => false
  end.

(** The function of [map]. *)
Definition toRepresentation (fields : repFields) (record : repRecord) : representation :=
  Representation (rr_id record)
    (if repNameField fields then rr_repName record else rr_name record)
    (if colDateRep fields then rr_date record else None)
    (if filterStatusField fields then rr_status record else "").

Section order.

(** [a.localeCompare(b, 'fr')] belongs to the host. *)
Variable localeCompare : string -> string -> Z.

(** The comparator given to [sort]. *)
Definition repCmp (a b : representation) : Z :=
  match rawDate a, rawDate b with
  | Some ta, Some tb => (ta - tb)%Z
  | Some _, None => (-1)%Z
  | None, Some _ => 1%Z
  | None, None => localeCompare (rep_name a) (rep_name b)
  end.

(** [representations] *)
Definition representations (fields : repFields) (selectedSpectacleId : option string)
    (repRecords : list repRecord) : list representation :=
  match selectedSpectacleId with
  | None => []
  | Some sid =>
      if negb (spectacleLinkField fields) then []
      else
        sortBy repCmp
          (filter (fun r => rep_name r <> "")
             (toRepresentation fields
                <$> filter (fun record => linkedTo sid record = true) repRecords))
  end.

End order.

End Representations.

(** The campaign charts ([MultiAxisChartsApp], first component of
    [graphique_dual_axes/frontend/index.js]): label truncation, the options
    of the filter dropdown and the records kept by the filter.  A string is
    the sequence of its code units. *)
Module MultiAxis.

Import Grid.

(** [truncate(str, max)]; [str] is [None] for [null] or [undefined].  The
    empty string, falsy as well, is returned as it is by either branch. *)
Definition truncate (str : option string) (max : nat) : string :=
  match str with
  | None => ""
  | Some s =>
      if bool_decide (max < String.length s) then String.substring 0 max s +:+ "..." else s
  end.

(** The shapes of cell value that the filter tells apart: an array of
    links, an object with a [name] (a single select), anything else. *)
Inductive cellValue :=
  | CellLinks (links : list link)
  | CellNamed (name : string)
  | CellOther.

(** A record of the data table through the filter field: its cell value
    and [getCellValueAsString] of the same field. *)
Record chartRecord := ChartRecord {
  cr_id : string;
  cr_cell : cellValue;
  cr_string : string
}.

(** [if (name && !seen.has(name)) { seen.add(name); options.push(name); }]
    on the pair of [seen] and [options]. *)
Definition addOption (st : gset string * list string) (name : string)
    : gset string * list string :=
  if negb (bool_decide (name = "")) && negb (bool_decide (name ∈ st.1))
  then ({[name]} ∪ st.1, st.2 ++ [name])
  else st.

(** Body of [for (const record of records)]: an object whose [name] is
    empty falls to the last branch. *)
Definition scanRecord (st : gset string * list string) (record : chartRecord)
    : gset string * list string :=
  match cr_cell record with
  | CellLinks links => foldl (fun st link => addOption st (l_name link)) st links
  | CellNamed name =>
      if bool_decide (name = "") then addOption st (cr_string record)
      else addOption st name
  | CellOther => addOption st (cr_string record)
  end.

(** The order of the default [sort()]: code unit by code unit. *)
Definition str_le (a b : string) : Prop := String.leb a b = true.

#[global] Instance str_le_dec : RelDecision str_le.
Proof. intros a b. unfold str_le. apply _. Defined.

#[global] Instance str_le_total : Total str_le.
Proof. intros a b. apply String.leb_total. Qed.

#[global] Instance str_le_trans : Transitive str_le.
Proof.
  unfold str_le, String.leb. intros a.
  induction a as [|x a IH]; intros [|y b] [|z c]; simpl; try done.
  unfold Ascii.compare.
  destruct (N.compare_spec (Ascii.N_of_ascii x) (Ascii.N_of_ascii y)) as [Hxy|Hxy|Hxy];
    destruct (N.compare_spec (Ascii.N_of_ascii y) (Ascii.N_of_ascii z)) as [Hyz|Hyz|Hyz];
    destruct (N.compare_spec (Ascii.N_of_ascii x) (Ascii.N_of_ascii z)) as [Hxz|Hxz|Hxz];
    try done; try lia.
  apply IH.
Qed.

(** [filterOptions]; [filterField] tells whether the filter field is
    configured. *)
Definition filterOptions (filterField : bool) (records : list chartRecord) : list string :=
  if negb filterField then []
  else merge_sort str_le (foldl scanRecord (∅, []) records).2.

(** The predicate of [records.filter(...)] in [filteredRecords]. *)
Definition matchesFilter (selectedFilter : string) (record : chartRecord) : bool :=
  match cr_cell record with
  | CellLinks links => existsb (fun link => bool_decide (l_name link = selectedFilter)) links
  | CellNamed name =>
      if bool_decide (name = "") then bool_decide (cr_string record = selectedFilter)
      else bool_decide (name = selectedFilter)
  | CellOther => bool_decide (cr_string record = selectedFilter)
  end.

Definition filteredRecords (filterField : bool) (selectedFilter : string)
    (records : list chartRecord) : list chartRecord :=
  if bool_decide (selectedFilter = "__all__") || negb filterField then records
  else filter (fun record => matchesFilter selectedFilter record = true) records.

(** The set [seen] and the array [options] hold the same names, each
    once. *)
Definition coherent (st : gset string * list string) : Prop :=
  NoDup st.2 /\ forall name, name ∈ st.1 <-> name ∈ st.2.

End MultiAxis.

(** The calendar of the host's [Date] objects, after the definitions of
    the language standard (ECMA-262, "Time Values and Time Range" to "Date
    Number"): a time value is a number of milliseconds, and the date of the
    month is read off the number of its day.  [YearFromTime], specified as
    the largest year starting at or before the time value, is computed from
    an estimate by the mean length of a year, corrected by one year at
    most. *)
Module HostDate.

Local Open Scope Z_scope.

Definition msPerDay : Z := 86400000.

(** [Day(t) = floor(t / msPerDay)] and [TimeWithinDay(t) = t modulo
    msPerDay]. *)
Definition Day (t : Z) : Z := t / msPerDay.
Definition TimeWithinDay (t : Z) : Z := t mod msPerDay.

Definition DaysInYear (y : Z) : Z :=
  if negb (y mod 4 =? 0) then 365
  else if negb (y mod 100 =? 0) then 366
  else if negb (y mod 400 =? 0) then 365
  else 366.

(** The day number of the first day of year [y]. *)
Definition DayFromYear (y : Z) : Z :=
  365 * (y - 1970) + (y - 1969) / 4 - (y - 1901) / 100 + (y - 1601) / 400.

(** The year in which the time value falls. *)
Definition YearFromTime (t : Z) : Z :=
  let d := Day t in
  let y := 1970 + (400 * d) / 146097 in
  if DayFromYear (y + 1) <=? d then y + 1
  else if DayFromYear y <=? d then y else y - 1.

Definition InLeapYear (t : Z) : Z :=
  if DaysInYear (YearFromTime t) =? 365 then 0 else 1.

Definition DayWithinYear (t : Z) : Z := Day t - DayFromYear (YearFromTime t).

(** The month, from 0 for January, and the date of the month, from 1. *)
Definition MonthFromTime (t : Z) : Z :=
  let d := DayWithinYear t in
  let l := InLeapYear t in
  if d <? 31 then 0
  else if d <? 59 + l then 1
  else if d <? 90 + l then 2
  else if d <? 120 + l then 3
  else if d <? 151 + l then 4
  else if d <? 181 + l then 5
  else if d <? 212 + l then 6
  else if d <? 243 + l then 7
  else if d <? 273 + l then 8
  else if d <? 304 + l then 9
  else if d <? 334 + l then 10
  else 11.

Definition DateFromTime (t : Z) : Z :=
  let d := DayWithinYear t in
  let l := InLeapYear t in
  match MonthFromTime t with
  | 0 => d + 1
  | 1 => d - 30
  | 2 => d - 58 - l
  | 3 => d - 89 - l
  | 4 => d - 119 - l
  | 5 => d - 150 - l
  | 6 => d - 180 - l
  | 7 => d - 211 - l
  | 8 => d - 242 - l
  | 9 => d - 272 - l
  | 10 => d - 303 - l
  | _ => d - 333 - l
  end.

(** The day within the year on which the month [mn] starts, [l] being 1
    in a leap year and 0 otherwise. *)
Definition monthStart (l : Z) (mn : Z) : Z :=
  match mn with
  | 0 => 0
  | 1 => 31
  | 2 => 59 + l
  | 3 => 90 + l
  | 4 => 120 + l
  | 5 => 151 + l
  | 6 => 181 + l
  | 7 => 212 + l
  | 8 => 243 + l
  | 9 => 273 + l
  | 10 => 304 + l
  | _ => 334 + l
  end.

(** [MakeDay(year, month, date)]: the day number of the first day of the
    month, moved by [date - 1]; months beyond the year carry over. *)
Definition MakeDay (year month date : Z) : Z :=
  let ym := year + month / 12 in
  let mn := month mod 12 in
  DayFromYear ym + monthStart (if DaysInYear ym =? 365 then 0 else 1) mn + date - 1.

Definition MakeDate (day time : Z) : Z := day * msPerDay + time.


(** The length of a month of the civil calendar. *)
Definition daysInMonth (year monthIndex : Z) : Z :=
  let l := if DaysInYear year =? 365 then 0 else 1 in
  match monthIndex with
  | 0 | 2 | 4 | 6 | 7 | 9 | 11 => 31
  | 1 => 28 + l
  | _ => 30
  end.

End HostDate.

(** The two date helpers shared by both grids.  The host's zone comes in
    through its two conversions, [LocalTime] from a time value to local
    time and [UTC] back. *)
Module GridDates.

Import HostDate.
Local Open Scope Z_scope.

Section zone.

Variables LocalTime UTC : Z -> Z.

(** [d.getDate()] *)
Definition getDate (t : Z) : Z := DateFromTime (LocalTime t).

(** [d.setDate(date)]: the day of the month is replaced, the year, the
    month and the time within the day are kept, all in local time. *)
Definition setDate (t date : Z) : Z :=
  let l := LocalTime t in
  UTC (MakeDate (MakeDay (YearFromTime l) (MonthFromTime l) date) (TimeWithinDay l)).

(** [new Date(year, monthIndex, date)]: local midnight of that day; a year
    from 0 to 99 stands for the year 1900 later. *)
Definition newDate (year monthIndex date : Z) : Z :=
  let yr := if (0 <=? year) && (year <=? 99) then 1900 + year else year in
  UTC (MakeDate (MakeDay yr monthIndex date) 0).

(** [parseAirtableDate(dateStr)].  [parts] is [None] for a falsy
    [dateStr], and otherwise [str.split('-').map(Number)], whose elements
    are taken to be numbers; with fewer than three parts the result is
    [null], and parts after the third are ignored. *)
Definition parseAirtableDate (parts : option (list Z)) : option Z :=
  match parts with
  | Some (year :: month :: day :: _) => Some (newDate year (month - 1) day)
  | _ => None
  end.

(** [computeDayNumbers(dateDebut)]: [Array(7).fill(null)] without start
    date, and otherwise, for each day code, the date of the month of the
    start date moved by the index of the code. *)
Definition computeDayNumbers (DAY_CODES : list string) (dateDebut : option Z)
    : list (option Z) :=
  match dateDebut with
  | None => replicate 7 None
  | Some start =>
      imap (fun index _ => Some (getDate (setDate start (getDate start + Z.of_nat index))))
           DAY_CODES
  end.

End zone.

(** A zone five hours behind UTC all year. *)
Definition minusFive : Z -> Z := fun t => t - 18000000.
Definition plusFive : Z -> Z := fun t => t + 18000000.

End GridDates.

(** * Part II.  Theorems *)

Import Sales Examples.
Local Open Scope Z_scope.

Import SalesSpec.

(** ** Dates and the day loop *)

Lemma isoDay_newDate day : isoDay (day * msPerDay) = day.
Proof. unfold isoDay, msPerDay. apply Z.div_mul. lia. Qed.

Lemma setDateNext_day day : setDateNext (day * msPerDay) = (day + 1) * msPerDay.
Proof. unfold setDateNext. lia. Qed.

Lemma day_guard lo hi : (lo * msPerDay <=? hi * msPerDay) = (lo <=? hi).
Proof.
  unfold msPerDay.
  destruct (Z.leb_spec lo hi); [apply Z.leb_le | apply Z.leb_gt]; lia.
Qed.

Lemma carryOver_0 byDay lo e : carryOver byDay lo 0 e = e.
Proof. reflexivity. Qed.

Lemma carryOver_S_l byDay lo n e :
  carryOver byDay lo (S n) e = carryOver byDay (lo + 1) n (carry byDay lo e).
Proof.
  unfold carryOver. rewrite seqZ_cons by lia. simpl.
  by replace (Z.pred (Z.of_nat (S n))) with (Z.of_nat n) by lia.
Qed.

Lemma carryOver_S_r byDay lo n e :
  carryOver byDay lo (S n) e = carry byDay (lo + Z.of_nat n) (carryOver byDay lo n e).
Proof. unfold carryOver. by rewrite seqZ_S, foldl_app. Qed.

Lemma carryOver_add byDay lo a b e :
  carryOver byDay lo (a + b) e
  = carryOver byDay (lo + Z.of_nat a) b (carryOver byDay lo a e).
Proof.
  unfold carryOver. rewrite Nat2Z.inj_add, seqZ_app, foldl_app by lia. done.
Qed.


(** The loop leaves through its guard: with enough fuel it yields one
    point per day of the span, whatever the fuel. *)
Lemma fillDays_length fuel byDay lo hi e :
  (Z.to_nat (hi - lo + 1) < fuel)%nat ->
  length (fillDays fuel byDay (lo * msPerDay) (hi * msPerDay) e) = Z.to_nat (hi - lo + 1).
Proof.
  revert lo e. induction fuel as [|fuel IH]; intros lo e Hfuel; [lia|].
  simpl. rewrite day_guard. destruct (Z.leb_spec lo hi) as [Hle|Hgt].
  - simpl. rewrite setDateNext_day, IH by lia. lia.
  - simpl. lia.
Qed.

Lemma fillDays_lookup k fuel byDay lo hi e :
  (Z.to_nat (hi - lo + 1) < fuel)%nat ->
  (k < Z.to_nat (hi - lo + 1))%nat ->
  fillDays fuel byDay (lo * msPerDay) (hi * msPerDay) e !! k
  = Some (mkPoint (lo + Z.of_nat k) (carryOver byDay lo (S k) e)).
Proof.
  revert fuel lo e. induction k as [|k IH]; intros fuel lo e Hfuel Hk;
    (destruct fuel as [|fuel]; [lia|]); simpl; rewrite day_guard;
    (destruct (Z.leb_spec lo hi) as [Hle|Hgt]; [|lia]); simpl;
    rewrite isoDay_newDate.
  - rewrite carryOver_S_l, carryOver_0. by replace (lo + Z.of_nat 0) with lo by lia.
  - rewrite setDateNext_day, IH by lia. rewrite (carryOver_S_l byDay lo (S k)).
    do 2 f_equal. lia.
Qed.

(** The result does not depend on the fuel once there is enough of it. *)
Lemma fillDays_fuel fuel1 fuel2 byDay lo hi e :
  (Z.to_nat (hi - lo + 1) < fuel1)%nat ->
  (Z.to_nat (hi - lo + 1) < fuel2)%nat ->
  fillDays fuel1 byDay (lo * msPerDay) (hi * msPerDay) e
  = fillDays fuel2 byDay (lo * msPerDay) (hi * msPerDay) e.
Proof.
  intros H1 H2. apply list_eq. intros k.
  destruct (decide (k < Z.to_nat (hi - lo + 1))%nat) as [Hk|Hk].
  - by rewrite !fillDays_lookup.
  - rewrite !lookup_ge_None_2; [done| |]; rewrite fillDays_length; lia.
Qed.

Lemma spanFuel_enough lo hi :
  (Z.to_nat (hi - lo + 1) < spanFuel (lo * msPerDay) (hi * msPerDay))%nat.
Proof.
  unfold spanFuel.
  replace (hi * msPerDay - lo * msPerDay) with ((hi - lo) * msPerDay) by lia.
  rewrite Z.div_mul by (unfold msPerDay; lia). lia.
Qed.

(** ** The per-day index *)

Lemma indexByDay_snoc data row :
  indexByDay (data ++ [row]) = <[dayOf row := entryOf row]> (indexByDay data).
Proof. unfold indexByDay. by rewrite foldl_app. Qed.

(** Last write wins: the index holds, for each key, the entry of the last
    row carrying that key. *)
Lemma indexByDay_lookup data key :
  indexByDay data !! key = entryOf <$> last (filter (fun row => dayOf row = key) data).
Proof.
  induction data as [|row data IH] using rev_ind; [done|].
  rewrite indexByDay_snoc, filter_app, lookup_insert.
  rewrite filter_cons, filter_nil. repeat case_decide; try congruence.
  - by rewrite last_snoc.
  - by rewrite app_nil_r.
Qed.

Lemma dom_indexByDay data key :
  key ∈ dom (indexByDay data) <-> key ∈ dayOf <$> data.
Proof.
  induction data as [|row data IH] using rev_ind.
  - unfold indexByDay. simpl. rewrite dom_empty, elem_of_empty, elem_of_nil. done.
  - rewrite indexByDay_snoc, dom_insert, fmap_app, elem_of_union, elem_of_app, IH.
    rewrite elem_of_singleton. simpl. rewrite list_elem_of_singleton. tauto.
Qed.

(** ** Sorted keys *)

Lemma StronglySorted_last_max {A} (R : relation A) `{!Reflexive R} l y :
  StronglySorted R l -> last l = Some y -> forall z, z ∈ l -> R z y.
Proof.
  induction 1 as [|x l Hl IH Hx]; intros Hlast z Hz; [by apply elem_of_nil in Hz|].
  destruct l as [|x' l'].
  - simpl in Hlast. apply list_elem_of_singleton in Hz. by simplify_eq.
  - rewrite last_cons_cons in Hlast. apply elem_of_cons in Hz as [->|Hz].
    + rewrite Forall_forall in Hx. apply Hx. by apply last_Some_elem_of.
    + by apply IH.
Qed.

(** The first and the last of the sorted keys of dated rows are the
    earliest and the latest day. *)
Lemma sorted_keys_bounds (l : list (option Z)) :
  l <> [] -> (forall k, k ∈ l -> is_Some k) ->
  exists lo hi,
    head (merge_sort key_le l) = Some (Some lo) /\
    last (merge_sort key_le l) = Some (Some hi) /\
    Some lo ∈ l /\ Some hi ∈ l /\
    forall d, Some d ∈ l -> lo <= d <= hi.
Proof.
  intros Hne Hdated.
  pose proof (merge_sort_Permutation key_le l) as Hperm.
  pose proof (StronglySorted_merge_sort key_le l) as Hsorted.
  destruct (merge_sort key_le l) as [|x s] eqn:Hs.
  { apply Permutation_nil_l in Hperm. congruence. }
  assert (Hin : forall k, k ∈ x :: s <-> k ∈ l) by (intros k; by rewrite Hperm).
  destruct (Hdated x) as [lo ->]; [apply Hin; left|].
  destruct (last (Some lo :: s)) as [y|] eqn:Hlast;
    [|by apply last_None in Hlast].
  destruct (Hdated y) as [hi ->]; [by apply Hin, last_Some_elem_of|].
  exists lo, hi. repeat split.
  - apply Hin. left.
  - by apply Hin, last_Some_elem_of.
  - apply Hin in H. apply elem_of_cons in H as [H|H]; [simplify_eq; lia|].
    apply StronglySorted_inv in Hsorted as [_ Hall].
    rewrite Forall_forall in Hall. by apply (Hall (Some d)).
  - apply Hin in H.
    by apply (StronglySorted_last_max key_le _ _ Hsorted Hlast (Some d)).
Qed.

(** ** Single-performance mode *)

(** The series of dated rows: one point per day from the earliest day [lo]
    to the latest day [hi], the point of day [lo + k] holding the values
    carried over the days [lo], ..., [lo + k]. *)
Lemma reconstructSingle_closed (data : list rawRow) :
  data <> [] -> (forall row, row ∈ data -> is_Some (date row)) ->
  exists lo hi,
    Some lo ∈ date <$> data /\ Some hi ∈ date <$> data /\
    (forall d, Some d ∈ date <$> data -> lo <= d <= hi) /\
    length (reconstructSingle data) = Z.to_nat (hi - lo + 1) /\
    forall k, (k < Z.to_nat (hi - lo + 1))%nat ->
      reconstructSingle data !! k
      = Some (mkPoint (lo + Z.of_nat k) (carryOver (indexByDay data) lo (S k) zeroEntry)).
Proof.
  intros Hne Hdated.
  assert (Hkeys : forall k, k ∈ elements (dom (indexByDay data)) <-> k ∈ date <$> data).
  { intros k. by rewrite elem_of_elements, dom_indexByDay. }
  destruct (sorted_keys_bounds (elements (dom (indexByDay data))))
    as (lo & hi & Hhead & Hlast & Hlo & Hhi & Hbounds).
  { destruct data as [|row data]; [done|].
    intros Hnil. assert (date row ∈ elements (dom (indexByDay (row :: data)))) as Hin.
    { apply Hkeys. rewrite fmap_cons. left. }
    rewrite Hnil in Hin. by apply elem_of_nil in Hin. }
  { intros k Hk. apply Hkeys, list_elem_of_fmap in Hk as (row & -> & Hrow). by apply Hdated. }
  exists lo, hi.
  assert (reconstructSingle data
          = fillDays (spanFuel (lo * msPerDay) (hi * msPerDay)) (indexByDay data)
                     (lo * msPerDay) (hi * msPerDay) zeroEntry) as ->.
  { unfold reconstructSingle, sortedKeys. rewrite Hhead, Hlast. simpl.
    rewrite bool_decide_true; [done|].
    destruct (merge_sort key_le (elements (dom (indexByDay data)))); [done|simpl; lia]. }
  split_and!.
  - by apply Hkeys.
  - by apply Hkeys.
  - intros d Hd. by apply Hbounds, Hkeys.
  - apply fillDays_length, spanFuel_enough.
  - intros k Hk. apply fillDays_lookup; [apply spanFuel_enough|done].
Qed.

Lemma entry_le_refl e : entry_le e e.
Proof. unfold entry_le. lia. Qed.

Lemma entry_le_trans a b c : entry_le a b -> entry_le b c -> entry_le a c.
Proof. unfold entry_le. lia. Qed.

Lemma maxEntry_le e e' : entry_le e (maxEntry e e').
Proof. unfold entry_le, maxEntry. simpl. lia. Qed.

Lemma carry_le byDay day e : entry_le e (carry byDay day e).
Proof.
  unfold carry. destruct (byDay !! Some day); [apply maxEntry_le|apply entry_le_refl].
Qed.

Lemma carryOver_le byDay lo n e : entry_le e (carryOver byDay lo n e).
Proof.
  induction n as [|n IH]; [apply entry_le_refl|].
  rewrite carryOver_S_r. eapply entry_le_trans; [apply IH|apply carry_le].
Qed.

Lemma carryOver_mono byDay lo n m e :
  (n <= m)%nat -> entry_le (carryOver byDay lo n e) (carryOver byDay lo m e).
Proof.
  intros Hnm. replace m with (n + (m - n))%nat by lia.
  rewrite carryOver_add. apply carryOver_le.
Qed.

Lemma pointEntry_mkPoint day e : pointEntry (mkPoint day e) = e.
Proof. by destruct e. Qed.


(** The anomaly of the specification: sold 10 on day 1 and 8 on day 3. *)
Example single_anomaly :
  reconstructSingle anomalyRows = [Point 1 10 0 0; Point 2 10 0 0; Point 3 10 0 0].
Proof. vm_compute. reflexivity. Qed.


(** ** The per-record index of the aggregate mode *)

Lemma indexByRecord_snoc data row :
  indexByRecord (data ++ [row]) = indexRow (indexByRecord data) row.
Proof. unfold indexByRecord. by rewrite foldl_app. Qed.

Lemma rowsOf_snoc rid data row :
  rowsOf rid (data ++ [row])
  = rowsOf rid data ++ (if decide (record_id row = rid) then [row] else []).
Proof.
  unfold rowsOf. rewrite filter_app, filter_cons, filter_nil. by case_decide.
Qed.

(** The index of a record is the per-day index of its own rows. *)
Lemma dayIndexOf_indexByRecord data rid :
  dayIndexOf (indexByRecord data) rid = indexByDay (rowsOf rid data).
Proof.
  unfold dayIndexOf. induction data as [|row data IH] using rev_ind; [done|].
  rewrite indexByRecord_snoc, rowsOf_snoc. unfold indexRow.
  rewrite lookup_insert. case_decide as Hrid.
  - simpl. subst rid. by rewrite IH, indexByDay_snoc.
  - by rewrite app_nil_r.
Qed.

Lemma perRecord_lookup byRecord rid day :
  byRecord !! rid ≫= (fun m => m !! Some day) = dayIndexOf byRecord rid !! Some day.
Proof. unfold dayIndexOf. by destruct (byRecord !! rid). Qed.

Lemma allDatesSet_snoc data row :
  allDatesSet (data ++ [row]) = {[dayOf row]} ∪ allDatesSet data.
Proof. unfold allDatesSet. by rewrite foldl_app. Qed.

Lemma elem_of_allDatesSet data key : key ∈ allDatesSet data <-> key ∈ dayOf <$> data.
Proof.
  induction data as [|row data IH] using rev_ind.
  - unfold allDatesSet. simpl. rewrite elem_of_empty, elem_of_nil. done.
  - rewrite allDatesSet_snoc, fmap_app, elem_of_union, elem_of_app, IH.
    rewrite elem_of_singleton. simpl. rewrite list_elem_of_singleton. tauto.
Qed.

Lemma recordIdsOf_snoc data row :
  recordIdsOf (data ++ [row])
  = if bool_decide (record_id row ∈ recordIdsOf data) then recordIdsOf data
    else recordIdsOf data ++ [record_id row].
Proof. unfold recordIdsOf. by rewrite foldl_app. Qed.

Lemma elem_of_recordIdsOf data rid : rid ∈ recordIdsOf data <-> rid ∈ record_id <$> data.
Proof.
  induction data as [|row data IH] using rev_ind; [done|].
  rewrite recordIdsOf_snoc, fmap_app, elem_of_app. simpl. rewrite list_elem_of_singleton.
  case_bool_decide as Hin.
  - rewrite IH. split; [tauto|]. intros [?| ->]; [done|]. by apply IH.
  - rewrite elem_of_app, list_elem_of_singleton, IH. done.
Qed.

Lemma NoDup_recordIdsOf data : NoDup (recordIdsOf data).
Proof.
  induction data as [|row data IH] using rev_ind; [constructor|].
  rewrite recordIdsOf_snoc. case_bool_decide as Hin; [done|].
  apply NoDup_app. split_and!; [done| |apply NoDup_singleton].
  intros rid Hrid Hrid'. apply list_elem_of_singleton in Hrid'. by subst.
Qed.

(** ** Last write wins in the per-day index *)

Lemma last_app_app_cons {A} (a b c : list A) (x : A) :
  last (a ++ b ++ x :: c) = last (x :: c).
Proof. by rewrite app_assoc, last_app_cons. Qed.

Lemma last_filter_shadow {A} (P : A -> Prop) `{!forall x, Decision (P x)}
    (l1 l2 l3 : list A) (r1 r2 : A) :
  (P r1 -> P r2) ->
  last (filter P (l1 ++ r1 :: l2 ++ r2 :: l3)) = last (filter P (l1 ++ l2 ++ r2 :: l3)).
Proof.
  intros Himp. rewrite !filter_app, !filter_cons, !filter_app, !filter_cons.
  destruct (decide (P r2)) as [H2|H2]; destruct (decide (P r1)) as [H1|H1];
    try tauto; try done.
  - rewrite last_app_app_cons.
    change (filter P l1 ++ r1 :: filter P l2 ++ r2 :: filter P l3)
      with (filter P l1 ++ (r1 :: filter P l2) ++ r2 :: filter P l3).
    by rewrite last_app_app_cons.
Qed.

Lemma indexByDay_shadow l1 r1 l2 r2 l3 :
  dayOf r1 = dayOf r2 ->
  indexByDay (l1 ++ r1 :: l2 ++ r2 :: l3) = indexByDay (l1 ++ l2 ++ r2 :: l3).
Proof.
  intros Hday. apply map_eq. intros key. rewrite !indexByDay_lookup.
  f_equal. apply last_filter_shadow. congruence.
Qed.

(** ** The loops of the aggregate mode *)

Lemma addEntry_zero_r e : addEntry e zeroEntry = e.
Proof. destruct e. unfold addEntry. simpl. f_equal; lia. Qed.

(** One record in the inner loop: its carried values absorb the day's row,
    and are added to the sums of the day. *)
Lemma perRecord_step byRecord day lastKnown sum rid :
  let r := perRecord byRecord day (lastKnown, sum) rid in
  (forall rid', r.1 !! rid' =
     if decide (rid' = rid) then
       match dayIndexOf byRecord rid !! Some day with
       | Some e => Some (maxEntry (default zeroEntry (lastKnown !! rid)) e)
       | None => lastKnown !! rid
       end
     else lastKnown !! rid') /\
  r.2 = addEntry sum (carry (dayIndexOf byRecord rid) day (default zeroEntry (lastKnown !! rid))).
Proof.
  unfold perRecord, carry. simpl. rewrite perRecord_lookup.
  destruct (dayIndexOf byRecord rid !! Some day) as [e|] eqn:He.
  - rewrite lookup_insert_eq. simpl. split; [|done].
    intros rid'. case_decide as Hr; [subst; by rewrite lookup_insert_eq|].
    by rewrite lookup_insert_ne.
  - destruct (lastKnown !! rid) as [lk|] eqn:Hlk; simpl.
    + split; [|done]. intros rid'. case_decide; by subst.
    + rewrite addEntry_zero_r. split; [|done]. intros rid'. case_decide; by subst.
Qed.

Lemma perRecord_fold byRecord day rids lastKnown sum :
  NoDup rids ->
  let r := foldl (perRecord byRecord day) (lastKnown, sum) rids in
  (forall rid, r.1 !! rid =
     if decide (rid ∈ rids) then
       match dayIndexOf byRecord rid !! Some day with
       | Some e => Some (maxEntry (default zeroEntry (lastKnown !! rid)) e)
       | None => lastKnown !! rid
       end
     else lastKnown !! rid) /\
  r.2 = foldl addEntry sum
          ((fun rid => carry (dayIndexOf byRecord rid) day (default zeroEntry (lastKnown !! rid)))
             <$> rids).
Proof.
  intros Hnd. revert lastKnown sum.
  induction Hnd as [|rid rids Hnotin Hnd IH]; intros lastKnown sum.
  - split; [|done]. intros rid. simpl.
    destruct (decide (rid ∈ [])) as [H|H]; [by apply elem_of_nil in H|done].
  - simpl.
    destruct (perRecord byRecord day (lastKnown, sum) rid) as [lk1 s1] eqn:Hstep.
    pose proof (perRecord_step byRecord day lastKnown sum rid) as [Hlk Hs].
    rewrite Hstep in Hlk, Hs. simpl in Hlk, Hs.
    destruct (IH lk1 s1) as [IHlk IHs]. split.
    + intros rid'. rewrite IHlk, !Hlk.
      destruct (decide (rid' = rid)) as [->|Hne].
      * rewrite decide_False by done. rewrite decide_True by left. done.
      * destruct (decide (rid' ∈ rids)) as [Hin|Hin].
        -- rewrite decide_True by (by right). done.
        -- rewrite decide_False; [done|]. rewrite elem_of_cons. tauto.
    + rewrite IHs, Hs. f_equal. apply list_fmap_ext. intros i rid' Hi.
      rewrite Hlk. rewrite decide_False; [done|].
      intros ->. apply Hnotin. by eapply list_elem_of_lookup_2.
Qed.

(** After the inner loop, the carried values of every listed record have
    absorbed the day. *)
Lemma perRecord_fold_default byRecord day rids lastKnown sum rid :
  NoDup rids -> rid ∈ rids ->
  default zeroEntry ((foldl (perRecord byRecord day) (lastKnown, sum) rids).1 !! rid)
  = carry (dayIndexOf byRecord rid) day (default zeroEntry (lastKnown !! rid)).
Proof.
  intros Hnd Hin. destruct (perRecord_fold byRecord day rids lastKnown sum Hnd) as [-> _].
  rewrite decide_True by done. unfold carry.
  by destruct (dayIndexOf byRecord rid !! Some day).
Qed.

Lemma fillDaysAll_length fuel byRecord rids lo hi lastKnown :
  (Z.to_nat (hi - lo + 1) < fuel)%nat ->
  length (fillDaysAll fuel byRecord rids (lo * msPerDay) (hi * msPerDay) lastKnown)
  = Z.to_nat (hi - lo + 1).
Proof.
  revert lo lastKnown. induction fuel as [|fuel IH]; intros lo lastKnown Hfuel; [lia|].
  simpl. rewrite day_guard. destruct (Z.leb_spec lo hi) as [Hle|Hgt].
  - simpl. rewrite setDateNext_day, IH by lia. lia.
  - simpl. lia.
Qed.

Lemma fillDaysAll_lookup k fuel byRecord rids lo hi lastKnown :
  NoDup rids ->
  (Z.to_nat (hi - lo + 1) < fuel)%nat ->
  (k < Z.to_nat (hi - lo + 1))%nat ->
  fillDaysAll fuel byRecord rids (lo * msPerDay) (hi * msPerDay) lastKnown !! k
  = Some (mkPoint (lo + Z.of_nat k)
            (sumEntries
               ((fun rid => carryOver (dayIndexOf byRecord rid) lo (S k)
                              (default zeroEntry (lastKnown !! rid))) <$> rids))).
Proof.
  intros Hnd. revert fuel lo lastKnown.
  induction k as [|k IH]; intros fuel lo lastKnown Hfuel Hk;
    (destruct fuel as [|fuel]; [lia|]); simpl; rewrite day_guard;
    (destruct (Z.leb_spec lo hi) as [Hle|Hgt]; [|lia]); simpl;
    rewrite isoDay_newDate.
  - destruct (perRecord_fold byRecord lo rids lastKnown zeroEntry Hnd) as [_ ->].
    replace (lo + Z.of_nat 0) with lo by lia. do 2 f_equal.
  - rewrite setDateNext_day, IH by lia. do 2 f_equal; [lia|].
    f_equal. apply list_fmap_ext. intros i rid Hi.
    rewrite (carryOver_S_l _ lo (S k)).
    rewrite perRecord_fold_default; [done..|]. by eapply list_elem_of_lookup_2.
Qed.

(** The aggregate series of dated rows: one point per day of the union
    span, each the sum over the records of the values carried over the
    days from the first day of the span on. *)
Lemma reconstructAll_closed (data : list rawRow) :
  data <> [] -> (forall row, row ∈ data -> is_Some (date row)) ->
  exists lo hi,
    Some lo ∈ date <$> data /\ Some hi ∈ date <$> data /\
    (forall d, Some d ∈ date <$> data -> lo <= d <= hi) /\
    length (reconstructAll data) = Z.to_nat (hi - lo + 1) /\
    forall k, (k < Z.to_nat (hi - lo + 1))%nat ->
      reconstructAll data !! k
      = Some (mkPoint (lo + Z.of_nat k)
                (sumEntries
                   ((fun rid => carryOver (indexByDay (rowsOf rid data)) lo (S k) zeroEntry)
                      <$> recordIdsOf data))).
Proof.
  intros Hne Hdated.
  assert (Hkeys : forall k, k ∈ elements (allDatesSet data) <-> k ∈ date <$> data).
  { intros k. by rewrite elem_of_elements, elem_of_allDatesSet. }
  destruct (sorted_keys_bounds (elements (allDatesSet data)))
    as (lo & hi & Hhead & Hlast & Hlo & Hhi & Hbounds).
  { destruct data as [|row data]; [done|].
    intros Hnil. assert (date row ∈ elements (allDatesSet (row :: data))) as Hin.
    { apply Hkeys. rewrite fmap_cons. left. }
    rewrite Hnil in Hin. by apply elem_of_nil in Hin. }
  { intros k Hk. apply Hkeys, list_elem_of_fmap in Hk as (row & -> & Hrow). by apply Hdated. }
  exists lo, hi.
  assert (reconstructAll data
          = fillDaysAll (spanFuel (lo * msPerDay) (hi * msPerDay)) (indexByRecord data)
              (recordIdsOf data) (lo * msPerDay) (hi * msPerDay) ∅) as ->.
  { unfold reconstructAll. by rewrite Hhead, Hlast. }
  split_and!.
  - by apply Hkeys.
  - by apply Hkeys.
  - intros d Hd. by apply Hbounds, Hkeys.
  - apply fillDaysAll_length, spanFuel_enough.
  - intros k Hk.
    rewrite fillDaysAll_lookup; [|apply NoDup_recordIdsOf|apply spanFuel_enough|done].
    do 3 f_equal. apply list_fmap_ext. intros i rid _.
    by rewrite dayIndexOf_indexByRecord, lookup_empty.
Qed.

(** ** A single series read at an arbitrary day *)







(** ** Same-day rows: the earlier row is shadowed *)

Lemma addEntry_swap s a b : addEntry (addEntry s a) b = addEntry (addEntry s b) a.
Proof. unfold addEntry. simpl. f_equal; lia. Qed.

Lemma foldl_addEntry_perm (l l' : list entry) s :
  l ≡ₚ l' -> foldl addEntry s l = foldl addEntry s l'.
Proof.
  intros Hperm. revert s.
  induction Hperm as [|x l l' _ IH|x y l|l l' l'' _ IH1 _ IH2]; intros s; simpl.
  - done.
  - apply IH.
  - by rewrite addEntry_swap.
  - by rewrite IH1, IH2.
Qed.

(** The order in which the records are visited changes neither the
    carried values nor the sums. *)
Lemma perRecord_fold_perm byRecord day rids rids' lastKnown sum :
  NoDup rids -> rids ≡ₚ rids' ->
  foldl (perRecord byRecord day) (lastKnown, sum) rids
  = foldl (perRecord byRecord day) (lastKnown, sum) rids'.
Proof.
  intros Hnd Hperm.
  assert (Hnd' : NoDup rids') by (by rewrite <-Hperm).
  destruct (perRecord_fold byRecord day rids lastKnown sum Hnd) as [Hlk Hs].
  destruct (perRecord_fold byRecord day rids' lastKnown sum Hnd') as [Hlk' Hs'].
  destruct (foldl _ _ rids) as [lk s1], (foldl _ _ rids') as [lk' s1'].
  simpl in *. f_equal.
  - apply map_eq. intros rid. rewrite Hlk, Hlk'.
    destruct (decide (rid ∈ rids)) as [Hin|Hin].
    + rewrite decide_True; [done|]. by rewrite <-Hperm.
    + rewrite decide_False; [done|]. by rewrite <-Hperm.
  - rewrite Hs, Hs'. apply foldl_addEntry_perm. by apply fmap_Permutation.
Qed.

Lemma fillDaysAll_perm fuel byRecord rids rids' d endT lastKnown :
  NoDup rids -> rids ≡ₚ rids' ->
  fillDaysAll fuel byRecord rids d endT lastKnown
  = fillDaysAll fuel byRecord rids' d endT lastKnown.
Proof.
  intros Hnd Hperm. revert d lastKnown.
  induction fuel as [|fuel IH]; intros d lastKnown; [done|].
  simpl. destruct (d <=? endT); [|done].
  by rewrite (perRecord_fold_perm _ _ rids rids'), IH.
Qed.

Lemma indexByRecord_lookup data rid :
  indexByRecord data !! rid
  = if decide (rid ∈ record_id <$> data) then Some (indexByDay (rowsOf rid data)) else None.
Proof.
  induction data as [|row data IH] using rev_ind.
  - destruct (decide (rid ∈ record_id <$> [])) as [H|H]; [by apply elem_of_nil in H|done].
  - rewrite indexByRecord_snoc. unfold indexRow.
    rewrite lookup_insert. destruct (decide (record_id row = rid)) as [<-|Hne].
    + rewrite decide_True.
      2:{ rewrite fmap_app, elem_of_app. right. by apply list_elem_of_singleton. }
      f_equal. rewrite <-dayIndexOf_indexByRecord, indexByRecord_snoc.
      unfold dayIndexOf, indexRow. rewrite lookup_insert_eq. reflexivity.
    + rewrite IH, rowsOf_snoc.
      destruct (decide (record_id row = rid)) as [?|_]; [done|]. rewrite app_nil_r.
      destruct (decide (rid ∈ record_id <$> data)) as [Hin|Hin].
      * rewrite decide_True; [done|]. rewrite fmap_app, elem_of_app. by left.
      * rewrite decide_False; [done|]. rewrite fmap_app, elem_of_app. simpl.
        rewrite list_elem_of_singleton. intros [?|?]; [done|congruence].
Qed.

Lemma shadow_elem {A B} (f : A -> B) (l1 l2 l3 : list A) (r1 r2 : A) (y : B) :
  f r1 = f r2 ->
  y ∈ f <$> (l1 ++ r1 :: l2 ++ r2 :: l3) <-> y ∈ f <$> (l1 ++ l2 ++ r2 :: l3).
Proof.
  intros Hf. rewrite !fmap_app, !fmap_cons, !fmap_app, !fmap_cons.
  rewrite !elem_of_app, !elem_of_cons, !elem_of_app, !elem_of_cons, Hf. tauto.
Qed.

Lemma rowsOf_shadow rid l1 r1 l2 r2 l3 :
  record_id r1 = record_id r2 -> dayOf r1 = dayOf r2 ->
  indexByDay (rowsOf rid (l1 ++ r1 :: l2 ++ r2 :: l3))
  = indexByDay (rowsOf rid (l1 ++ l2 ++ r2 :: l3)).
Proof.
  intros Hrid Hday. unfold rowsOf.
  rewrite !filter_app, !filter_cons, !filter_app, !filter_cons, Hrid.
  destruct (decide (record_id r2 = rid)); [|done].
  by apply indexByDay_shadow.
Qed.

(** C10. When two fetched rows carry the same performance and the same
    day, the earlier one is discarded by the per-day index before the
    maximum is taken: the index holds, for each key, the entry of the last
    row with that key, and the reconstructed series, in single and in
    aggregate mode, is the one obtained without the earlier row. *)
Theorem same_day_last_row_wins (l1 l2 l3 : list rawRow) (r1 r2 : rawRow) :
  record_id r1 = record_id r2 ->
  date r1 = date r2 ->
  let fetched := l1 ++ r1 :: l2 ++ r2 :: l3 in
  let kept := l1 ++ l2 ++ r2 :: l3 in
  (forall key, indexByDay fetched !! key
               = entryOf <$> last (filter (fun row => date row = key) fetched)) /\
  (forall rid key, dayIndexOf (indexByRecord fetched) rid !! key
     = entryOf <$> last (filter (fun row => date row = key) (rowsOf rid fetched))) /\
  indexByDay fetched = indexByDay kept /\
  indexByRecord fetched = indexByRecord kept /\
  reconstructSingle fetched = reconstructSingle kept /\
  reconstructAll fetched = reconstructAll kept.
Proof.
  intros Hrid Hday fetched kept.
  assert (Hidx : indexByDay fetched = indexByDay kept) by (by apply indexByDay_shadow).
  assert (Hrec : indexByRecord fetched = indexByRecord kept).
  { apply map_eq. intros rid. rewrite !indexByRecord_lookup.
    destruct (decide (rid ∈ record_id <$> fetched)) as [Hin|Hin].
    - rewrite decide_True by (by apply (shadow_elem record_id l1 l2 l3 r1 r2)).
      f_equal. by apply rowsOf_shadow.
    - rewrite decide_False; [done|].
      intros Hin'. by apply Hin, (shadow_elem record_id l1 l2 l3 r1 r2). }
  split_and!.
  - intros key. apply indexByDay_lookup.
  - intros rid key. rewrite dayIndexOf_indexByRecord. apply indexByDay_lookup.
  - done.
  - done.
  - unfold reconstructSingle. by rewrite Hidx.
  - unfold reconstructAll. rewrite Hrec.
    assert (allDatesSet fetched = allDatesSet kept) as ->.
    { apply set_eq. intros key. rewrite !elem_of_allDatesSet.
      by apply (shadow_elem dayOf l1 l2 l3 r1 r2). }
    destruct (newDate _); [|done]. destruct (newDate _); [|done].
    apply fillDaysAll_perm; [apply NoDup_recordIdsOf|].
    apply NoDup_Permutation; [apply NoDup_recordIdsOf..|].
    intros rid. rewrite !elem_of_recordIdsOf.
    by apply (shadow_elem record_id l1 l2 l3 r1 r2).
Qed.

(** ** Period statistics *)

Lemma filteredSalesData_inRange salesData dateFrom dateTo :
  filteredSalesData salesData dateFrom dateTo
  = filter (fun d => inRange dateFrom dateTo (p_date d.2)) (refsOf salesData).
Proof.
  unfold filteredSalesData. case_bool_decide as Hlen.
  { destruct salesData; [done|simpl in Hlen; lia]. }
  unfold inRange. destruct dateFrom as [f|], dateTo as [t|]; simpl.
  - rewrite list_filter_filter. apply list_filter_iff. tauto.
  - apply list_filter_iff. tauto.
  - apply list_filter_iff. tauto.
  - symmetry. induction (refsOf salesData) as [|d l IH]; [done|].
    rewrite filter_cons_True by done. by rewrite IH.
Qed.

Lemma filter_refs_none (P : Z -> Prop) `{!forall x, Decision (P x)}
    (g : nat -> point -> nat * point) (l : list point) :
  (forall i p, (g i p).2 = p) ->
  (forall p, p ∈ l -> ~ P (p_date p)) ->
  filter (fun d : nat * point => P (p_date d.2)) (imap g l) = [].
Proof.
  revert g. induction l as [|p l IH]; intros g Hg Hnone; [done|].
  rewrite imap_cons, filter_cons_False.
  - apply (IH (g ∘ S)); [intros i q; apply Hg|]. intros q Hq. apply Hnone. by right.
  - rewrite Hg. apply Hnone. left.
Qed.

(** The first and the last reference kept by the filter are the first and
    the last point in range, with their positions in the series. *)
Lemma filter_refs_head (P : Z -> Prop) `{!forall x, Decision (P x)}
    (l : list point) (i : nat) (p : point) :
  l !! i = Some p -> P (p_date p) ->
  (forall k q, l !! k = Some q -> P (p_date q) -> (i <= k)%nat) ->
  head (filter (fun d : nat * point => P (p_date d.2)) (refsOf l)) = Some (i, p).
Proof.
  intros Hi HP Hfirst. unfold refsOf.
  rewrite <-(take_drop_middle l i p Hi), imap_app, filter_app.
  rewrite filter_refs_none; [|done|].
  - rewrite imap_cons, filter_cons_True by done. simpl.
    rewrite length_take_le by (apply lookup_lt_Some in Hi; lia). do 3 f_equal. lia.
  - intros q (k & Hk)%list_elem_of_lookup_1 HPq.
    pose proof (lookup_lt_Some _ _ _ Hk) as Hlt. rewrite length_take in Hlt.
    rewrite lookup_take_lt in Hk by lia. specialize (Hfirst k q Hk HPq). lia.
Qed.

Lemma filter_refs_last (P : Z -> Prop) `{!forall x, Decision (P x)}
    (l : list point) (j : nat) (p : point) :
  l !! j = Some p -> P (p_date p) ->
  (forall k q, l !! k = Some q -> P (p_date q) -> (k <= j)%nat) ->
  last (filter (fun d : nat * point => P (p_date d.2)) (refsOf l)) = Some (j, p).
Proof.
  intros Hj HP Hlast. unfold refsOf.
  rewrite <-(take_drop_middle l j p Hj), imap_app, filter_app, imap_cons.
  rewrite filter_cons_True by done. rewrite last_app_cons, filter_refs_none; [|done|].
  - simpl. rewrite length_take_le by (apply lookup_lt_Some in Hj; lia).
    do 3 f_equal. lia.
  - intros q (k & Hk)%list_elem_of_lookup_1 HPq.
    rewrite lookup_drop in Hk. specialize (Hlast _ q Hk HPq). lia.
Qed.

(** C4. For a series and an inclusive date range with at least one point
    in range, the period statistics are the values at the last point in
    range minus the values at the point just before the first point in
    range, or minus zero when the first point in range opens the series. *)
Theorem period_delta (salesData : list point) (dateFrom dateTo : option Z)
    (i j : nat) (first lastP base : point) :
  salesData !! i = Some first -> inRange dateFrom dateTo (p_date first) ->
  salesData !! j = Some lastP -> inRange dateFrom dateTo (p_date lastP) ->
  (forall k q, salesData !! k = Some q -> inRange dateFrom dateTo (p_date q) ->
               (i <= k <= j)%nat) ->
  match i with
  | O => ventes base = 0 /\ total_dollars base = 0
  | S i' => salesData !! i' = Some base
  end ->
  periodStats salesData (filteredSalesData salesData dateFrom dateTo)
  = Some (Stats (ventes lastP - ventes base) (total_dollars lastP - total_dollars base)).
Proof.
  intros Hi HPi Hj HPj Hrange Hbase.
  rewrite filteredSalesData_inRange. unfold periodStats.
  rewrite (filter_refs_head (inRange dateFrom dateTo) salesData i first),
          (filter_refs_last (inRange dateFrom dateTo) salesData j lastP); try done.
  - simpl. destruct i as [|i']; simpl.
    + destruct Hbase as [-> ->]. done.
    + by rewrite Nat.sub_0_r, Hbase.
  - intros k q Hk HPk. by apply (Hrange k q).
  - intros k q Hk HPk. by apply (Hrange k q).
Qed.

(** With no point in range there is no statistic. *)
Lemma period_delta_none (salesData : list point) (dateFrom dateTo : option Z) :
  (forall q, q ∈ salesData -> ~ inRange dateFrom dateTo (p_date q)) ->
  periodStats salesData (filteredSalesData salesData dateFrom dateTo) = None.
Proof.
  intros Hnone. rewrite filteredSalesData_inRange. unfold refsOf.
  by rewrite (filter_refs_none (inRange dateFrom dateTo)).
Qed.

(** ** Pagination *)

Lemma pageTurn_finished didCancel data offset resp data' :
  pageTurn didCancel data offset resp = Finished data' <->
  exists page, resp = RespOk page /\ (length page < pageSize)%nat /\ data' = data ++ page.
Proof.
  unfold pageTurn. destruct resp as [page|msg].
  - case_bool_decide as Hlen.
    + split; [intros [= <-]; eauto|]. intros (page' & [= <-] & _ & ->). done.
    + split; [by destruct didCancel|]. intros (page' & [= <-] & ? & _). lia.
  - split; [done|]. by intros (page' & ? & _).
Qed.

Lemma pageTurn_continue didCancel data offset resp data' offset' :
  pageTurn didCancel data offset resp = Continue data' offset' <->
  exists page, resp = RespOk page /\ (pageSize <= length page)%nat /\ didCancel = false
               /\ data' = data ++ page /\ offset' = (offset + pageSize)%nat.
Proof.
  unfold pageTurn. destruct resp as [page|msg].
  - case_bool_decide as Hlen.
    + split; [done|]. intros (page' & [= <-] & ? & _). lia.
    + destruct didCancel.
      * split; [done|]. by intros (page' & _ & _ & ? & _).
      * split; [intros [= <- <-]; exists page; split_and!; [done|lia|done..]|].
        intros (page' & [= <-] & _ & _ & -> & ->). done.
  - split; [done|]. by intros (page' & ? & _).
Qed.

Lemma paginate_finished fuel remote cancelled data r data' n :
  paginate fuel remote cancelled data (r * pageSize) r = Some (Finished data', n) <->
  exists pages, pagesOk remote cancelled r pages /\ (length pages <= fuel)%nat
                /\ n = (r + length pages)%nat /\ data' = data ++ concat pages.
Proof.
  revert data r. induction fuel as [|fuel IH]; intros data r; simpl.
  { split; [done|]. intros ([|page pages] & Hok & Hlen & _); [done|simpl in Hlen; lia]. }
  destruct (pageTurn (cancelled r) data (r * pageSize) (remote (r * pageSize)%nat))
    as [d o| d | |msg] eqn:Hturn.
  - apply pageTurn_continue in Hturn as (page & Hresp & Hfull & Hflag & -> & ->).
    replace (r * pageSize + pageSize)%nat with (S r * pageSize)%nat by lia.
    rewrite IH. split.
    + intros (pages & Hok & Hlen & -> & ->). exists (page :: pages).
      split_and!; [|simpl; lia|simpl; lia|by rewrite <-app_assoc].
      destruct pages; [done|]. done.
    + intros ([|page' [|page'' pages]] & Hok & Hlen & -> & ->); [done| |].
      * destruct Hok as [Hresp' Hshort]. rewrite Hresp in Hresp'. simplify_eq. lia.
      * destruct Hok as (Hresp' & _ & _ & Hok). rewrite Hresp in Hresp'. simplify_eq.
        exists (page'' :: pages). split_and!; [done|simpl in *; lia|simpl; lia|].
        simpl. by rewrite <-app_assoc.
  - apply pageTurn_finished in Hturn as (page & Hresp & Hshort & ->). split.
    + intros [= <- <-]. exists [page]. split_and!; [done|simpl; lia|simpl; lia|].
      simpl. by rewrite app_nil_r.
    + intros ([|page' [|page'' pages]] & Hok & Hlen & -> & ->); [done| |].
      * destruct Hok as [Hresp' _]. rewrite Hresp in Hresp'. simplify_eq.
        simpl. rewrite app_nil_r. do 3 f_equal. lia.
      * destruct Hok as (Hresp' & Hfull & _). rewrite Hresp in Hresp'. simplify_eq. lia.
  - split; [done|]. intros ([|page' [|page'' pages]] & Hok & _); [done| |].
    + destruct Hok as [Hresp' Hshort]. unfold pageTurn in Hturn.
      rewrite Hresp', bool_decide_true in Hturn by done. done.
    + destruct Hok as (Hresp' & Hfull & Hflag & _). unfold pageTurn in Hturn.
      rewrite Hresp', Hflag, bool_decide_false in Hturn by lia. done.
  - split; [done|]. intros ([|page' [|page'' pages]] & Hok & _); [done| |].
    + destruct Hok as [Hresp' _]. unfold pageTurn in Hturn. by rewrite Hresp' in Hturn;
        case_bool_decide; destruct (cancelled r).
    + destruct Hok as (Hresp' & _). unfold pageTurn in Hturn. by rewrite Hresp' in Hturn;
        case_bool_decide; destruct (cancelled r).
Qed.

(** C7. The loop asks for pages of 1000 rows at the offsets 0, 1000,
    2000, ... and is left through its [break], with the rows fetched,
    exactly when the answers form a run of full pages, each read before any
    cancellation, closed by a page of fewer than 1000 rows; its result is
    then the concatenation of these pages in order, and the number of
    requests is their number. *)
Theorem pagination_terminates_on_short_page (fuel : nat) (remote : nat -> response)
    (cancelled : nat -> bool) (data : list rawRow) (n : nat) :
  pageSize = 1000%nat /\
  (paginate fuel remote cancelled [] 0 0 = Some (Finished data, n) <->
   exists pages, pagesOk remote cancelled 0 pages /\ (length pages <= fuel)%nat
                 /\ n = length pages /\ data = concat pages).
Proof.
  split; [done|]. apply (paginate_finished fuel remote cancelled [] 0 data n).
Qed.

(** ** The cancellation flag *)

Lemma resume_didCancel v f resp : didCancel (resume v f resp).2 = didCancel f.
Proof.
  unfold resume. destruct (pageTurn _ _ _ _); simpl; try done;
    by destruct (didCancel f).
Qed.

(** Every write of the continuation is behind the flag: a cancelled
    closure leaves the component as it is. *)
Lemma resume_cancelled v f resp : didCancel f = true -> (resume v f resp).1 = v.
Proof.
  intros Hc. unfold resume. rewrite Hc. by destruct (pageTurn _ _ _ _).
Qed.

Lemma cleanup_length fs : length (cleanup fs) = length fs.
Proof.
  induction fs as [|f [|f' fs] IH]; simpl in *; [done..|]. by rewrite IH.
Qed.

Lemma cleanup_lookup fs i :
  cleanup fs !! i
  = if decide (S i = length fs) then cancelFetch <$> fs !! i else fs !! i.
Proof.
  revert i. induction fs as [|f1 [|f2 fs] IH]; intros i.
  - by destruct (decide (S i = length [])).
  - destruct (decide (S i = length [f1])) as [Hi|Hi]; destruct i as [|i]; done.
  - destruct (decide (S i = length (f1 :: f2 :: fs))) as [Hi|Hi]; destruct i as [|i].
    + simpl in Hi. lia.
    + change (cleanup (f2 :: fs) !! i = cancelFetch <$> (f2 :: fs) !! i).
      rewrite IH. destruct (decide (S i = length (f2 :: fs))) as [|Hn]; [done|].
      simpl in Hi, Hn. lia.
    + done.
    + change (cleanup (f2 :: fs) !! i = (f2 :: fs) !! i).
      rewrite IH. destruct (decide (S i = length (f2 :: fs))) as [Hy|]; [|done].
      simpl in Hi, Hy. lia.
Qed.

(** After the cleanup every closure is cancelled. *)
Lemma cleanup_cancelled fs i f :
  superseded fs -> cleanup fs !! i = Some f -> didCancel f = true.
Proof.
  intros Hsup Hi. pose proof (lookup_lt_Some _ _ _ Hi) as Hlt.
  rewrite cleanup_length in Hlt. rewrite cleanup_lookup in Hi.
  case_decide as Hlast.
  - destruct (fs !! i); simplify_eq/=. done.
  - apply (Hsup i f Hi). lia.
Qed.

Lemma superseded_snoc fs f :
  (forall i f', fs !! i = Some f' -> didCancel f' = true) -> superseded (fs ++ [f]).
Proof.
  intros Hall i f' Hi Hlt. rewrite length_app in Hlt. simpl in Hlt.
  rewrite lookup_app_l in Hi by lia. by eapply Hall.
Qed.

Lemma superseded_all fs :
  (forall i f', fs !! i = Some f' -> didCancel f' = true) -> superseded fs.
Proof. intros Hall i f Hi _. by eapply Hall. Qed.

Lemma runEffect_superseded w configured selectedRepId allRepIds :
  superseded (fetches w) ->
  superseded (fetches (runEffect w configured selectedRepId allRepIds)).
Proof.
  intros Hsup.
  pose proof (fun i f => cleanup_cancelled (fetches w) i f Hsup) as Hall.
  unfold runEffect. destruct configured; simpl; [|by apply superseded_all].
  destruct (_ && _); simpl; [by apply superseded_all|].
  destruct (cache (ui w) !! _); simpl; by apply superseded_snoc.
Qed.

Lemma step_superseded w e : superseded (fetches w) -> superseded (fetches (step w e)).
Proof.
  intros Hsup. destruct e as [configured selectedRepId allRepIds|i resp]; simpl.
  - by apply runEffect_superseded.
  - destruct (fetches w !! i) as [f|] eqn:Hf; [|done].
    destruct (running f); [|done]. simpl.
    intros k f' Hk Hlt. rewrite length_insert in Hlt.
    destruct (decide (k = i)) as [->|Hne].
    + rewrite list_lookup_insert_eq in Hk by (by eapply lookup_lt_Some).
      simplify_eq. rewrite resume_didCancel. by apply (Hsup i).
    + rewrite list_lookup_insert_ne in Hk by done. by apply (Hsup k).
Qed.

Lemma run_superseded w evs : superseded (fetches w) -> superseded (fetches (run w evs)).
Proof.
  revert w. induction evs as [|e evs IH]; intros w Hsup; [done|].
  simpl. exact (IH _ (step_superseded _ _ Hsup)).
Qed.

Lemma initial_superseded : superseded (fetches initial).
Proof. intros i f Hi. done. Qed.

Lemma step_respond_length w i resp :
  length (fetches (step w (Respond i resp))) = length (fetches w).
Proof.
  simpl. destruct (fetches w !! i) as [f|]; [|done].
  destruct (running f); [|done]. simpl. by rewrite length_insert.
Qed.

(** A response to a closure that is not the latest changes nothing of
    the component. *)
Lemma step_stale w i resp :
  superseded (fetches w) -> S i <> length (fetches w) ->
  ui (step w (Respond i resp)) = ui w.
Proof.
  intros Hsup Hstale. simpl.
  destruct (fetches w !! i) as [f|] eqn:Hf; [|done].
  destruct (running f); [|done]. simpl.
  apply resume_cancelled, (Hsup i f Hf).
  apply lookup_lt_Some in Hf. lia.
Qed.

Lemma run_cons w e evs : run w (e :: evs) = run (step w e) evs.
Proof. reflexivity. Qed.

(** Two worlds that agree on the component and on the latest closure
    stay so when the first one also receives the responses to superseded
    closures. *)
Lemma run_latest w1 w2 (rs : list (nat * response)) :
  superseded (fetches w1) -> superseded (fetches w2) ->
  ui w1 = ui w2 -> length (fetches w1) = length (fetches w2) ->
  last (fetches w1) = last (fetches w2) ->
  ui (run w1 (respond <$> rs)) = ui (run w2 (respond <$> forLatest w2 rs)).
Proof.
  revert w1 w2. induction rs as [|[i resp] rs IH]; intros w1 w2 Hs1 Hs2 Hui Hlen Hlast.
  { done. }
  unfold forLatest. rewrite filter_cons. cbn [fst].
  destruct (decide (S i = length (fetches w2))) as [Hi|Hi].
  - rewrite !fmap_cons, !run_cons. change (respond (i, resp)) with (Respond i resp).
    assert (Hf : fetches w1 !! i = fetches w2 !! i).
    { rewrite !last_lookup in Hlast. rewrite <-Hlen in Hi.
      replace i with (pred (length (fetches w1))) at 1 by lia.
      rewrite Hlast. f_equal. lia. }
    set (w1' := step w1 (Respond i resp)). set (w2' := step w2 (Respond i resp)).
    assert (Hlen1 : length (fetches w1') = length (fetches w1))
      by apply step_respond_length.
    assert (Hlen2 : length (fetches w2') = length (fetches w2))
      by apply step_respond_length.
    assert (Hui' : ui w1' = ui w2' /\ fetches w1' !! i = fetches w2' !! i).
    { subst w1' w2'. simpl. rewrite Hf.
      destruct (fetches w2 !! i) as [f|] eqn:Hf2; [|by rewrite Hf, Hf2].
      destruct (running f); [|by rewrite Hf, Hf2]. simpl. rewrite Hui. split; [done|].
      rewrite !list_lookup_insert_eq; [done| |]; apply lookup_lt_Some in Hf2; lia. }
    destruct Hui' as [Hui' Hf'].
    transitivity (ui (run w2' (respond <$> forLatest w2' rs))).
    + apply IH.
      * exact (step_superseded _ _ Hs1).
      * exact (step_superseded _ _ Hs2).
      * done.
      * lia.
      * rewrite !last_lookup. rewrite Hlen1, Hlen2, <-Hlen.
        replace (pred (length (fetches w1))) with i by lia. done.
    + unfold forLatest. by rewrite Hlen2.
  - rewrite fmap_cons, run_cons. change (respond (i, resp)) with (Respond i resp).
    transitivity (ui (run w2 (respond <$> forLatest w2 rs))); [|done].
    set (w1' := step w1 (Respond i resp)).
    assert (Hlen1 : length (fetches w1') = length (fetches w1))
      by apply step_respond_length.
    apply IH.
    + exact (step_superseded _ _ Hs1).
    + done.
    + rewrite <-Hui. apply step_stale; [done|lia].
    + lia.
    + rewrite <-Hlast, !last_lookup, Hlen1. subst w1'. simpl.
      destruct (fetches w1 !! i) as [f|] eqn:Hf; [|done].
      destruct (running f); [|done]. simpl.
      apply lookup_lt_Some in Hf. rewrite list_lookup_insert_ne; [done|lia].
Qed.

(** C8. Whatever happened before, every closure of the effect but the
    latest one has its cancellation flag set, and the resolution of one of
    its requests writes neither the series, nor the loading and error
    states, nor the cache; hence after any sequence of resolutions the
    component is what the resolutions addressed to the latest closure
    alone would have made it. *)
Theorem latest_request_wins (pre : list event) (rs : list (nat * response)) :
  let w := run initial pre in
  (forall i f resp, fetches w !! i = Some f -> (S i < length (fetches w))%nat ->
     didCancel f = true /\ ui (step w (Respond i resp)) = ui w) /\
  ui (run w (respond <$> rs)) = ui (run w (respond <$> forLatest w rs)).
Proof.
  intros w.
  assert (Hsup : superseded (fetches w))
    by exact (run_superseded _ _ initial_superseded).
  split.
  - intros i f resp Hf Hlt. split; [by apply (Hsup i)|].
    apply step_stale; [done|lia].
  - by apply run_latest.
Qed.

(** ** Ordering of the weeks *)

Import Grid GridSpec.

Section week_order.

Context {A : Type} (dateDebut : A -> option Z).

#[local] Abbreviation cmp := (weekCmp dateDebut).

Lemma sortBy_snoc (l : list A) (x : A) :
  sortBy cmp (l ++ [x]) = insertBy cmp x (sortBy cmp l).
Proof. unfold sortBy. by rewrite foldl_app. Qed.


(** A week with a start date is placed among the dated weeks, before
    every week without start date. *)
Lemma insertBy_dated_app (x : A) (t : Z) (dated undated : list A) :
  dateDebut x = Some t ->
  Forall (fun a => dateDebut a = None) undated ->
  insertBy cmp x (dated ++ undated) = insertBy cmp x dated ++ undated.
Proof.
  intros Hx Hund. induction dated as [|e dated IH].
  - destruct Hund as [|u undated Hu _]; [done|].
    simpl. unfold weekCmp. by rewrite Hx, Hu.
  - simpl. destruct (cmp x e <? 0)%Z; [done|]. by rewrite IH.
Qed.

Lemma insertBy_Permutation (x : A) (sorted : list A) :
  insertBy cmp x sorted ≡ₚ x :: sorted.
Proof.
  induction sorted as [|e sorted IH]; [done|].
  simpl. destruct (cmp x e <? 0)%Z; [done|].
  rewrite IH. apply Permutation_swap.
Qed.

Lemma sortBy_Permutation (l : list A) : sortBy cmp l ≡ₚ l.
Proof.
  induction l as [|x l IH] using rev_ind; [done|].
  rewrite sortBy_snoc, insertBy_Permutation, IH.
  by rewrite Permutation_app_comm.
Qed.

Lemma insertBy_sorted (x : A) (t : Z) (sorted : list A) :
  dateDebut x = Some t ->
  Forall (fun a => is_Some (dateDebut a)) sorted ->
  StronglySorted (startsBefore dateDebut) sorted ->
  StronglySorted (startsBefore dateDebut) (insertBy cmp x sorted).
Proof.
  intros Hx Hdated Hsorted.
  induction Hsorted as [|e sorted Hsorted IH Hall]; simpl.
  - repeat constructor.
  - apply Forall_cons in Hdated as [[te He] Hdated].
    unfold weekCmp at 1. rewrite Hx, He.
    destruct (Z.ltb_spec (t - te) 0) as [Hlt|Hge].
    + constructor; [by constructor|].
      constructor.
      * unfold startsBefore. rewrite Hx, He. lia.
      * eapply Forall_impl; [exact Hall|]. intros a. unfold startsBefore.
        rewrite Hx, He. destruct (dateDebut a); [lia|done].
    + constructor; [by apply IH|].
      rewrite insertBy_Permutation. constructor; [|done].
      unfold startsBefore. rewrite Hx, He. lia.
Qed.


Lemma sortBy_sorted (l : list A) :
  Forall (fun a => is_Some (dateDebut a)) l ->
  StronglySorted (startsBefore dateDebut) (sortBy cmp l).
Proof.
  induction l as [|x l IH] using rev_ind; intros Hdated; [constructor|].
  apply Forall_app in Hdated as [Hl Hx]. apply Forall_cons in Hx as [[t Hx] _].
  rewrite sortBy_snoc. apply (insertBy_sorted x t); [done| |by apply IH].
  by rewrite sortBy_Permutation.
Qed.

End week_order.


(** ** The insertion-ordered map *)

Local Close Scope Z_scope.

Lemma mapGet_upsert_eq {V} (k : string) (init : V) (f : V -> V) (m : list (string * V)) :
  mapGet k (upsert k init f m) = Some (f (default init (mapGet k m))).
Proof.
  unfold mapGet. induction m as [|[k' v] m IH]; simpl.
  - by rewrite bool_decide_true.
  - case_bool_decide as Hk; simpl.
    + by rewrite bool_decide_true.
    + by rewrite bool_decide_false.
Qed.

Lemma mapGet_upsert_ne {V} (k k' : string) (init : V) (f : V -> V) (m : list (string * V)) :
  k' <> k -> mapGet k' (upsert k init f m) = mapGet k' m.
Proof.
  intros Hne. unfold mapGet. induction m as [|[k0 v] m IH]; simpl.
  - by rewrite bool_decide_false.
  - case_bool_decide as Hk; simpl.
    + subst k0. by rewrite !bool_decide_false.
    + case_bool_decide; [done|]. apply IH.
Qed.

Lemma elem_of_upsert {V} (k : string) (init : V) (f : V -> V) (m : list (string * V))
    (k' : string) (v' : V) :
  (k', v') ∈ upsert k init f m ->
  (k', v') ∈ m \/ (k' = k /\ exists v0, (v0 = init \/ (k, v0) ∈ m) /\ v' = f v0).
Proof.
  induction m as [|[k0 v] m IH]; simpl.
  - intros H. apply list_elem_of_singleton in H. injection H as -> ->.
    right. split; [done|]. exists init. split; [by left|done].
  - case_bool_decide as Hk; simpl in Hk; intros H; apply elem_of_cons in H as [H|H].
    + injection H as -> ->. right. split; [done|]. exists v. split; [|done].
      right. subst k0. left.
    + left. by right.
    + left. rewrite H. left.
    + apply IH in H as [H|(-> & v0 & [->|Hv0] & ->)].
      * left. by right.
      * right. split; [done|]. exists init. split; [by left|done].
      * right. split; [done|]. exists v0. split; [|done]. right. by right.
Qed.

Lemma upsert_keys {V} (k : string) (init : V) (f : V -> V) (m : list (string * V)) :
  (upsert k init f m).*1 = if decide (k ∈ m.*1) then m.*1 else m.*1 ++ [k].
Proof.
  induction m as [|[k0 v] m IH]; cbn [upsert].
  - by destruct (decide (k ∈ [].*1)) as [H|H]; [apply elem_of_nil in H|].
  - rewrite !fmap_cons. cbn [fst snd].
    destruct (decide (k0 = k)) as [->|Hk].
    + rewrite bool_decide_true by done. rewrite decide_True by left.
      by rewrite fmap_cons.
    + rewrite bool_decide_false by done. rewrite fmap_cons, IH. cbn [fst].
      destruct (decide (k ∈ m.*1)) as [Hin|Hin].
      * rewrite decide_True by (by right). done.
      * rewrite decide_False; [done|]. rewrite elem_of_cons. intros [?|?]; by subst.
Qed.

Lemma upsert_NoDup {V} (k : string) (init : V) (f : V -> V) (m : list (string * V)) :
  NoDup m.*1 -> NoDup (upsert k init f m).*1.
Proof.
  intros Hnd. rewrite upsert_keys. case_decide as Hin; [done|].
  apply NoDup_app. split_and!; [done| |apply NoDup_singleton].
  intros x Hx Hx'. apply list_elem_of_singleton in Hx'. by subst.
Qed.

Lemma mapGet_Some {V} (k : string) (m : list (string * V)) (v : V) :
  mapGet k m = Some v -> (k, v) ∈ m.
Proof.
  unfold mapGet. induction m as [|[k0 v0] m IH]; simpl; [done|].
  case_bool_decide as Hk; simpl in *.
  - intros [= <-]. subst. left.
  - intros H. right. by apply IH.
Qed.

Lemma mapGet_None {V} (k : string) (m : list (string * V)) :
  mapGet k m = None -> k ∉ m.*1.
Proof.
  unfold mapGet. induction m as [|[k0 v0] m IH]; simpl; [intros _; apply not_elem_of_nil|].
  case_bool_decide as Hk; simpl in *; [done|].
  intros H. rewrite elem_of_cons. intros [?|?]; [by subst|]. by apply IH.
Qed.

(** ** The row-per-event grid *)

Import RoutageA GridSpec.A.

Section row_per_event.

Context (cfg : config).

#[local] Abbreviation weeksMap := (weeksMapOf (weekRecords cfg)).
#[local] Abbreviation blocsMap := (blocsMapOf (blocRecords cfg)).

Lemma eventsOf_addWeekLink row gridData weekLink w :
  eventsOf w (addWeekLink cfg weeksMap row gridData weekLink)
  = eventsOf w gridData ++ (if decide (admits cfg w weekLink) then [row] else []).
Proof.
  unfold addWeekLink, admits.
  destruct (negb (bool_decide (selectedWeekId cfg = "__all__"))
            && negb (bool_decide (l_id weekLink = selectedWeekId cfg))) eqn:Hfilter.
  { apply andb_true_iff in Hfilter as [H1 H2].
    apply negb_true_iff, bool_decide_eq_false in H1, H2.
    rewrite decide_False by tauto. by rewrite app_nil_r. }
  apply andb_false_iff in Hfilter.
  assert (selectedWeekId cfg = "__all__" \/ l_id weekLink = selectedWeekId cfg) as Hsel.
  { destruct Hfilter as [H|H]; apply negb_false_iff, bool_decide_eq_true in H; tauto. }
  destruct (weeksMap !! l_id weekLink) as [weekInfo|] eqn:Hweek.
  - unfold eventsOf. destruct (decide (l_id weekLink = w)) as [<-|Hne].
    + rewrite mapGet_upsert_eq, decide_True by (split_and!; [done|done|by rewrite Hweek]).
      simpl. by destruct (mapGet (l_id weekLink) gridData).
    + rewrite mapGet_upsert_ne by done. rewrite decide_False by tauto.
      by rewrite app_nil_r.
  - rewrite decide_False; [by rewrite app_nil_r|].
    intros (<- & _ & Hsome). rewrite Hweek in Hsome. by destruct Hsome.
Qed.

Lemma eventsOf_linkedWeeks row gridData linkedWeeks w :
  eventsOf w (foldl (addWeekLink cfg weeksMap row) gridData linkedWeeks)
  = eventsOf w gridData ++ ((fun _ => row) <$> filter (admits cfg w) linkedWeeks).
Proof.
  revert gridData. induction linkedWeeks as [|weekLink linkedWeeks IH]; intros gridData.
  - by rewrite app_nil_r.
  - simpl. rewrite IH, eventsOf_addWeekLink, filter_cons.
    case_decide; simpl; by rewrite <-app_assoc.
Qed.

Lemma eventsOf_processEvent gridData event w :
  eventsOf w (processEvent cfg weeksMap blocsMap gridData event)
  = eventsOf w gridData ++ rowsFor cfg w event.
Proof.
  unfold processEvent, rowsFor.
  destruct (passes (selectedSiteId cfg) (ev_sites event)); simpl;
    [|by rewrite app_nil_r].
  destruct (passes (selectedCanalId cfg) (ev_canals event)); simpl;
    [|by rewrite app_nil_r].
  destruct (ev_weeks event) as [linkedWeeks|]; [|by rewrite app_nil_r].
  destruct (ev_blocs event) as [linkedBlocs|]; [|by rewrite app_nil_r].
  apply eventsOf_linkedWeeks.
Qed.

Lemma eventsOf_foldl gridData eventRecords w :
  eventsOf w (foldl (processEvent cfg weeksMap blocsMap) gridData eventRecords)
  = eventsOf w gridData ++ flat_map (rowsFor cfg w) eventRecords.
Proof.
  revert gridData. induction eventRecords as [|event eventRecords IH]; intros gridData.
  - by rewrite app_nil_r.
  - simpl. by rewrite IH, eventsOf_processEvent, <-app_assoc.
Qed.

Lemma eventsOf_gridDataOf eventRecords w :
  eventsOf w (gridDataOf cfg eventRecords) = flat_map (rowsFor cfg w) eventRecords.
Proof. unfold gridDataOf. by rewrite eventsOf_foldl. Qed.

Lemma keyed_addWeekLink row gridData weekLink :
  keyed gridData -> keyed (addWeekLink cfg weeksMap row gridData weekLink).
Proof.
  intros [Hnd Hkeys]. unfold addWeekLink.
  destruct (_ && _); [done|]. destruct (weeksMap !! l_id weekLink); [|done].
  split; [by apply upsert_NoDup|].
  apply Forall_forall. intros [k g] Hin.
  apply elem_of_upsert in Hin as [Hin|(-> & g0 & [->|Hg0] & ->)]; simpl.
  - rewrite Forall_forall in Hkeys. by apply (Hkeys (k, g)).
  - done.
  - rewrite Forall_forall in Hkeys. by apply (Hkeys (l_id weekLink, g0)).
Qed.

Lemma keyed_gridDataOf eventRecords : keyed (gridDataOf cfg eventRecords).
Proof.
  unfold gridDataOf.
  assert (keyed []) as Hnil by (split; constructor).
  revert Hnil. generalize (@nil (string * weekGroup)).
  induction eventRecords as [|event eventRecords IH]; intros gridData Hk; [done|].
  simpl. apply IH. unfold processEvent.
  destruct (negb _); [done|]. destruct (negb _); [done|].
  destruct (ev_weeks event) as [linkedWeeks|]; [|done].
  destruct (ev_blocs event) as [linkedBlocs|]; [|done].
  generalize (EventRow (ev_name event) (ev_id event) (activeDaysOf event)
                (blocNamesOf blocsMap linkedBlocs)). intros row.
  revert gridData Hk. induction linkedWeeks as [|weekLink linkedWeeks IHw];
    intros gridData Hk; [done|].
  simpl. by apply IHw, keyed_addWeekLink.
Qed.

End row_per_event.

(** ** Cells of the row-per-event grid *)

Lemma find_key_Some {B} (key : B -> string) (w : string) (l : list B) (g : B) :
  NoDup (key <$> l) -> g ∈ l -> key g = w ->
  List.find (fun g => bool_decide (key g = w)) l = Some g.
Proof.
  intros Hnd Hin Hkey. induction l as [|g0 l IH]; [by apply elem_of_nil in Hin|].
  rewrite fmap_cons in Hnd. apply NoDup_cons in Hnd as [Hnotin Hnd]. simpl.
  apply elem_of_cons in Hin as [->|Hin].
  - by rewrite bool_decide_true.
  - rewrite bool_decide_false; [by apply IH|].
    intros Hkey0. apply Hnotin. rewrite Hkey0, <-Hkey. by apply list_elem_of_fmap_2.
Qed.

Lemma find_key_None {B} (key : B -> string) (w : string) (l : list B) :
  w ∉ key <$> l -> List.find (fun g => bool_decide (key g = w)) l = None.
Proof.
  induction l as [|g0 l IH]; [done|]. rewrite fmap_cons, not_elem_of_cons.
  intros [Hne Hnotin]. simpl. rewrite bool_decide_false by done. by apply IH.
Qed.

Lemma keyed_weekIds gridData : keyed gridData -> weekId <$> gridData.*2 = gridData.*1.
Proof.
  intros [_ Hkeys]. induction Hkeys as [|[k g] gridData Hk _ IH]; [done|].
  rewrite !fmap_cons, IH. simpl in *. by rewrite Hk.
Qed.

(** Looking a week up in the sorted list gives its group in [gridData]. *)
Lemma find_sortedWeeks gridData w :
  keyed gridData ->
  List.find (fun g => bool_decide (weekId g = w)) (sortBy (weekCmp dateDebut) gridData.*2)
  = mapGet w gridData.
Proof.
  intros Hkeyed. pose proof (keyed_weekIds gridData Hkeyed) as Hids.
  pose proof (sortBy_Permutation dateDebut gridData.*2) as Hperm.
  destruct (mapGet w gridData) as [g|] eqn:Hget.
  - apply mapGet_Some in Hget. apply find_key_Some.
    + rewrite Hperm, Hids. apply Hkeyed.
    + rewrite Hperm. by apply (list_elem_of_fmap_2' snd _ (w, g)).
    + destruct Hkeyed as [_ Hkeys]. rewrite Forall_forall in Hkeys.
      by apply (Hkeys (w, g)).
  - apply mapGet_None in Hget. apply find_key_None. by rewrite Hperm, Hids.
Qed.

Lemma cellTotal_acc (evs : list eventRow) (bloc dayCode : string) (n : nat) :
  foldl (fun count ev =>
           if bool_decide (bloc ∈ blocNames ev) && bool_decide (dayCode ∈ activeDays ev)
           then S count else count) n evs
  = n + cellTotal evs bloc dayCode.
Proof.
  unfold cellTotal. revert n. induction evs as [|ev evs IH]; intros n; simpl; [lia|].
  rewrite IH. symmetry. rewrite IH. destruct (_ && _); lia.
Qed.

Lemma cellTotal_app (evs1 evs2 : list eventRow) (bloc dayCode : string) :
  cellTotal (evs1 ++ evs2) bloc dayCode
  = cellTotal evs1 bloc dayCode + cellTotal evs2 bloc dayCode.
Proof. unfold cellTotal at 1. by rewrite foldl_app, cellTotal_acc. Qed.

(** The total of a cell is the number of rows marked in it. *)
Lemma cellTotal_marks (evs : list eventRow) (bloc dayCode : string) :
  cellTotal evs bloc dayCode
  = length (filter (fun ev => isActive ev bloc dayCode = true) evs).
Proof.
  induction evs as [|ev evs IH]; [done|].
  change (ev :: evs) with ([ev] ++ evs). rewrite cellTotal_app, IH, filter_app, length_app.
  f_equal. unfold cellTotal, isActive. simpl. rewrite filter_cons, filter_nil.
  by destruct (_ && _).
Qed.

Lemma cellTotal_copies {B} (row : eventRow) (l : list B) (bloc dayCode : string) :
  cellTotal ((fun _ => row) <$> l) bloc dayCode
  = if isActive row bloc dayCode then length l else 0.
Proof.
  induction l as [|x l IH]; [by destruct (isActive _ _ _)|].
  rewrite fmap_cons. change (row :: ?l) with ([row] ++ l). rewrite cellTotal_app, IH.
  unfold cellTotal, isActive. simpl. by destruct (_ && _).
Qed.

(** The count of a cell is the sum of what the event records add to it. *)
Lemma cellOf_closed cfg eventRecords w bloc dayCode :
  cellOf cfg eventRecords w bloc dayCode
  = if allConfigured cfg
    then cellTotal (flat_map (rowsFor cfg w) eventRecords) bloc dayCode
    else 0.
Proof.
  unfold cellOf, sortedWeeks. destruct (allConfigured cfg); simpl; [|done].
  rewrite find_sortedWeeks by apply keyed_gridDataOf.
  rewrite <-eventsOf_gridDataOf. unfold eventsOf.
  by destruct (mapGet w (gridDataOf cfg eventRecords)).
Qed.

Lemma cellOf_insert cfg pre post event w bloc dayCode :
  allConfigured cfg = true ->
  cellOf cfg (pre ++ event :: post) w bloc dayCode
  = cellOf cfg (pre ++ post) w bloc dayCode + contribution cfg event w bloc dayCode.
Proof.
  intros Hcfg. rewrite !cellOf_closed, Hcfg. unfold contribution.
  rewrite !flat_map_app. simpl. rewrite !cellTotal_app. lia.
Qed.

(** ** What one event record adds to a cell *)

Lemma elem_of_blocNamesOf blocsMap linkedBlocs bloc :
  bloc ∈ blocNamesOf blocsMap linkedBlocs
  <-> exists blocLink, blocLink ∈ linkedBlocs /\ blocsMap !! l_id blocLink = Some bloc.
Proof. unfold blocNamesOf. by rewrite elem_of_list_to_set, list_elem_of_omap. Qed.

Lemma elem_of_activeDaysOf event dayCode :
  dayCode ∈ activeDaysOf event
  <-> exists day, day ∈ default [] (ev_jours event) /\ l_name day = dayCode.
Proof.
  unfold activeDaysOf. rewrite elem_of_list_to_set, list_elem_of_fmap.
  split; intros (day & H1 & H2); exists day; by split.
Qed.

Lemma isActive_rowOf cfg event linkedBlocs bloc dayCode :
  isActive (rowOf cfg event linkedBlocs) bloc dayCode = true
  <-> bloc ∈ blocNamesOf (blocsMapOf (blocRecords cfg)) linkedBlocs
      /\ dayCode ∈ activeDaysOf event.
Proof.
  unfold isActive, rowOf. simpl.
  by rewrite andb_true_iff, !bool_decide_eq_true.
Qed.

Lemma isActive_ext row row' bloc dayCode :
  (bloc ∈ blocNames row <-> bloc ∈ blocNames row') ->
  (dayCode ∈ activeDays row <-> dayCode ∈ activeDays row') ->
  isActive row bloc dayCode = isActive row' bloc dayCode.
Proof.
  intros Hb Hd. unfold isActive. f_equal; by apply bool_decide_ext.
Qed.

Lemma contribution_copies cfg event linkedWeeks linkedBlocs w bloc dayCode :
  passes (selectedSiteId cfg) (ev_sites event) = true ->
  passes (selectedCanalId cfg) (ev_canals event) = true ->
  ev_weeks event = Some linkedWeeks -> ev_blocs event = Some linkedBlocs ->
  contribution cfg event w bloc dayCode
  = if isActive (rowOf cfg event linkedBlocs) bloc dayCode
    then length (filter (admits cfg w) linkedWeeks) else 0.
Proof.
  intros Hsite Hcanal Hweeks Hblocs. unfold contribution, rowsFor.
  rewrite Hsite, Hcanal, Hweeks, Hblocs. simpl. apply cellTotal_copies.
Qed.

Lemma filter_admits_drop cfg w w' linkedWeeks :
  filter (admits cfg w') (filter (fun weekLink => l_id weekLink <> w) linkedWeeks)
  = if decide (w' = w) then [] else filter (admits cfg w') linkedWeeks.
Proof.
  rewrite list_filter_filter. case_decide as Hw.
  - subst w'. induction linkedWeeks as [|weekLink linkedWeeks IH]; [done|].
    rewrite filter_cons_False by (unfold admits; tauto). exact IH.
  - apply list_filter_iff. intros weekLink. unfold admits. split; [tauto|].
    intros Hadm. split; [done|]. destruct Hadm as [Hid _]. congruence.
Qed.

(** Without its links to week [w], the record adds nothing to the cells of
    [w] and what it added before to the cells of the other weeks. *)
Lemma contribution_dropWeek cfg event w w' bloc dayCode :
  contribution cfg (dropWeek w event) w' bloc dayCode
  = if decide (w' = w) then 0 else contribution cfg event w' bloc dayCode.
Proof.
  unfold contribution, rowsFor, dropWeek. simpl.
  destruct (_ && _); [|by case_decide].
  destruct (ev_weeks event) as [linkedWeeks|]; simpl; [|by case_decide].
  destruct (ev_blocs event) as [linkedBlocs|]; simpl; [|by case_decide].
  rewrite filter_admits_drop. by case_decide.
Qed.

Lemma contribution_dropBloc cfg event bloc w' bloc' dayCode :
  contribution cfg (dropBloc cfg bloc event) w' bloc' dayCode
  = if decide (bloc' = bloc) then 0 else contribution cfg event w' bloc' dayCode.
Proof.
  unfold contribution, rowsFor, dropBloc. simpl.
  destruct (_ && _); [|by case_decide].
  destruct (ev_weeks event) as [linkedWeeks|]; simpl; [|by case_decide].
  destruct (ev_blocs event) as [linkedBlocs|]; simpl; [|by case_decide].
  rewrite !cellTotal_copies. case_decide as Hb.
  - subst bloc'. unfold isActive, rowOf. simpl.
    rewrite bool_decide_false; [done|].
    rewrite elem_of_blocNamesOf. intros (blocLink & Hin & Hname).
    apply list_elem_of_filter in Hin as [Hne _]. done.
  - erewrite isActive_ext; [done| |done]. unfold rowOf. simpl.
    rewrite !elem_of_blocNamesOf. setoid_rewrite list_elem_of_filter.
    split; [by intros (blocLink & [_ Hin] & Hname); exists blocLink|].
    intros (blocLink & Hin & Hname). exists blocLink.
    split_and!; [congruence|done|done].
Qed.

Lemma contribution_dropDay cfg event dayCode w' bloc' dayCode' :
  contribution cfg (dropDay dayCode event) w' bloc' dayCode'
  = if decide (dayCode' = dayCode) then 0 else contribution cfg event w' bloc' dayCode'.
Proof.
  unfold contribution, rowsFor, dropDay. simpl.
  destruct (_ && _); [|by case_decide].
  destruct (ev_weeks event) as [linkedWeeks|]; simpl; [|by case_decide].
  destruct (ev_blocs event) as [linkedBlocs|]; simpl; [|by case_decide].
  rewrite !cellTotal_copies. case_decide as Hd.
  - subst dayCode'. unfold isActive, rowOf. simpl.
    rewrite (bool_decide_false (dayCode ∈ _)); [by rewrite andb_false_r|].
    rewrite elem_of_activeDaysOf. simpl. intros (day & Hin & Hname).
    destruct (ev_jours event) as [jours|]; simpl in Hin; [|by apply elem_of_nil in Hin].
    apply list_elem_of_filter in Hin as [Hne _]. done.
  - erewrite isActive_ext; [done|done|]. unfold rowOf. simpl.
    rewrite !elem_of_activeDaysOf. simpl.
    destruct (ev_jours event) as [jours|]; simpl; [|done].
    setoid_rewrite list_elem_of_filter.
    split; [by intros (day & [_ Hin] & Hname); exists day|].
    intros (day & Hin & Hname). exists day.
    split_and!; [congruence|done|done].
Qed.

(** ** Join of events, weeks, blocs and days *)

(** C2 (amended). In the row-per-event grid, an event record that passes
    the site and canal filters, has an admitted link to week [w], a link
    to a bloc named [bloc] and the day [dayCode], is counted in the cell
    ([w], [bloc], [dayCode]) once per admitted link to [w].  Without its
    links to [w] (resp. to the blocs named [bloc], resp. without the day
    [dayCode]) it is counted in no cell of that week (resp. bloc, resp.
    day), and the cells of the other weeks (resp. blocs, resp. days) keep
    their counts. *)
Theorem join_cell_counts (cfg : config) (pre post : list eventRecord) (event : eventRecord)
    (linkedWeeks linkedBlocs : list link) (weekLink blocLink day : link)
    (w bloc dayCode : string) :
  allConfigured cfg = true ->
  passes (selectedSiteId cfg) (ev_sites event) = true ->
  passes (selectedCanalId cfg) (ev_canals event) = true ->
  ev_weeks event = Some linkedWeeks -> weekLink ∈ linkedWeeks -> admits cfg w weekLink ->
  ev_blocs event = Some linkedBlocs -> blocLink ∈ linkedBlocs ->
  blocsMapOf (blocRecords cfg) !! l_id blocLink = Some bloc ->
  day ∈ default [] (ev_jours event) -> l_name day = dayCode ->
  let n := length (filter (admits cfg w) linkedWeeks) in
  1 <= n /\
  cellOf cfg (pre ++ event :: post) w bloc dayCode
  = cellOf cfg (pre ++ post) w bloc dayCode + n /\
  (forall w' bloc' dayCode',
     cellOf cfg (pre ++ dropWeek w event :: post) w' bloc' dayCode'
     = if decide (w' = w) then cellOf cfg (pre ++ post) w' bloc' dayCode'
       else cellOf cfg (pre ++ event :: post) w' bloc' dayCode') /\
  (forall w' bloc' dayCode',
     cellOf cfg (pre ++ dropBloc cfg bloc event :: post) w' bloc' dayCode'
     = if decide (bloc' = bloc) then cellOf cfg (pre ++ post) w' bloc' dayCode'
       else cellOf cfg (pre ++ event :: post) w' bloc' dayCode') /\
  (forall w' bloc' dayCode',
     cellOf cfg (pre ++ dropDay dayCode event :: post) w' bloc' dayCode'
     = if decide (dayCode' = dayCode) then cellOf cfg (pre ++ post) w' bloc' dayCode'
       else cellOf cfg (pre ++ event :: post) w' bloc' dayCode').
Proof.
  intros Hcfg Hsite Hcanal Hweeks Hweek Hadm Hblocs Hbloc Hname Hday Hcode n.
  assert (Hn : 1 <= n).
  { subst n. assert (weekLink ∈ filter (admits cfg w) linkedWeeks) as Hin
      by (by apply list_elem_of_filter).
    destruct (filter (admits cfg w) linkedWeeks); [by apply elem_of_nil in Hin|simpl; lia]. }
  split_and!.
  - done.
  - rewrite cellOf_insert by done. f_equal.
    rewrite (contribution_copies cfg event linkedWeeks linkedBlocs) by done.
    rewrite (proj2 (isActive_rowOf cfg event linkedBlocs bloc dayCode)); [done|].
    split; [apply elem_of_blocNamesOf|apply elem_of_activeDaysOf]; eauto.
  - intros w' bloc' dayCode'. rewrite !cellOf_insert, contribution_dropWeek by done.
    case_decide; lia.
  - intros w' bloc' dayCode'. rewrite !cellOf_insert, contribution_dropBloc by done.
    case_decide; lia.
  - intros w' bloc' dayCode'. rewrite !cellOf_insert, contribution_dropDay by done.
    case_decide; lia.
Qed.

(** Counterexample to C2 as stated.  The event of week 1, blocs am and pm
    and day D is counted in the cell (week 1, am, D); removing its week
    link removes it from that cell, and also from the cell (week 1, pm, D):
    it is not true that no other cell changes. *)
Lemma join_other_cell_also_cleared :
  cellOf gridConfig [twoBlocEvent] "recW1" "am" "D" = 1 /\
  cellOf gridConfig [dropWeek "recW1" twoBlocEvent] "recW1" "am" "D" = 0 /\
  cellOf gridConfig [twoBlocEvent] "recW1" "pm" "D" = 1 /\
  cellOf gridConfig [dropWeek "recW1" twoBlocEvent] "recW1" "pm" "D" = 0 /\
  ~ (forall w bloc dayCode,
       (w, bloc, dayCode) <> ("recW1", "am", "D") ->
       cellOf gridConfig [dropWeek "recW1" twoBlocEvent] w bloc dayCode
       = cellOf gridConfig [twoBlocEvent] w bloc dayCode).
Proof.
  split_and!; try (vm_compute; reflexivity).
  intros Hsame. specialize (Hsame "recW1" "pm" "D").
  assert (cellOf gridConfig [twoBlocEvent] "recW1" "pm" "D" = 1) as H1
    by (vm_compute; reflexivity).
  assert (cellOf gridConfig [dropWeek "recW1" twoBlocEvent] "recW1" "pm" "D" = 0) as H0
    by (vm_compute; reflexivity).
  rewrite H1, H0 in Hsame. by discriminate Hsame.
Qed.

Lemma join_cell_counts_witness :
  cellOf gridConfig ([] ++ twoBlocEvent :: []) "recW1" "am" "D"
  = cellOf gridConfig ([] ++ []) "recW1" "am" "D" + 1.
Proof.
  pose proof (join_cell_counts gridConfig [] [] twoBlocEvent
                [Link "recW1" "Semaine 1"] [Link "recAM" "am"; Link "recPM" "pm"]
                (Link "recW1" "Semaine 1") (Link "recAM" "am") (Link "selD" "D")
                "recW1" "am" "D") as H.
  simpl in H. apply H; clear H; try reflexivity.
  - left.
  - split_and!; [reflexivity|by left|]. vm_compute. eauto.
  - left.
  - left.
Defined.

(** ** Threshold of the totals row *)

(** C9. A cell of the totals row is flagged exactly when its count, the
    number of rows marked in the cell, exceeds 5: a count of 5 is not
    flagged, a count of 6 is; a count of zero is rendered as the empty
    text, not as the digit zero. *)
Theorem alert_threshold (evs : list eventRow) (bloc dayCode : string) :
  let count := cellTotal evs bloc dayCode in
  count = length (filter (fun ev => isActive ev bloc dayCode = true) evs) /\
  (overLimit count = true <-> 5 < count) /\
  overLimit 5 = false /\ overLimit 6 = true /\
  (count = 0 -> totalText count = "") /\
  (count <> 0 -> totalText count = pretty count) /\
  totalText 0 = "" /\ pretty 0 = "0".
Proof.
  intros count. split_and!; try done.
  - apply cellTotal_marks.
  - unfold overLimit, ALERT_THRESHOLD. by rewrite bool_decide_eq_true.
  - intros ->. done.
  - intros Hne. unfold totalText. by rewrite bool_decide_false.
Qed.

(** ** Rows of the grid and their events *)

Lemma mapGet_elem {V} (k : string) (v : V) (m : list (string * V)) :
  NoDup m.*1 -> (k, v) ∈ m -> mapGet k m = Some v.
Proof.
  intros Hnd Hin. destruct (mapGet k m) as [v'|] eqn:Hget.
  - apply mapGet_Some in Hget. f_equal.
    apply list_elem_of_lookup_1 in Hin as [i Hi], Hget as [j Hj].
    assert (i = j) as ->.
    { apply (NoDup_lookup m.*1 i j k Hnd); rewrite list_lookup_fmap; [by rewrite Hi|by rewrite Hj]. }
    congruence.
  - apply mapGet_None in Hget. exfalso. apply Hget.
    by apply (list_elem_of_fmap_2' fst _ (k, v)).
Qed.

Lemma elem_of_flat_map {B C} (f : B -> list C) (l : list B) (y : C) :
  y ∈ flat_map f l <-> exists x, x ∈ l /\ y ∈ f x.
Proof.
  rewrite list_elem_of_In, in_flat_map. setoid_rewrite list_elem_of_In. done.
Qed.

(** Every row of the row-per-event grid comes from an event record with
    array week and bloc cells and an admitted link to the week of the row. *)
Lemma rowA_source cfg eventRecords g row :
  g ∈ sortedWeeks cfg eventRecords -> row ∈ events g ->
  is_Some (weeksMapOf (weekRecords cfg) !! weekId g) /\
  exists event linkedWeeks linkedBlocs weekLink,
    event ∈ eventRecords /\
    ev_weeks event = Some linkedWeeks /\ ev_blocs event = Some linkedBlocs /\
    weekLink ∈ linkedWeeks /\ l_id weekLink = weekId g /\
    row = rowOf cfg event linkedBlocs.
Proof.
  unfold sortedWeeks. destruct (allConfigured cfg); simpl;
    [|by intros ?%elem_of_nil].
  intros Hg Hrow. rewrite sortBy_Permutation in Hg.
  apply list_elem_of_fmap in Hg as ([k g'] & -> & Hin). simpl in *.
  pose proof (keyed_gridDataOf cfg eventRecords) as [Hnd Hkeys].
  rewrite Forall_forall in Hkeys. pose proof (Hkeys _ Hin) as Hk. simpl in Hk. subst k.
  pose proof (eventsOf_gridDataOf cfg eventRecords (weekId g')) as Hevents.
  unfold eventsOf in Hevents. rewrite (mapGet_elem _ g') in Hevents by done.
  simpl in Hevents. rewrite Hevents in Hrow.
  apply elem_of_flat_map in Hrow as (event & Hevent & Hrow).
  unfold rowsFor in Hrow. destruct (_ && _); [|by apply elem_of_nil in Hrow].
  destruct (ev_weeks event) as [linkedWeeks|] eqn:Hweeks; [|by apply elem_of_nil in Hrow].
  destruct (ev_blocs event) as [linkedBlocs|] eqn:Hblocs; [|by apply elem_of_nil in Hrow].
  apply list_elem_of_fmap in Hrow as (weekLink & -> & Hlink).
  apply list_elem_of_filter in Hlink as [(Hid & _ & Hsome) Hlink].
  split; [done|]. exists event, linkedWeeks, linkedBlocs, weekLink. done.
Qed.

Lemma addWeekLink_skip cfg row gridData weekLink :
  ~ admits cfg (l_id weekLink) weekLink ->
  addWeekLink cfg (weeksMapOf (weekRecords cfg)) row gridData weekLink = gridData.
Proof.
  intros Hno. unfold addWeekLink.
  destruct (negb (bool_decide (selectedWeekId cfg = "__all__"))
            && negb (bool_decide (l_id weekLink = selectedWeekId cfg))) eqn:Hfilter; [done|].
  destruct (weeksMapOf (weekRecords cfg) !! l_id weekLink) eqn:Hweek; [|done].
  exfalso. apply Hno. split_and!; [done| |by rewrite Hweek].
  apply andb_false_iff in Hfilter as [H|H];
    apply negb_false_iff, bool_decide_eq_true in H; tauto.
Qed.

(** An event record that adds no row leaves [gridData] as it is. *)
Lemma processEvent_skip cfg gridData event :
  addsNoRow cfg event ->
  processEvent cfg (weeksMapOf (weekRecords cfg)) (blocsMapOf (blocRecords cfg))
    gridData event = gridData.
Proof.
  intros Hno. unfold processEvent.
  destruct (negb _); [done|]. destruct (negb _); [done|].
  destruct Hno as [->|[Hb|(linkedWeeks & -> & Hnone)]]; [done| |].
  - rewrite Hb. by destruct (ev_weeks event).
  - destruct (ev_blocs event) as [linkedBlocs|]; [|done].
    induction linkedWeeks as [|weekLink linkedWeeks IH]; [done|].
    simpl. rewrite addWeekLink_skip by (apply Hnone; left).
    apply IH. intros wl Hwl. apply Hnone. by right.
Qed.

Lemma sortedWeeksA_skip cfg pre post event :
  addsNoRow cfg event ->
  sortedWeeks cfg (pre ++ event :: post) = sortedWeeks cfg (pre ++ post).
Proof.
  intros Hno. unfold sortedWeeks, gridDataOf.
  rewrite !foldl_app. simpl. by rewrite processEvent_skip.
Qed.

(** ** The cross-product grid *)

Module CrossProduct.

Import RoutageB GridSpec.B.

Section rows.

Context (cfg : config) (eventRecords : list eventRecord) (event : eventRecord)
  (linkedWeeks linkedBlocs : list link).
Hypothesis Hevent : event ∈ eventRecords.
Hypothesis Hweeks : ev_weeks event = Some linkedWeeks.
Hypothesis Hblocs : ev_blocs event = Some linkedBlocs.

Lemma addBlocLink_sourced entry blocLink weekLink :
  weekLink ∈ linkedWeeks -> blocLink ∈ linkedBlocs ->
  entrySourced cfg eventRecords (l_id weekLink) entry ->
  entrySourced cfg eventRecords (l_id weekLink)
    (addBlocLink (blocsMapOf (blocRecords cfg)) (rowOf event) entry blocLink).
Proof.
  intros Hwl Hbl [Hid Hrows]. unfold addBlocLink.
  destruct (blocsMapOf (blocRecords cfg) !! l_id blocLink) as [blocName|] eqn:Hname;
    [|done].
  split; [done|]. simpl. intros bn rows row Hin Hrow.
  apply elem_of_upsert in Hin as [Hin|(-> & rows0 & [->|Hin] & ->)].
  - by eapply Hrows.
  - apply list_elem_of_singleton in Hrow as ->.
    exists event, linkedWeeks, linkedBlocs, weekLink, blocLink. done.
  - apply elem_of_app in Hrow as [Hrow|Hrow]; [by eapply Hrows|].
    apply list_elem_of_singleton in Hrow as ->.
    exists event, linkedWeeks, linkedBlocs, weekLink, blocLink. done.
Qed.

Lemma linkedBlocs_sourced entry weekLink (todo : list link) :
  weekLink ∈ linkedWeeks -> (forall blocLink, blocLink ∈ todo -> blocLink ∈ linkedBlocs) ->
  entrySourced cfg eventRecords (l_id weekLink) entry ->
  entrySourced cfg eventRecords (l_id weekLink)
    (foldl (addBlocLink (blocsMapOf (blocRecords cfg)) (rowOf event)) entry todo).
Proof.
  intros Hwl. revert entry. induction todo as [|blocLink todo IH]; intros entry Hsub Hsrc;
    [done|].
  simpl. apply IH; [intros bl Hbl; apply Hsub; by right|].
  apply addBlocLink_sourced; [done|apply Hsub; left|done].
Qed.

Lemma addWeekLink_sourced gridData weekLink :
  weekLink ∈ linkedWeeks ->
  wellSourced cfg eventRecords gridData ->
  wellSourced cfg eventRecords
    (addWeekLink (weeksMapOf (weekRecords cfg)) (blocsMapOf (blocRecords cfg))
       (rowOf event) linkedBlocs gridData weekLink).
Proof.
  intros Hwl Hgrid. unfold addWeekLink.
  destruct (weeksMapOf (weekRecords cfg) !! l_id weekLink) as [weekInfo|] eqn:Hweek;
    [|done].
  intros w entry Hin.
  apply elem_of_upsert in Hin as [Hin|(-> & entry0 & [->|Hin] & ->)].
  - by apply Hgrid.
  - split; [by rewrite Hweek|]. apply linkedBlocs_sourced; [done..|].
    split; [done|]. simpl. by intros bn rows row ?%elem_of_nil.
  - split; [by rewrite Hweek|]. apply linkedBlocs_sourced; [done..|].
    by apply Hgrid.
Qed.

Lemma linkedWeeks_sourced gridData (todo : list link) :
  (forall weekLink, weekLink ∈ todo -> weekLink ∈ linkedWeeks) ->
  wellSourced cfg eventRecords gridData ->
  wellSourced cfg eventRecords
    (foldl (addWeekLink (weeksMapOf (weekRecords cfg)) (blocsMapOf (blocRecords cfg))
              (rowOf event) linkedBlocs) gridData todo).
Proof.
  revert gridData. induction todo as [|weekLink todo IH]; intros gridData Hsub Hgrid;
    [done|].
  simpl. apply IH; [intros wl Hin; apply Hsub; by right|].
  apply addWeekLink_sourced; [apply Hsub; left|done].
Qed.

End rows.

Lemma sourced_mono cfg eventRecords event w blocName row :
  sourced cfg eventRecords w blocName row ->
  sourced cfg (eventRecords ++ [event]) w blocName row.
Proof.
  intros (ev & lw & lb & wl & bl & Hev & H). exists ev, lw, lb, wl, bl.
  split; [|done]. apply elem_of_app. by left.
Qed.

Lemma gridDataOf_snoc cfg eventRecords event :
  gridDataOf cfg (eventRecords ++ [event])
  = processEvent (weeksMapOf (weekRecords cfg)) (blocsMapOf (blocRecords cfg))
      (gridDataOf cfg eventRecords) event.
Proof. unfold gridDataOf. by rewrite foldl_app. Qed.

Lemma gridDataOf_sourced cfg eventRecords :
  wellSourced cfg eventRecords (gridDataOf cfg eventRecords).
Proof.
  induction eventRecords as [|event eventRecords IH] using rev_ind.
  - by intros w entry ?%elem_of_nil.
  - rewrite gridDataOf_snoc.
    assert (wellSourced cfg (eventRecords ++ [event]) (gridDataOf cfg eventRecords)) as Hold.
    { intros w entry Hin. destruct (IH w entry Hin) as [Hw [Hid Hrows]].
      split; [done|]. split; [done|]. intros bn rows row Hbn Hrow.
      by eapply sourced_mono, Hrows. }
    unfold processEvent.
    destruct (ev_weeks event) as [linkedWeeks|] eqn:Hweeks; [|done].
    destruct (ev_blocs event) as [linkedBlocs|] eqn:Hblocs; [|done].
    apply (linkedWeeks_sourced cfg (eventRecords ++ [event]) event linkedWeeks linkedBlocs);
      try done.
    apply elem_of_app. right. left.
Qed.

(** Every row drawn by the cross-product grid sits in a week found in the
    weeks table, under a bloc found in the blocs table, both linked to the
    event of the row. *)
Lemma rowB_source cfg eventRecords weekData blocName row :
  weekData ∈ sortedWeeks cfg eventRecords ->
  (blocName, row) ∈ renderedRows weekData ->
  is_Some (weeksMapOf (weekRecords cfg) !! weekId weekData) /\
  sourced cfg eventRecords (weekId weekData) blocName row.
Proof.
  unfold sortedWeeks. destruct (allConfigured cfg); simpl;
    [|by intros ?%elem_of_nil].
  intros Hg Hrow. rewrite sortBy_Permutation in Hg.
  apply list_elem_of_fmap in Hg as ([w entry] & -> & Hin). simpl in *.
  destruct (gridDataOf_sourced cfg eventRecords w entry Hin) as [Hw [Hid Hrows]].
  rewrite Hid. split; [done|].
  unfold renderedRows in Hrow. apply elem_of_flat_map in Hrow as (bn & _ & Hrow).
  apply list_elem_of_fmap in Hrow as (row' & [= -> ->] & Hrow).
  destruct (mapGet bn (blocs entry)) as [rows|] eqn:Hget;
    [|by apply elem_of_nil in Hrow].
  apply mapGet_Some in Hget. by eapply Hrows.
Qed.

Lemma crossProduct_processEvent_skip cfg gridData event :
  addsNothing cfg event ->
  processEvent (weeksMapOf (weekRecords cfg)) (blocsMapOf (blocRecords cfg))
    gridData event = gridData.
Proof.
  intros Hno. unfold processEvent.
  destruct Hno as [->|[Hb|(linkedWeeks & -> & Hnone)]]; [done| |].
  - rewrite Hb. by destruct (ev_weeks event).
  - destruct (ev_blocs event) as [linkedBlocs|]; [|done].
    induction linkedWeeks as [|weekLink linkedWeeks IH]; [done|].
    simpl. unfold addWeekLink at 2. rewrite Hnone by left.
    apply IH. intros wl Hwl. apply Hnone. by right.
Qed.

Lemma crossProduct_sortedWeeks_skip cfg pre post event :
  addsNothing cfg event ->
  sortedWeeks cfg (pre ++ event :: post) = sortedWeeks cfg (pre ++ post).
Proof.
  intros Hno. unfold sortedWeeks, gridDataOf.
  rewrite !foldl_app. simpl. by rewrite crossProduct_processEvent_skip.
Qed.

End CrossProduct.

(** ** Which events reach the grid *)

(** C6 (amended). Every row of the grid belongs to a week that is found
    in the weeks table and to which the event of the row is linked, and the
    event has an array in its week cell and in its bloc cell; an event with
    a [null] week or bloc cell, or with no week link that reaches the grid,
    leaves the grid as if it were absent.  In the cross-product variant a
    row moreover sits under a bloc found in the blocs table and linked to
    its event; in the row-per-event variant the bloc names of a row are
    those resolved from the bloc cell, which may be none. *)
Theorem rendered_rows_have_week_and_bloc_cell :
  (forall cfg eventRecords g row,
     g ∈ RoutageA.sortedWeeks cfg eventRecords -> row ∈ RoutageA.events g ->
     is_Some (weeksMapOf (RoutageA.weekRecords cfg) !! RoutageA.weekId g) /\
     exists event linkedWeeks linkedBlocs weekLink,
       event ∈ eventRecords /\
       RoutageA.ev_weeks event = Some linkedWeeks /\
       RoutageA.ev_blocs event = Some linkedBlocs /\
       weekLink ∈ linkedWeeks /\ l_id weekLink = RoutageA.weekId g /\
       RoutageA.eventId row = RoutageA.ev_id event /\
       RoutageA.blocNames row
       = RoutageA.blocNamesOf (blocsMapOf (RoutageA.blocRecords cfg)) linkedBlocs) /\
  (forall cfg pre post event,
     GridSpec.A.addsNoRow cfg event ->
     RoutageA.sortedWeeks cfg (pre ++ event :: post) = RoutageA.sortedWeeks cfg (pre ++ post)) /\
  (forall cfg eventRecords weekData blocName row,
     weekData ∈ RoutageB.sortedWeeks cfg eventRecords ->
     (blocName, row) ∈ RoutageB.renderedRows weekData ->
     is_Some (weeksMapOf (RoutageB.weekRecords cfg) !! RoutageB.weekId weekData) /\
     GridSpec.B.sourced cfg eventRecords (RoutageB.weekId weekData) blocName row) /\
  (forall cfg pre post event,
     GridSpec.B.addsNothing cfg event ->
     RoutageB.sortedWeeks cfg (pre ++ event :: post) = RoutageB.sortedWeeks cfg (pre ++ post)).
Proof.
  split_and!.
  - intros cfg eventRecords g row Hg Hrow.
    destruct (rowA_source cfg eventRecords g row Hg Hrow)
      as [Hweek (event & lw & lb & wl & Hev & Hw & Hb & Hwl & Hid & ->)].
    split; [done|]. exists event, lw, lb, wl. done.
  - apply sortedWeeksA_skip.
  - apply CrossProduct.rowB_source.
  - apply CrossProduct.crossProduct_sortedWeeks_skip.
Qed.

(** Counterexample to C6 as stated, in the row-per-event variant: an
    event whose bloc cell is an empty array, and an event whose only bloc
    link points to no record of the blocs table, both occupy a row of their
    week, with no bloc name at all. *)
Lemma row_without_bloc :
  RoutageA.sortedWeeks gridConfig [noBlocEvent; strayBlocEvent]
  = [RoutageA.WeekGroup "recW1" "Semaine 1" (Some (19723 * 86400000)%Z) None
       [RoutageA.EventRow "Repetition" "recE2" {["D"]} ∅;
        RoutageA.EventRow "Demontage" "recE3" {["D"]} ∅]] /\
  ~ (forall g row,
       g ∈ RoutageA.sortedWeeks gridConfig [noBlocEvent; strayBlocEvent] ->
       row ∈ RoutageA.events g -> RoutageA.blocNames row <> ∅).
Proof.
  assert (RoutageA.sortedWeeks gridConfig [noBlocEvent; strayBlocEvent]
          = [RoutageA.WeekGroup "recW1" "Semaine 1" (Some (19723 * 86400000)%Z) None
               [RoutageA.EventRow "Repetition" "recE2" {["D"]} ∅;
                RoutageA.EventRow "Demontage" "recE3" {["D"]} ∅]]) as Hgrid
    by (vm_compute; reflexivity).
  split; [exact Hgrid|].
  intros Hall. rewrite Hgrid in Hall.
  eapply (Hall _ (RoutageA.EventRow "Repetition" "recE2" {["D"]} ∅)).
  - left.
  - left.
  - reflexivity.
Qed.

(** ** The statements on concrete inputs *)

Local Open Scope Z_scope.


(** The two performances alone give 5, 5, 7 and, read over the three days,
    0, 3, 3; together they give 5, 8, 10. *)
Example aggregate_two_performances :
  reconstructSingle (rowsOf "recA" twoPerformances)
  = [Point 1 5 0 0; Point 2 5 0 0; Point 3 7 0 0] /\
  valueAt (reconstructSingle (rowsOf "recB" twoPerformances)) <$> [1; 2; 3]
  = [Entry 0 0 0; Entry 3 0 0; Entry 3 0 0] /\
  reconstructAll twoPerformances = [Point 1 5 0 0; Point 2 8 0 0; Point 3 10 0 0].
Proof. vm_compute. done. Qed.

Lemma same_day_last_row_wins_witness :
  reconstructSingle sameDayRows
  = reconstructSingle [RawRow "recP" (Some 1) (Some 4) None None] /\
  reconstructAll sameDayRows
  = reconstructAll [RawRow "recP" (Some 1) (Some 4) None None].
Proof.
  pose proof (same_day_last_row_wins [] [] []
                (RawRow "recP" (Some 1) (Some 10) None None)
                (RawRow "recP" (Some 1) (Some 4) None None) eq_refl eq_refl) as H.
  simpl in H. destruct H as (_ & _ & _ & _ & Hsingle & Hall).
  split; [exact Hsingle|exact Hall].
Defined.

(** The earlier value 10 does not enter the maximum of the day. *)
Example same_day_keeps_last :
  reconstructSingle sameDayRows = [Point 1 4 0 0] /\
  reconstructAll sameDayRows = [Point 1 4 0 0].
Proof. vm_compute. done. Qed.

Lemma period_delta_witness :
  periodStats fiveDays (filteredSalesData fiveDays (Some 3) (Some 5))
  = Some (Stats (15 - 4) (0 - 0)).
Proof.
  apply (period_delta fiveDays (Some 3) (Some 5) 2 4
           (Point 3 10 0 0) (Point 5 15 0 0) (Point 2 4 0 0)).
  - reflexivity.
  - unfold inRange. simpl. lia.
  - reflexivity.
  - unfold inRange. simpl. lia.
  - intros k q Hk [Hfrom Hto]. simpl in Hfrom, Hto.
    do 5 (destruct k as [|k]; [injection Hk as <-; simpl in *; lia|]).
    discriminate Hk.
  - reflexivity.
Defined.

Example period_delta_days_3_to_5 :
  periodStats fiveDays (filteredSalesData fiveDays (Some 3) (Some 5))
  = Some (Stats 11 0).
Proof. vm_compute. reflexivity. Qed.

(** Pages of 1000, 1000 and 400 rows: three requests, 2400 rows. *)
Example pagination_three_pages :
  paginate 5 threePages (fun _ => false) [] 0 0
  = Some (Finished (pageOfSize 2400), 3%nat) /\
  length (pageOfSize 2400) = 2400%nat /\
  (forall fuel, (3 <= fuel)%nat ->
     paginate fuel threePages (fun _ => false) [] 0 0
     = Some (Finished (pageOfSize 2400), 3%nat)).
Proof.
  split_and!.
  - vm_compute. reflexivity.
  - apply length_replicate.
  - intros fuel Hfuel.
    apply (paginate_finished fuel threePages (fun _ => false) [] 0 (pageOfSize 2400) 3).
    exists [pageOfSize 1000; pageOfSize 1000; pageOfSize 400].
    split_and!; [|simpl; lia|done|by vm_compute].
    cbn [pagesOk]. unfold pageOfSize, pageSize. rewrite !length_replicate.
    split_and!; try (vm_compute; reflexivity); lia.
Qed.

(** R1 is superseded by R2 and completes after it: the component shows
    the series of R2, and only R2 reached the cache. *)
Example superseded_request_is_ignored :
  let w := run initial supersededRun in
  salesData (ui w) = reconstructSingle rowsP2 /\
  salesData (ui w) = [Point 1 7 0 0] /\
  loading (ui w) = false /\ error (ui w) = None /\
  cache (ui w) !! "recP2" = Some [Point 1 7 0 0] /\
  cache (ui w) !! "recP1" = None.
Proof. vm_compute. done. Qed.

(** Start dates [null, 2024-01-08, 2024-01-01, null]. *)
Example weeks_sorted_example :
  sortBy (weekCmp snd) weeksToSort
  = [("recW3", Some (19723 * 86400000)); ("recW2", Some (19730 * 86400000));
     ("recW1", None); ("recW4", None)].
Proof. vm_compute. reflexivity. Qed.

(** Five marks are not flagged, six are. *)
Example threshold_five_and_six :
  let row := RoutageA.EventRow "Montage" "recE1" {["D"]} {["am"]} in
  overLimit (cellTotal (replicate 5 row) "am" "D") = false /\
  overLimit (cellTotal (replicate 6 row) "am" "D") = true /\
  totalText (cellTotal [] "am" "D") = "".
Proof. vm_compute. done. Qed.

(** * Part III.  Further properties of the code *)

(** ** Degenerate inputs of the reconstruction *)

Import Dashboard.

Lemma last_sorted_keys_undated (l : list (option Z)) :
  None ∈ l -> last (merge_sort key_le l) = Some None.
Proof.
  intros Hin.
  pose proof (merge_sort_Permutation key_le l) as Hperm.
  pose proof (StronglySorted_merge_sort key_le l) as Hsorted.
  destruct (last (merge_sort key_le l)) as [y|] eqn:Hlast.
  - assert (key_le None y) as Hle.
    { apply (StronglySorted_last_max key_le _ _ Hsorted Hlast). by rewrite Hperm. }
    by destruct y.
  - apply last_None in Hlast. rewrite Hlast in Hperm.
    apply Permutation_nil_l in Hperm. subst. by apply elem_of_nil in Hin.
Qed.

Lemma reconstructSingle_undated data :
  None ∈ date <$> data -> reconstructSingle data = [].
Proof.
  intros Hin. unfold reconstructSingle, sortedKeys.
  rewrite (last_sorted_keys_undated (elements (dom (indexByDay data)))).
  2:{ by rewrite elem_of_elements, dom_indexByDay. }
  case_bool_decide; [|done]. simpl. by destruct (newDate _).
Qed.

(** Either every row is dated and there is one, or the input is
    degenerate. *)
Lemma dated_or_degenerate (data : list rawRow) :
  (data <> [] /\ forall row, row ∈ data -> is_Some (date row))
  \/ (data = [] \/ None ∈ date <$> data).
Proof.
  destruct (decide (data = [])) as [->|Hne]; [right; by left|].
  destruct (decide (None ∈ date <$> data)) as [Hin|Hnin]; [right; by right|].
  left. split; [done|]. intros row Hrow.
  destruct (date row) as [d|] eqn:Hd; [done|].
  destruct Hnin. apply list_elem_of_fmap. by exists row.
Qed.

(** X1. In single-performance mode the reconstructed series is empty
    exactly when no row was fetched or some fetched row has no date: a
    single row without date blanks the whole series, whatever the other
    rows are. *)
Theorem series_empty_iff (data : list rawRow) :
  reconstructSingle data = []
  <-> data = [] \/ exists row, row ∈ data /\ date row = None.
Proof.
  split.
  - intros Hnil. destruct (dated_or_degenerate data) as [[Hne Hdated]|[->|Hin]].
    + destruct (reconstructSingle_closed data Hne Hdated)
        as (lo & hi & Hlo & _ & Hb & Hlen & _).
      specialize (Hb lo Hlo). rewrite Hnil in Hlen. simpl in Hlen. lia.
    + by left.
    + right. apply list_elem_of_fmap in Hin as (row & Hd & Hrow). by exists row.
  - intros [->|(row & Hrow & Hd)]; [done|].
    apply reconstructSingle_undated, list_elem_of_fmap. by exists row.
Qed.

(** ** Aggregate mode over a single performance *)

Lemma addEntry_zero_l e : addEntry zeroEntry e = e.
Proof. destruct e. unfold addEntry. simpl. done. Qed.

Lemma NoDup_constant {A} (l : list A) (x : A) :
  NoDup l -> l <> [] -> (forall y, y ∈ l -> y = x) -> l = [x].
Proof.
  intros Hnd Hne Hall. destruct l as [|y l]; [done|].
  rewrite (Hall y) by left. destruct l as [|z l]; [done|].
  apply NoDup_cons in Hnd as [Hnin _]. destruct Hnin.
  rewrite (Hall y), <-(Hall z); [left|right; left|left].
Qed.

Lemma recordIdsOf_one (data : list rawRow) (rid : string) :
  data <> [] -> (forall row, row ∈ data -> record_id row = rid) -> recordIdsOf data = [rid].
Proof.
  intros Hne Hall. apply NoDup_constant; [apply NoDup_recordIdsOf| |].
  - destruct data as [|row data]; [done|]. intros Hnil.
    assert (record_id row ∈ recordIdsOf (row :: data)) as Hin.
    { apply elem_of_recordIdsOf. rewrite fmap_cons. left. }
    rewrite Hnil in Hin. by apply elem_of_nil in Hin.
  - intros y (row & -> & Hrow)%elem_of_recordIdsOf%list_elem_of_fmap. by apply Hall.
Qed.

Lemma rowsOf_all (data : list rawRow) (rid : string) :
  (forall row, row ∈ data -> record_id row = rid) -> rowsOf rid data = data.
Proof.
  unfold rowsOf. induction data as [|row data IH]; intros Hall; [done|].
  rewrite filter_cons, decide_True by (apply Hall; left).
  f_equal. apply IH. intros row' Hrow'. apply Hall. by right.
Qed.

(** X2. When the fetched rows are dated and all belong to the same
    performance, the aggregate reconstruction and the single-performance
    reconstruction give the same series. *)
Theorem aggregate_of_one_performance (data : list rawRow) (rid : string) :
  (forall row, row ∈ data -> is_Some (date row)) ->
  (forall row, row ∈ data -> record_id row = rid) ->
  reconstructAll data = reconstructSingle data.
Proof.
  intros Hdated Hall. destruct (decide (data = [])) as [->|Hne]; [done|].
  - destruct (reconstructAll_closed data Hne Hdated)
      as (lo & hi & Hlo & Hhi & Hb & Hlen & Hlook).
    destruct (reconstructSingle_closed data Hne Hdated)
      as (lo' & hi' & Hlo' & Hhi' & Hb' & Hlen' & Hlook').
    assert (lo' = lo) as -> by (specialize (Hb lo' Hlo'); specialize (Hb' lo Hlo); lia).
    assert (hi' = hi) as -> by (specialize (Hb hi' Hhi'); specialize (Hb' hi Hhi); lia).
    apply list_eq. intros k.
    destruct (decide (k < Z.to_nat (hi - lo + 1))%nat) as [Hk|Hk].
    + rewrite Hlook, Hlook' by done.
      rewrite (recordIdsOf_one data rid) by done.
      rewrite list_fmap_singleton, (rowsOf_all data rid) by done.
      unfold sumEntries. simpl. by rewrite addEntry_zero_l.
    + rewrite !lookup_ge_None_2 by lia. done.
Qed.

Lemma aggregate_of_one_performance_witness :
  reconstructAll anomalyRows = reconstructSingle anomalyRows.
Proof.
  apply (aggregate_of_one_performance anomalyRows "recP").
  - intros row Hrow. unfold anomalyRows in Hrow.
    apply elem_of_cons in Hrow as [->|Hrow]; [by eexists|].
    apply list_elem_of_singleton in Hrow as ->. by eexists.
  - intros row Hrow. unfold anomalyRows in Hrow.
    apply elem_of_cons in Hrow as [->|Hrow]; [reflexivity|].
    apply list_elem_of_singleton in Hrow as ->. reflexivity.
Defined.

(** ** Each point is a running maximum *)

Section running_max.

Variable f : entry -> Z.
Hypothesis f_zero : f zeroEntry = 0.
Hypothesis f_max : forall a b, f (maxEntry a b) = Z.max (f a) (f b).



End running_max.


(** ** Period statistics of a reconstructed series *)

Lemma foldl_addEntry_mono {B} (g h : B -> entry) (l : list B) (s s' : entry) :
  entry_le s s' -> (forall x, entry_le (g x) (h x)) ->
  entry_le (foldl addEntry s (g <$> l)) (foldl addEntry s' (h <$> l)).
Proof.
  revert s s'. induction l as [|x l IH]; intros s s' Hs Hgh; [done|].
  simpl. apply IH; [|done]. specialize (Hgh x).
  unfold entry_le, addEntry in *. simpl. lia.
Qed.

Lemma foldl_addEntry_nonneg {B} (h : B -> entry) (l : list B) (s : entry) :
  entry_le zeroEntry s -> (forall x, entry_le zeroEntry (h x)) ->
  entry_le zeroEntry (foldl addEntry s (h <$> l)).
Proof.
  revert s. induction l as [|x l IH]; intros s Hs Hh; [done|].
  simpl. apply IH; [|done]. specialize (Hh x).
  unfold entry_le, addEntry, zeroEntry in *. simpl in *. lia.
Qed.

Lemma reconstructSingle_cumulative (data : list rawRow) : cumulative (reconstructSingle data).
Proof.
  destruct (dated_or_degenerate data) as [[Hne Hdated]|[->|Hin]].
  2:{ split; [by intros p ?%elem_of_nil|by intros i j p q _ ?]. }
  2:{ rewrite reconstructSingle_undated by done.
      split; [by intros p ?%elem_of_nil|by intros i j p q _ ?]. }
  destruct (reconstructSingle_closed data Hne Hdated)
    as (lo & hi & _ & _ & _ & Hlen & Hlook).
  assert (Hpt : forall k p, reconstructSingle data !! k = Some p ->
            pointEntry p = carryOver (indexByDay data) lo (S k) zeroEntry).
  { intros k p Hk. rewrite Hlook in Hk.
    - simplify_eq. apply pointEntry_mkPoint.
    - rewrite <-Hlen. by eapply lookup_lt_Some. }
  split.
  - intros p (k & Hk)%list_elem_of_lookup. rewrite (Hpt k p Hk). apply carryOver_le.
  - intros i j p q Hij Hi Hj. rewrite (Hpt i p Hi), (Hpt j q Hj).
    apply carryOver_mono. lia.
Qed.

Lemma reconstructAll_cumulative (data : list rawRow) :
  (forall row, row ∈ data -> is_Some (date row)) -> cumulative (reconstructAll data).
Proof.
  intros Hdated. destruct (decide (data = [])) as [->|Hne].
  { split; [by intros p ?%elem_of_nil|by intros i j p q _ ?]. }
  destruct (reconstructAll_closed data Hne Hdated)
    as (lo & hi & _ & _ & _ & Hlen & Hlook).
  assert (Hpt : forall k p, reconstructAll data !! k = Some p ->
            pointEntry p
            = sumEntries ((fun rid => carryOver (indexByDay (rowsOf rid data)) lo (S k) zeroEntry)
                            <$> recordIdsOf data)).
  { intros k p Hk. rewrite Hlook in Hk.
    - simplify_eq. apply pointEntry_mkPoint.
    - rewrite <-Hlen. by eapply lookup_lt_Some. }
  split.
  - intros p (k & Hk)%list_elem_of_lookup. rewrite (Hpt k p Hk).
    apply foldl_addEntry_nonneg; [apply entry_le_refl|]. intros rid. apply carryOver_le.
  - intros i j p q Hij Hi Hj. rewrite (Hpt i p Hi), (Hpt j q Hj).
    apply foldl_addEntry_mono; [apply entry_le_refl|]. intros rid.
    apply carryOver_mono. lia.
Qed.

Lemma elem_of_refsOf (series : list point) (i : nat) (p : point) :
  (i, p) ∈ refsOf series <-> series !! i = Some p.
Proof.
  unfold refsOf. rewrite elem_of_lookup_imap. split.
  - intros (j & q & ? & ?). by simplify_eq.
  - intros ?. by exists i, p.
Qed.

(** The references kept by a filter come in increasing position. *)
Lemma refs_filter_ends (P : nat * point -> Prop) `{!forall x, Decision (P x)}
    (series : list point) (a b : nat * point) :
  head (filter P (refsOf series)) = Some a ->
  last (filter P (refsOf series)) = Some b ->
  (a.1 <= b.1)%nat /\ series !! a.1 = Some a.2 /\ series !! b.1 = Some b.2.
Proof.
  revert a b. induction series as [|x series IH] using rev_ind; intros a b; [done|].
  assert (Hx : (series ++ [x]) !! length series = Some x).
  { rewrite lookup_app_r, Nat.sub_diag by lia. done. }
  unfold refsOf in *. rewrite imap_app, filter_app. simpl. rewrite Nat.add_0_r.
  rewrite filter_cons, filter_nil. destruct (decide (P _)) as [HP|HP].
  - rewrite last_snoc. intros Ha Hb. simplify_eq. simpl.
    destruct (filter P (imap (fun i p => (i, p)) series)) as [|c rest] eqn:Hf.
    + simpl in Ha. simplify_eq. simpl. done.
    + simpl in Ha. simplify_eq.
      assert (a ∈ filter P (imap (fun i p => (i, p)) series)) as Hin by (rewrite Hf; left).
      apply list_elem_of_filter in Hin as [_ Hin]. destruct a as [i p].
      apply (elem_of_refsOf series) in Hin. simpl.
      pose proof (lookup_lt_Some _ _ _ Hin).
      split_and!; [lia|by rewrite lookup_app_l by lia|done].
  - rewrite app_nil_r. intros Ha Hb. destruct (IH a b Ha Hb) as (Hle & Hla & Hlb).
    split_and!; [done|by apply lookup_app_l_Some|by apply lookup_app_l_Some].
Qed.

Lemma periodStats_cumulative (series : list point) (dateFrom dateTo : option Z) (s : stats) :
  cumulative series ->
  periodStats series (filteredSalesData series dateFrom dateTo) = Some s ->
  0 <= ventesInPeriod s /\ 0 <= revenusInPeriod s.
Proof.
  intros [Hnonneg Hmono]. rewrite filteredSalesData_inRange. unfold periodStats.
  destruct (head _) as [a|] eqn:Ha; [|done].
  destruct (last _) as [b|] eqn:Hb; [|done].
  destruct (refs_filter_ends _ series a b Ha Hb) as (Hle & Hla & Hlb).
  intros [= <-]. simpl.
  assert (entry_le (pointEntry
            (if bool_decide (0 < a.1)%nat
             then default zeroPoint (series !! (a.1 - 1)%nat) else zeroPoint))
            (pointEntry b.2)) as Hbase.
  { case_bool_decide.
    - destruct (series !! (a.1 - 1)%nat) as [base|] eqn:Hbase.
      + simpl. apply (Hmono (a.1 - 1)%nat b.1); [lia|done|done].
      + apply lookup_ge_None in Hbase. apply lookup_lt_Some in Hla. lia.
    - apply Hnonneg. by eapply list_elem_of_lookup_2. }
  unfold entry_le in Hbase. simpl in Hbase. lia.
Qed.

(** X4. Whatever the rows fetched (dated, in aggregate mode) and whatever
    the date range, the period statistics computed over the reconstructed
    series are never negative: the sign [+] that the page prints before
    them is always right. *)
Theorem period_statistics_nonnegative (isAll : bool) (data : list rawRow)
    (dateFrom dateTo : option Z) (s : stats) :
  (isAll = true -> forall row, row ∈ data -> is_Some (date row)) ->
  periodStats (reconstruct isAll data)
    (filteredSalesData (reconstruct isAll data) dateFrom dateTo) = Some s ->
  0 <= ventesInPeriod s /\ 0 <= revenusInPeriod s.
Proof.
  intros Hdated. apply periodStats_cumulative.
  destruct isAll; [by apply reconstructAll_cumulative, Hdated|].
  apply reconstructSingle_cumulative.
Qed.

Lemma period_statistics_nonnegative_witness :
  periodStats (reconstruct true twoPerformances)
    (filteredSalesData (reconstruct true twoPerformances) (Some 2) None)
  = Some (Stats 5 0)
  /\ 0 <= 5 /\ 0 <= 0.
Proof.
  split; [reflexivity|].
  apply (period_statistics_nonnegative true twoPerformances (Some 2) None (Stats 5 0)).
  - intros _ row Hrow. unfold twoPerformances in Hrow.
    repeat (apply elem_of_cons in Hrow as [->|Hrow]; [by eexists|]).
    by apply elem_of_nil in Hrow.
  - reflexivity.
Defined.

(** ** The fetch effect, from selection to display *)

Lemma run_app w evs1 evs2 : run w (evs1 ++ evs2) = run (run w evs1) evs2.
Proof. unfold run. apply foldl_app. Qed.

Lemma step_respond_running w i f resp :
  fetches w !! i = Some f -> running f = true ->
  step w (Respond i resp)
  = World (resume (ui w) f resp).1 (<[i := (resume (ui w) f resp).2]> (fetches w)).
Proof. intros Hi Hrun. unfold step. by rewrite Hi, Hrun. Qed.

(** Full pages read by a closure that is not cancelled only accumulate:
    the component state is left as it is. *)
Lemma answers_full w i f pages :
  fetches w !! i = Some f -> running f = true -> didCancel f = false ->
  Forall (fun page => (pageSize <= length page)%nat) pages ->
  run w (answers i pages)
  = World (ui w)
      (<[i := Fetch (cacheKey f) (isAllMode f) (data f ++ concat pages)
                    (offset f + length pages * pageSize)%nat false true]> (fetches w)).
Proof.
  intros Hi Hrun Hflag Hfull. revert w f Hi Hrun Hflag.
  induction Hfull as [|page pages Hpage _ IH]; intros w f Hi Hrun Hflag.
  - simpl. rewrite app_nil_r, Nat.add_0_r. destruct w as [v fs], f as [k m d o c r].
    simpl in *. subst. by rewrite list_insert_id.
  - unfold answers. rewrite fmap_cons, run_cons. fold (answers i pages).
    rewrite (step_respond_running w i f) by done.
    assert (resume (ui w) f (RespOk page)
            = (ui w, Fetch (cacheKey f) (isAllMode f) (data f ++ page)
                           (offset f + pageSize)%nat false true)) as ->.
    { unfold resume, pageTurn. cbv beta in Hpage.
      rewrite bool_decide_false by lia. by rewrite Hflag. }
    cbn [fst snd]. erewrite IH; [|apply list_lookup_insert_eq; by eapply lookup_lt_Some|done|done].
    cbn [ui fetches cacheKey isAllMode data offset]. rewrite list_insert_insert_eq.
    do 3 f_equal; [by rewrite <-app_assoc|cbn [length]; lia].
Qed.

Lemma runEffect_miss w selectedRepId allRepIds :
  (selectedRepId = None -> allRepIds <> "") ->
  cache (ui w) !! cacheKeyOf selectedRepId allRepIds = None ->
  runEffect w true selectedRepId allRepIds
  = World (View (salesData (ui w)) true None (cache (ui w)))
          (cleanup (fetches w)
             ++ [Fetch (cacheKeyOf selectedRepId allRepIds)
                       (bool_decide (selectedRepId = None)) [] 0 false true]).
Proof.
  intros Hids Hmiss. unfold runEffect. simpl.
  destruct selectedRepId as [rep|]; simpl in *.
  - by rewrite Hmiss.
  - rewrite bool_decide_false by auto. by rewrite Hmiss.
Qed.

Lemma runEffect_hit w selectedRepId allRepIds series :
  (selectedRepId = None -> allRepIds <> "") ->
  cache (ui w) !! cacheKeyOf selectedRepId allRepIds = Some series ->
  runEffect w true selectedRepId allRepIds
  = World (View series false (error (ui w)) (cache (ui w)))
          (cleanup (fetches w)
             ++ [Fetch (cacheKeyOf selectedRepId allRepIds)
                       (bool_decide (selectedRepId = None)) [] 0 false false]).
Proof.
  intros Hids Hhit. unfold runEffect. simpl.
  destruct selectedRepId as [rep|]; simpl in *.
  - by rewrite Hhit.
  - rewrite bool_decide_false by auto. by rewrite Hhit.
Qed.

(** The state reached when a selection missed the cache and [pages], all
    full, have been read since. *)
Lemma select_then_full_pages w selectedRepId allRepIds pages :
  (selectedRepId = None -> allRepIds <> "") ->
  cache (ui w) !! cacheKeyOf selectedRepId allRepIds = None ->
  Forall (fun page => (pageSize <= length page)%nat) pages ->
  run w (Select true selectedRepId allRepIds :: answers (length (fetches w)) pages)
  = World (View (salesData (ui w)) true None (cache (ui w)))
          (cleanup (fetches w)
             ++ [Fetch (cacheKeyOf selectedRepId allRepIds)
                       (bool_decide (selectedRepId = None)) (concat pages)
                       (length pages * pageSize)%nat false true]).
Proof.
  intros Hids Hmiss Hfull. rewrite run_cons. cbn [step].
  rewrite runEffect_miss by done.
  set (f := Fetch (cacheKeyOf selectedRepId allRepIds)
                  (bool_decide (selectedRepId = None)) [] 0 false true).
  rewrite (answers_full _ (length (fetches w)) f pages); [|  |done|done|done].
  - cbn [ui fetches cacheKey isAllMode data offset f]. f_equal.
    rewrite <-(cleanup_length (fetches w)), insert_app_r_alt, Nat.sub_diag by lia. done.
  - cbn [fetches]. rewrite lookup_app_r by (rewrite cleanup_length; lia).
    rewrite cleanup_length, Nat.sub_diag. done.
Qed.

Lemma answers_snoc i pages page :
  answers i (pages ++ [page]) = answers i pages ++ [Respond i (RespOk page)].
Proof. unfold answers. by rewrite fmap_app. Qed.

(** The closure started by the selection is the last one. *)
Lemma lookup_started (fs : list fetch) (f : fetch) :
  (cleanup fs ++ [f]) !! length fs = Some f.
Proof.
  rewrite lookup_app_r by (rewrite cleanup_length; lia).
  by rewrite cleanup_length, Nat.sub_diag.
Qed.

(** X5. A selection that misses the cache shows the spinner while full
    pages arrive, and when the short page arrives, with no change of
    selection in between, the component holds the series reconstructed
    from all the rows of all the pages in order, with [loading] off and no
    error, and the cache holds that series under the key of the selection,
    its other entries unchanged. *)
Theorem fetched_pages_are_shown_and_cached (w : world) (selectedRepId : option string)
    (allRepIds : string) (pages : list (list rawRow)) (lastPage : list rawRow) :
  (selectedRepId = None -> allRepIds <> "") ->
  cache (ui w) !! cacheKeyOf selectedRepId allRepIds = None ->
  Forall (fun page => (pageSize <= length page)%nat) pages ->
  (length lastPage < pageSize)%nat ->
  let i := length (fetches w) in
  let key := cacheKeyOf selectedRepId allRepIds in
  let series := reconstruct (bool_decide (selectedRepId = None)) (concat pages ++ lastPage) in
  (forall k, chartContent
               (ui (run w (Select true selectedRepId allRepIds :: answers i (take k pages))))
             = Spinner) /\
  ui (run w (Select true selectedRepId allRepIds :: answers i (pages ++ [lastPage])))
  = View series false None (<[key := series]> (cache (ui w))).
Proof.
  intros Hids Hmiss Hfull Hshort i key series. split.
  - intros k. subst i. rewrite select_then_full_pages; [done|done|done|].
    by apply Forall_take.
  - subst i. rewrite answers_snoc, app_comm_cons, run_app.
    rewrite select_then_full_pages by done.
    unfold run. cbn [foldl].
    erewrite step_respond_running; [|apply lookup_started|done].
    unfold resume, pageTurn. cbn [ui fetches cacheKey isAllMode data offset didCancel].
    rewrite bool_decide_true by done. done.
Qed.

Lemma fetched_pages_are_shown_and_cached_witness :
  ui (run initial (Select true (Some "recP") "recP"
                     :: answers 0 ([] ++ [anomalyRows])))
  = View (reconstruct false anomalyRows) false None
         (<["recP" := reconstruct false anomalyRows]> ∅).
Proof.
  apply (fetched_pages_are_shown_and_cached initial (Some "recP") "recP" [] anomalyRows).
  - discriminate.
  - reflexivity.
  - constructor.
  - unfold pageSize, anomalyRows. simpl. lia.
Defined.

(** X6. When a request of the fetch fails after any number of full pages,
    with no change of selection in between, the rows read so far are
    dropped: the component keeps the series it showed before the
    selection, the cache is left as it was, and the page shows the message
    of the error. *)
Theorem failed_fetch_shows_error_only (w : world) (selectedRepId : option string)
    (allRepIds : string) (pages : list (list rawRow)) (msg : string) :
  (selectedRepId = None -> allRepIds <> "") ->
  cache (ui w) !! cacheKeyOf selectedRepId allRepIds = None ->
  Forall (fun page => (pageSize <= length page)%nat) pages ->
  let i := length (fetches w) in
  let w' := run w (Select true selectedRepId allRepIds
                     :: answers i pages ++ [Respond i (RespErr msg)]) in
  ui w' = View (salesData (ui w)) false (Some msg) (cache (ui w))
  /\ chartContent (ui w') = ErrorMessage msg.
Proof.
  intros Hids Hmiss Hfull i w'.
  assert (ui w' = View (salesData (ui w)) false (Some msg) (cache (ui w))) as Hui.
  { subst w' i. rewrite app_comm_cons, run_app.
    rewrite select_then_full_pages by done.
    unfold run. cbn [foldl].
    erewrite step_respond_running; [|apply lookup_started|done].
    done. }
  by rewrite Hui.
Qed.

Lemma failed_fetch_shows_error_only_witness :
  ui (run initial (Select true None "recA,recB"
                     :: answers 0 [] ++ [Respond 0 (RespErr "HTTP 500")]))
  = View [] false (Some "HTTP 500") ∅
  /\ chartContent (ui (run initial (Select true None "recA,recB"
                                      :: answers 0 [] ++ [Respond 0 (RespErr "HTTP 500")])))
     = ErrorMessage "HTTP 500".
Proof.
  apply (failed_fetch_shows_error_only initial None "recA,recB" [] "HTTP 500").
  - discriminate.
  - reflexivity.
  - constructor.
Defined.

(** ** The cache *)

Lemma last_insert_ne {A} (l : list A) (i : nat) (x : A) :
  S i <> length l -> last (<[i := x]> l) = last l.
Proof.
  intros Hi. destruct l as [|y l]; [done|].
  rewrite !last_lookup, length_insert.
  apply list_lookup_insert_ne. simpl in *. lia.
Qed.

Lemma last_cleanup (fs : list fetch) : last (cleanup fs) = cancelFetch <$> last fs.
Proof.
  rewrite !last_lookup, cleanup_length, cleanup_lookup.
  destruct fs as [|f fs]; [done|]. simpl. by rewrite decide_True by done.
Qed.

(** The last closure of a response step: the one before, or its
    continuation when the response was addressed to it. *)
Lemma last_step_respond w i resp :
  last (fetches (step w (Respond i resp)))
  = if decide (S i = length (fetches w)) then
      match last (fetches w) with
      | Some f => Some (if running f then (resume (ui w) f resp).2 else f)
      | None => None
      end
    else last (fetches w).
Proof.
  unfold step. destruct (fetches w !! i) as [f|] eqn:Hf.
  - destruct (running f) eqn:Hrun.
    + cbn [fetches]. case_decide as Hi; [|by apply last_insert_ne].
      rewrite (last_lookup (fetches w)), <-Hi. simpl. rewrite Hf, Hrun.
      rewrite last_lookup, length_insert, <-Hi. simpl.
      apply list_lookup_insert_eq. by eapply lookup_lt_Some.
    + case_decide as Hi; [|done].
      rewrite !last_lookup, <-Hi. simpl. by rewrite Hf, Hrun.
  - case_decide as Hi; [|done].
    rewrite !last_lookup, <-Hi. simpl. by rewrite Hf.
Qed.

(** With no closure left to write, responses change nothing on screen. *)
Lemma idle_run w (rs : list (nat * response)) :
  superseded (fetches w) ->
  (forall f, last (fetches w) = Some f -> running f = false) ->
  ui (run w (respond <$> rs)) = ui w.
Proof.
  revert w. induction rs as [|[i resp] rs IH]; intros w Hsup Hidle; [done|].
  rewrite fmap_cons, run_cons. change (respond (i, resp)) with (Respond i resp).
  assert (ui (step w (Respond i resp)) = ui w) as Hui.
  { destruct (decide (S i = length (fetches w))) as [Hi|Hi]; [|by apply step_stale].
    unfold step. destruct (fetches w !! i) as [f|] eqn:Hf; [|done].
    rewrite (Hidle f); [done|]. rewrite last_lookup, <-Hi. done. }
  rewrite IH, Hui; [done|by apply step_superseded|].
  intros f. rewrite last_step_respond. case_decide; [|apply Hidle].
  destruct (last (fetches w)) as [f0|] eqn:Hlast; [|done].
  rewrite (Hidle f0) by done. intros [= <-]. by apply Hidle.
Qed.

(** X7. Selecting a performance (or the total) whose series is in the
    cache shows the cached series at once and starts no request: whatever
    responses arrive afterwards, the component keeps that series.  The
    error left by an earlier failed fetch is not cleared on this path. *)
Theorem cached_series_is_served_without_request (pre : list event)
    (selectedRepId : option string) (allRepIds : string) (series : list point)
    (rs : list (nat * response)) :
  let w := run initial pre in
  (selectedRepId = None -> allRepIds <> "") ->
  cache (ui w) !! cacheKeyOf selectedRepId allRepIds = Some series ->
  ui (run w (Select true selectedRepId allRepIds :: (respond <$> rs)))
  = View series false (error (ui w)) (cache (ui w)).
Proof.
  intros w Hids Hhit. rewrite run_cons.
  assert (superseded (fetches w)) as Hsup.
  { apply run_superseded, initial_superseded. }
  rewrite idle_run.
  - cbn [step]. by rewrite (runEffect_hit w selectedRepId allRepIds series).
  - by apply step_superseded.
  - cbn [step]. rewrite (runEffect_hit w selectedRepId allRepIds series) by done.
    cbn [fetches]. intros f. rewrite last_snoc. by intros [= <-].
Qed.

Lemma cached_series_is_served_without_request_witness :
  ui (run (run initial [Select true (Some "recP") "recP"; Respond 0 (RespOk anomalyRows);
                        Select true None "recP"])
          (Select true (Some "recP") "recP" :: (respond <$> [(1%nat, RespOk rowsP1)])))
  = View (reconstruct false anomalyRows) false None
         (<["recP" := reconstruct false anomalyRows]> ∅).
Proof.
  apply (cached_series_is_served_without_request
           [Select true (Some "recP") "recP"; Respond 0 (RespOk anomalyRows);
            Select true None "recP"]
           (Some "recP") "recP" (reconstruct false anomalyRows) [(1%nat, RespOk rowsP1)]).
  - discriminate.
  - reflexivity.
Defined.

(** The two invariants of the states reached from the initial one, and
    what a step does to the cache when they hold. *)
Lemma step_pendingMiss w e :
  superseded (fetches w) -> pendingMiss w -> pendingMiss (step w e).
Proof.
  intros Hsup Hinv. destruct e as [configured selectedRepId allRepIds|i resp].
  - cbn [step]. unfold runEffect. intros f.
    destruct configured; cbn [negb].
    2:{ cbn [fetches]. rewrite last_cleanup.
        destruct (last (fetches w)); [|done]. by intros [= <-]. }
    destruct (_ && _).
    { cbn [fetches]. rewrite last_cleanup.
      destruct (last (fetches w)); [|done]. by intros [= <-]. }
    destruct (cache (ui w) !! _) eqn:Hc; cbn [fetches ui cache]; rewrite last_snoc.
    + by intros [= <-].
    + intros [= <-]. done.
  - intros f'. rewrite last_step_respond. case_decide as Hi; [|].
    + destruct (last (fetches w)) as [f|] eqn:Hlast; [|done].
      assert (fetches w !! i = Some f) as Hf by (by rewrite last_lookup, <-Hi in Hlast).
      destruct (running f) eqn:Hrun.
      * intros [= <-]. rewrite (step_respond_running w i f resp Hf Hrun).
        cbn [ui]. unfold resume.
        destruct (pageTurn _ _ _ _) eqn:Hturn; cbn [fst snd running]; try done.
        -- intros _. cbn [didCancel cacheKey]. by apply Hinv.
        -- by destruct (didCancel f).
        -- by destruct (didCancel f).
      * intros [= <-] ?. congruence.
    + intros Hlast. rewrite step_stale by done. by apply Hinv.
Qed.

Lemma step_cache_kept w e key series :
  superseded (fetches w) -> pendingMiss w ->
  cache (ui w) !! key = Some series -> cache (ui (step w e)) !! key = Some series.
Proof.
  intros Hsup Hinv Hkey. destruct e as [configured selectedRepId allRepIds|i resp].
  - cbn [step]. unfold runEffect.
    destruct configured; cbn [negb]; [|done].
    destruct (_ && _); [done|]. by destruct (cache (ui w) !! match selectedRepId with Some _ => _ | None => _ end).
  - destruct (decide (S i = length (fetches w))) as [Hi|Hi]; [|by rewrite step_stale].
    unfold step. destruct (fetches w !! i) as [f|] eqn:Hf; [|done].
    destruct (running f) eqn:Hrun; [|done]. cbn [ui]. unfold resume.
    destruct (pageTurn _ _ _ _); cbn [fst]; try done.
    + destruct (didCancel f) eqn:Hflag; [done|]. cbn [fst cache].
      rewrite lookup_insert_ne; [done|]. intros <-.
      rewrite Hinv in Hkey; [done| |done|done].
      by rewrite last_lookup, <-Hi.
    + by destruct (didCancel f).
Qed.

Lemma initial_pendingMiss : pendingMiss initial.
Proof. by intros f. Qed.

Lemma run_pendingMiss w evs :
  superseded (fetches w) -> pendingMiss w -> pendingMiss (run w evs).
Proof.
  revert w. induction evs as [|e evs IH]; intros w Hsup Hinv; [done|].
  rewrite run_cons. apply IH; [by apply step_superseded|by apply step_pendingMiss].
Qed.

Lemma run_cache_kept w evs key series :
  superseded (fetches w) -> pendingMiss w ->
  cache (ui w) !! key = Some series -> cache (ui (run w evs)) !! key = Some series.
Proof.
  revert w. induction evs as [|e evs IH]; intros w Hsup Hinv Hkey; [done|].
  rewrite run_cons. apply IH;
    [by apply step_superseded|by apply step_pendingMiss|by apply step_cache_kept].
Qed.

(** X8. Over any sequence of selections and responses from the initial
    state, an entry of the cache, once written, is never replaced or
    removed: the series cached under a key stays the one first stored. *)
Theorem cache_entries_are_final (pre post : list event) (key : string)
    (series : list point) :
  cache (ui (run initial pre)) !! key = Some series ->
  cache (ui (run initial (pre ++ post))) !! key = Some series.
Proof.
  intros Hkey. rewrite run_app. apply run_cache_kept; [| |done].
  - apply run_superseded, initial_superseded.
  - apply run_pendingMiss; [apply initial_superseded|apply initial_pendingMiss].
Qed.

Lemma cache_entries_are_final_witness :
  cache (ui (run initial ([Select true (Some "recP") "recP"; Respond 0 (RespOk anomalyRows)]
                            ++ [Select true None "recP"; Respond 1 (RespOk rowsP1)])))
    !! "recP"
  = Some (reconstruct false anomalyRows).
Proof.
  apply (cache_entries_are_final
           [Select true (Some "recP") "recP"; Respond 0 (RespOk anomalyRows)]
           [Select true None "recP"; Respond 1 (RespOk rowsP1)]).
  reflexivity.
Defined.

(** X9. Once the selection has changed, the fetch it replaced consumes at
    most the response that was pending: after that response the closure
    has stopped, and any further response addressed to it leaves the whole
    state as it is, so no request follows the one in flight. *)
Theorem superseded_fetch_stops (pre : list event) (i : nat) (resp resp' : response) :
  let w := run initial pre in
  (S i < length (fetches w))%nat ->
  let w1 := step w (Respond i resp) in
  (forall f, fetches w1 !! i = Some f -> running f = false)
  /\ step w1 (Respond i resp') = w1.
Proof.
  intros w Hi w1.
  assert (superseded (fetches w)) as Hsup by apply run_superseded, initial_superseded.
  assert (forall f, fetches w1 !! i = Some f -> running f = false) as Hstop.
  { intros f'. subst w1. unfold step.
    destruct (fetches w !! i) as [f|] eqn:Hf; [|by rewrite Hf].
    destruct (running f) eqn:Hrun; [|rewrite Hf; by intros [= <-]].
    cbn [fetches]. rewrite list_lookup_insert_eq by lia. intros [= <-].
    unfold resume. rewrite (Hsup i f Hf Hi).
    destruct (pageTurn true _ _ _) eqn:Hturn; try done.
    apply pageTurn_continue in Hturn as (? & _ & _ & ? & _). done. }
  split; [done|].
  unfold step at 1. destruct (fetches w1 !! i) as [f|] eqn:Hf; [|done].
  by rewrite (Hstop f).
Qed.

Lemma superseded_fetch_stops_witness :
  step (step (run initial [Select true (Some "recP1") "recP1,recP2";
                           Select true (Some "recP2") "recP1,recP2"])
             (Respond 0 (RespOk (pageOfSize 1000))))
       (Respond 0 (RespOk rowsP1))
  = step (run initial [Select true (Some "recP1") "recP1,recP2";
                       Select true (Some "recP2") "recP1,recP2"])
         (Respond 0 (RespOk (pageOfSize 1000))).
Proof.
  apply (superseded_fetch_stops
           [Select true (Some "recP1") "recP1,recP2"; Select true (Some "recP2") "recP1,recP2"]
           0 (RespOk (pageOfSize 1000)) (RespOk rowsP1)).
  vm_compute. lia.
Defined.

(** ** The filters of the row-per-event grid *)

Import RoutageAView.

Local Close Scope Z_scope.

Lemma processEvent_prefilter cfg gridData event :
  processEvent cfg (weeksMapOf (weekRecords cfg)) (blocsMapOf (blocRecords cfg))
    gridData event
  = if keepsEvent cfg event
    then processEvent (withoutRecordFilters cfg) (weeksMapOf (weekRecords cfg))
           (blocsMapOf (blocRecords cfg)) gridData event
    else gridData.
Proof.
  unfold processEvent, keepsEvent.
  destruct (passes (selectedSiteId cfg) (ev_sites event)); [|done].
  destruct (passes (selectedCanalId cfg) (ev_canals event)); done.
Qed.

Lemma gridData_prefilter cfg gridData eventRecords :
  foldl (processEvent cfg (weeksMapOf (weekRecords cfg)) (blocsMapOf (blocRecords cfg)))
        gridData eventRecords
  = foldl (processEvent (withoutRecordFilters cfg) (weeksMapOf (weekRecords cfg))
             (blocsMapOf (blocRecords cfg)))
          gridData (filter (fun event => keepsEvent cfg event = true) eventRecords).
Proof.
  revert gridData. induction eventRecords as [|event eventRecords IH]; intros gridData; [done|].
  rewrite filter_cons. simpl. rewrite processEvent_prefilter.
  destruct (keepsEvent cfg event) eqn:Hkeep.
  - rewrite decide_True by done. simpl. apply IH.
  - rewrite decide_False by done. apply IH.
Qed.

(** X10. The site filter and the canal filter act on the input only: the
    grid drawn with them is the grid that the same code draws, with both
    filters on "all", from the event records that pass the two filters, an
    event passing a filter when the filter is on "all" or its cell is an
    array with a link to the selected record. *)
Theorem site_and_canal_filters_select_events (cfg : config)
    (eventRecords : list eventRecord) :
  sortedWeeks cfg eventRecords
  = sortedWeeks (withoutRecordFilters cfg)
      (filter (fun event =>
                 passes (selectedSiteId cfg) (ev_sites event) = true
                 /\ passes (selectedCanalId cfg) (ev_canals event) = true) eventRecords).
Proof.
  unfold sortedWeeks, gridDataOf. cbn [allConfigured withoutRecordFilters].
  destruct (allConfigured cfg); [|done]. cbn [negb]. do 2 f_equal.
  rewrite gridData_prefilter. cbn [weekRecords blocRecords withoutRecordFilters].
  f_equal. apply list_filter_iff. intros event. unfold keepsEvent.
  rewrite andb_true_iff. done.
Qed.

(** ** The groups of the row-per-event grid *)

Section groups.

Context (cfg : config).

#[local] Abbreviation weeksMap := (weeksMapOf (weekRecords cfg)).
#[local] Abbreviation blocsMap := (blocsMapOf (blocRecords cfg)).

Lemma groupsOk_addWeekLink row gridData weekLink :
  keyed gridData -> groupsOk cfg gridData ->
  groupsOk cfg (addWeekLink cfg weeksMap row gridData weekLink).
Proof.
  intros [_ Hkeys] Hok. unfold addWeekLink.
  destruct (_ && _); [done|].
  destruct (weeksMap !! l_id weekLink) as [info|] eqn:Hinfo; [|done].
  intros k g Hin.
  apply elem_of_upsert in Hin as [Hin|(-> & g0 & [->|Hg0] & ->)].
  - by apply (Hok k).
  - split; simpl; [done|]. rewrite Hinfo. by destruct info.
  - destruct (Hok _ _ Hg0) as [_ Hmeta]. split; simpl; [|done].
    by destruct (events g0).
Qed.

Lemma groupsOk_gridDataOf eventRecords : groupsOk cfg (gridDataOf cfg eventRecords).
Proof.
  unfold gridDataOf.
  assert (keyed [] /\ groupsOk cfg []) as Hnil.
  { split; [split; constructor|]. by intros k g ?%elem_of_nil. }
  revert Hnil. generalize (@nil (string * weekGroup)).
  induction eventRecords as [|event eventRecords IH]; intros gridData Hk; [by destruct Hk|].
  simpl. apply IH. unfold processEvent.
  destruct (negb _); [done|]. destruct (negb _); [done|].
  destruct (ev_weeks event) as [linkedWeeks|]; [|done].
  destruct (ev_blocs event) as [linkedBlocs|]; [|done].
  generalize (EventRow (ev_name event) (ev_id event) (activeDaysOf event)
                (blocNamesOf blocsMap linkedBlocs)). intros row.
  revert gridData Hk. induction linkedWeeks as [|weekLink linkedWeeks IHw];
    intros gridData Hk; [done|].
  simpl. apply IHw. destruct Hk as [Hk Hok].
  split; [by apply keyed_addWeekLink|by apply groupsOk_addWeekLink].
Qed.

End groups.

(** X11. In the row-per-event grid every week group that is drawn has at
    least one event row and carries the name, the start date and the end
    date of the week record whose identifier it bears, and no two groups
    bear the same identifier: the placeholder row for a week without event
    is never drawn. *)
Theorem week_groups_are_populated (cfg : config) (eventRecords : list eventRecord) :
  NoDup (weekId <$> sortedWeeks cfg eventRecords)
  /\ Forall (fun g =>
               events g <> []
               /\ weeksMapOf (weekRecords cfg) !! weekId g
                  = Some (WeekInfo (weekName g) (dateDebut g) (dateFin g)))
            (sortedWeeks cfg eventRecords).
Proof.
  unfold sortedWeeks. destruct (allConfigured cfg); cbn [negb].
  2:{ split; constructor. }
  pose proof (keyed_gridDataOf cfg eventRecords) as Hkeyed.
  pose proof (sortBy_Permutation dateDebut (gridDataOf cfg eventRecords).*2) as Hperm.
  split.
  - rewrite Hperm, (keyed_weekIds _ Hkeyed). by destruct Hkeyed.
  - rewrite Hperm. apply Forall_forall. intros g Hg.
    apply list_elem_of_fmap in Hg as ([k g'] & -> & Hin).
    by apply (groupsOk_gridDataOf cfg eventRecords k).
Qed.

(** ** The week filter *)

Lemma filter_none {B} (P : B -> Prop) `{!forall x, Decision (P x)} (l : list B) :
  (forall y, y ∈ l -> ~ P y) -> filter P l = [].
Proof.
  induction l as [|x l IH]; intros Hno; [done|].
  rewrite filter_cons, decide_False by (apply Hno; left).
  apply IH. intros y Hy. apply Hno. by right.
Qed.

Lemma filter_key_unique {B} (key : B -> string) (w : string) (l : list B) (g : B) :
  NoDup (key <$> l) -> g ∈ l -> key g = w -> filter (fun x => key x = w) l = [g].
Proof.
  induction l as [|x l IH]; intros Hnd Hin Hkey; [by apply elem_of_nil in Hin|].
  rewrite fmap_cons in Hnd. apply NoDup_cons in Hnd as [Hx Hnd].
  rewrite filter_cons. apply elem_of_cons in Hin as [->|Hin].
  - rewrite decide_True by done. f_equal.
    apply filter_none. intros y Hy Hyw. apply Hx.
    rewrite Hkey, <-Hyw. by apply list_elem_of_fmap_2.
  - rewrite decide_False; [by apply IH|].
    intros Hxw. apply Hx. rewrite Hxw, <-Hkey. by apply list_elem_of_fmap_2.
Qed.

Lemma filter_key_none {B} (key : B -> string) (w : string) (l : list B) :
  w ∉ key <$> l -> filter (fun x => key x = w) l = [].
Proof.
  intros Hnin. apply filter_none. intros y Hy Hyw. apply Hnin.
  rewrite <-Hyw. by apply list_elem_of_fmap_2.
Qed.

Lemma eventsOf_elem w g gridData :
  keyed gridData -> (w, g) ∈ gridData -> eventsOf w gridData = events g.
Proof. intros [Hnd _] Hin. unfold eventsOf. by rewrite (mapGet_elem w g). Qed.

Lemma eventsOf_key w gridData : eventsOf w gridData <> [] -> w ∈ gridData.*1.
Proof.
  unfold eventsOf. destruct (mapGet w gridData) as [g|] eqn:Hget; [|done].
  intros _. apply mapGet_Some in Hget. apply list_elem_of_fmap. by exists (w, g).
Qed.

Lemma rowsFor_withoutWeekFilter cfg event :
  selectedWeekId cfg <> "__all__" ->
  rowsFor (withoutWeekFilter cfg) (selectedWeekId cfg) event
  = rowsFor cfg (selectedWeekId cfg) event.
Proof.
  intros _. unfold rowsFor. cbn [selectedSiteId selectedCanalId withoutWeekFilter].
  destruct (_ && _); [|done].
  destruct (ev_weeks event) as [linkedWeeks|]; [|done].
  destruct (ev_blocs event) as [linkedBlocs|]; [|done].
  f_equal. apply list_filter_iff. intros weekLink. unfold admits.
  cbn [selectedWeekId weekRecords withoutWeekFilter].
  split; intros (Hid & _ & Hw); (split; [done|split; [|done]]); [by right|by left].
Qed.

(** Under a week filter every group of the grid is the group of the
    selected week. *)
Lemma gridData_filtered_keys cfg eventRecords k :
  selectedWeekId cfg <> "__all__" ->
  k ∈ (gridDataOf cfg eventRecords).*1 -> k = selectedWeekId cfg.
Proof.
  intros Hsel ([k' g] & -> & Hin)%list_elem_of_fmap. simpl.
  pose proof (keyed_gridDataOf cfg eventRecords) as Hkeyed.
  destruct (groupsOk_gridDataOf cfg eventRecords _ _ Hin) as [Hrows _].
  rewrite <-(eventsOf_elem k' g _ Hkeyed Hin), eventsOf_gridDataOf in Hrows.
  destruct (flat_map (rowsFor cfg k') eventRecords) as [|row rows] eqn:Hfm; [done|].
  assert (row ∈ flat_map (rowsFor cfg k') eventRecords) as Hrow by (rewrite Hfm; left).
  apply elem_of_flat_map in Hrow as (event & _ & Hrow).
  unfold rowsFor in Hrow. destruct (_ && _); [|by apply elem_of_nil in Hrow].
  destruct (ev_weeks event) as [linkedWeeks|]; [|by apply elem_of_nil in Hrow].
  destruct (ev_blocs event) as [linkedBlocs|]; [|by apply elem_of_nil in Hrow].
  apply list_elem_of_fmap in Hrow as (weekLink & _ & Hlink).
  apply list_elem_of_filter in Hlink as [(Hid & [Hall|Hw] & _) _]; congruence.
Qed.

(** X12. With a week selected in the week filter, the grid consists of
    the group of that week exactly as the unfiltered grid draws it (same
    name, dates and event rows in the same order), and of nothing at all
    when the unfiltered grid has no group for that week. *)
Theorem week_filter_selects_group (cfg : config) (eventRecords : list eventRecord) :
  selectedWeekId cfg <> "__all__" ->
  sortedWeeks cfg eventRecords
  = filter (fun g => weekId g = selectedWeekId cfg)
           (sortedWeeks (withoutWeekFilter cfg) eventRecords).
Proof.
  intros Hsel. unfold sortedWeeks. cbn [allConfigured withoutWeekFilter].
  destruct (allConfigured cfg); cbn [negb]; [|done].
  set (w := selectedWeekId cfg). set (cfg0 := withoutWeekFilter cfg).
  pose proof (keyed_gridDataOf cfg eventRecords) as Hkeyed.
  pose proof (keyed_gridDataOf cfg0 eventRecords) as Hkeyed0.
  pose proof (sortBy_Permutation dateDebut (gridDataOf cfg0 eventRecords).*2) as Hperm0.
  assert (Hrows : eventsOf w (gridDataOf cfg eventRecords)
                  = eventsOf w (gridDataOf cfg0 eventRecords)).
  { rewrite !eventsOf_gridDataOf. apply flat_map_ext. intros event.
    symmetry. by apply rowsFor_withoutWeekFilter. }
  destruct (gridDataOf cfg eventRecords) as [|[k g] rest] eqn:HG.
  - rewrite filter_key_none; [done|]. rewrite Hperm0, (keyed_weekIds _ Hkeyed0).
    intros Hin%list_elem_of_fmap. destruct Hin as ([k g0] & Hk & Hin). simpl in Hk. subst k.
    destruct (groupsOk_gridDataOf cfg0 eventRecords _ _ Hin) as [Hne _].
    rewrite <-(eventsOf_elem w g0 _ Hkeyed0 Hin), <-Hrows in Hne. done.
  - assert (((k, g) :: rest).*1 = [w]) as Hkeys.
    { apply NoDup_constant; [by destruct Hkeyed|done|].
      intros k' Hk'. apply (gridData_filtered_keys cfg eventRecords); [done|].
      by rewrite HG. }
    destruct rest as [|? ?]; [|done]. simpl in Hkeys. simplify_eq.
    pose proof (groupsOk_gridDataOf cfg eventRecords w g) as [Hne Hmeta].
    { rewrite HG. left. }
    assert (weekId g = w) as Hid.
    { destruct Hkeyed as [_ Hall]. by apply Forall_cons in Hall as [Hall _]. }
    assert (eventsOf w [(w, g)] = events g) as Hev.
    { apply eventsOf_elem; [done|left]. }
    rewrite Hev in Hrows.
    assert (w ∈ (gridDataOf cfg0 eventRecords).*1) as Hin0.
    { apply eventsOf_key. by rewrite <-Hrows. }
    apply list_elem_of_fmap in Hin0 as ([k g0] & Hk & Hin0). simpl in Hk. subst k.
    pose proof (groupsOk_gridDataOf cfg0 eventRecords w g0 Hin0) as [_ Hmeta0].
    assert (weekId g0 = w) as Hid0.
    { destruct Hkeyed0 as [_ Hall]. rewrite Forall_forall in Hall. by apply (Hall (w, g0)). }
    rewrite (eventsOf_elem w g0 _ Hkeyed0 Hin0) in Hrows.
    assert (g0 = g) as ->.
    { cbn [weekRecords withoutWeekFilter cfg0] in Hmeta0.
      rewrite Hid in Hmeta. rewrite Hid0, Hmeta in Hmeta0.
      destruct g, g0. simpl in *. by simplify_eq. }
    rewrite (filter_key_unique weekId w _ g); [done| | |done].
    + rewrite Hperm0, (keyed_weekIds _ Hkeyed0). by destruct Hkeyed0.
    + rewrite Hperm0. by apply (list_elem_of_fmap_2' snd _ (w, g) g).
Qed.

Lemma week_filter_selects_group_witness :
  sortedWeeks
    (Config true (weekRecords gridConfig) (blocRecords gridConfig) "__all__" "recW1" "__all__")
    [twoBlocEvent]
  = filter (fun g => weekId g = "recW1")
      (sortedWeeks
         (withoutWeekFilter
            (Config true (weekRecords gridConfig) (blocRecords gridConfig)
                    "__all__" "recW1" "__all__"))
         [twoBlocEvent]).
Proof.
  apply (week_filter_selects_group
           (Config true (weekRecords gridConfig) (blocRecords gridConfig)
                   "__all__" "recW1" "__all__")
           [twoBlocEvent]).
  discriminate.
Defined.

(** ** A click on a row *)

Lemma eventRecordsById_snoc eventRecords r :
  eventRecordsById (eventRecords ++ [r]) = <[ev_id r := r]> (eventRecordsById eventRecords).
Proof. unfold eventRecordsById. by rewrite foldl_app. Qed.

Lemma eventRecordsById_lookup eventRecords id :
  eventRecordsById eventRecords !! id
  = last (filter (fun r => ev_id r = id) eventRecords).
Proof.
  induction eventRecords as [|r eventRecords IH] using rev_ind; [done|].
  rewrite eventRecordsById_snoc, filter_app, filter_cons, filter_nil.
  case_decide as Hid.
  - by rewrite Hid, lookup_insert_eq, last_snoc.
  - by rewrite lookup_insert_ne, app_nil_r.
Qed.

Lemma NoDup_fmap_eq {B C} (f : B -> C) (l : list B) (x y : B) :
  NoDup (f <$> l) -> x ∈ l -> y ∈ l -> f x = f y -> x = y.
Proof.
  induction l as [|z l IH]; intros Hnd Hx Hy Hxy; [by apply elem_of_nil in Hx|].
  rewrite fmap_cons in Hnd. apply NoDup_cons in Hnd as [Hz Hnd].
  apply elem_of_cons in Hx as [->|Hx]; apply elem_of_cons in Hy as [->|Hy].
  - done.
  - destruct Hz. rewrite Hxy. by apply list_elem_of_fmap_2.
  - destruct Hz. rewrite <-Hxy. by apply list_elem_of_fmap_2.
  - by apply IH.
Qed.

(** X13. A click on any row of the grid finds an event record bearing the
    identifier of the row, and hands it to [expandRecord] when records may
    be expanded; when the identifiers of the event records are distinct,
    that record is the one whose name, days and blocs the row shows.
    Without the permission to expand, a click does nothing. *)
Theorem row_click_opens_its_event (cfg : config) (eventRecords : list eventRecord)
    (g : weekGroup) (row : eventRow) :
  g ∈ sortedWeeks cfg eventRecords -> row ∈ events g ->
  handleRowClick false eventRecords (eventId row) = None
  /\ exists event,
       handleRowClick true eventRecords (eventId row) = Some event
       /\ event ∈ eventRecords /\ ev_id event = eventId row
       /\ (NoDup (ev_id <$> eventRecords) ->
           exists linkedBlocs,
             ev_blocs event = Some linkedBlocs /\ row = rowOf cfg event linkedBlocs).
Proof.
  intros Hg Hrow. split; [done|].
  destruct (rowA_source cfg eventRecords g row Hg Hrow)
    as (_ & event0 & linkedWeeks & linkedBlocs & _ & Hin0 & _ & Hblocs & _ & _ & ->).
  unfold handleRowClick. cbn [negb]. rewrite eventRecordsById_lookup.
  destruct (last (filter (fun r => ev_id r = eventId (rowOf cfg event0 linkedBlocs))
                         eventRecords)) as [event|] eqn:Hlast.
  - apply last_Some_elem_of, list_elem_of_filter in Hlast as [Hid Hin].
    exists event. split_and!; [done|done|done|].
    intros Hnd. assert (event = event0) as ->.
    { by apply (NoDup_fmap_eq ev_id eventRecords). }
    by exists linkedBlocs.
  - apply last_None in Hlast.
    assert (event0 ∈ filter (fun r => ev_id r = eventId (rowOf cfg event0 linkedBlocs))
                            eventRecords) as Hin.
    { by apply list_elem_of_filter. }
    rewrite Hlast in Hin. by apply elem_of_nil in Hin.
Qed.

Lemma row_click_opens_its_event_witness :
  handleRowClick false [twoBlocEvent] "recE1" = None
  /\ exists event,
       handleRowClick true [twoBlocEvent] "recE1" = Some event
       /\ event ∈ [twoBlocEvent] /\ ev_id event = "recE1"
       /\ (NoDup (ev_id <$> [twoBlocEvent]) ->
           exists linkedBlocs,
             ev_blocs event = Some linkedBlocs
             /\ EventRow "Montage" "recE1" {["D"]} {["am"; "pm"]}
                = rowOf gridConfig event linkedBlocs).
Proof.
  apply (row_click_opens_its_event gridConfig [twoBlocEvent]
           (WeekGroup "recW1" "Semaine 1" (Some (19723 * 86400000)%Z) None
              [EventRow "Montage" "recE1" {["D"]} {["am"; "pm"]}])
           (EventRow "Montage" "recE1" {["D"]} {["am"; "pm"]})).
  - vm_compute. left.
  - left.
Defined.

(** ** Stacks of the cross-product grid *)

Module CrossProductView.

Import RoutageB RoutageBView.

Section stacks.

Context (cfg : config).

#[local] Abbreviation weeksMapB := (weeksMapOf (weekRecords cfg)).
#[local] Abbreviation blocsMapB := (blocsMapOf (blocRecords cfg)).

Lemma blocStack_addBlocLink row entry blocLink blocName :
  blocStack blocName (addBlocLink blocsMapB row entry blocLink)
  = blocStack blocName entry
    ++ (if decide (toBloc cfg blocName blocLink) then [row] else []).
Proof.
  unfold addBlocLink, blocStack.
  destruct (blocsMapB !! l_id blocLink) as [name|] eqn:Hname.
  - cbn [blocs]. destruct (decide (name = blocName)) as [->|Hne].
    + rewrite decide_True by done. by rewrite mapGet_upsert_eq.
    + rewrite decide_False by (unfold toBloc; congruence).
      rewrite mapGet_upsert_ne by done. by rewrite app_nil_r.
  - rewrite decide_False by (unfold toBloc; congruence). by rewrite app_nil_r.
Qed.

Lemma blocStack_linkedBlocs row entry linkedBlocs blocName :
  blocStack blocName (foldl (addBlocLink blocsMapB row) entry linkedBlocs)
  = blocStack blocName entry
    ++ ((fun _ => row) <$> filter (toBloc cfg blocName) linkedBlocs).
Proof.
  revert entry. induction linkedBlocs as [|blocLink linkedBlocs IH]; intros entry.
  - by rewrite app_nil_r.
  - simpl. rewrite IH, blocStack_addBlocLink, filter_cons.
    case_decide; simpl; by rewrite <-app_assoc.
Qed.

Lemma stackOf_addWeekLink row linkedBlocs gridData weekLink w blocName :
  stackOf w blocName (addWeekLink weeksMapB blocsMapB row linkedBlocs gridData weekLink)
  = stackOf w blocName gridData
    ++ (if decide (toWeek cfg w weekLink)
        then (fun _ => row) <$> filter (toBloc cfg blocName) linkedBlocs else []).
Proof.
  unfold addWeekLink, stackOf.
  destruct (weeksMapB !! l_id weekLink) as [info|] eqn:Hinfo.
  - destruct (decide (l_id weekLink = w)) as [<-|Hne].
    + rewrite decide_True by (split; [done|by rewrite Hinfo]).
      rewrite mapGet_upsert_eq. cbn [from_option]. rewrite blocStack_linkedBlocs.
      f_equal. by destruct (mapGet (l_id weekLink) gridData).
    + rewrite decide_False by (by intros [? _]).
      rewrite mapGet_upsert_ne by done. by rewrite app_nil_r.
  - rewrite decide_False; [by rewrite app_nil_r|].
    intros [<- Hsome]. rewrite Hinfo in Hsome. by destruct Hsome.
Qed.

Lemma stackOf_linkedWeeks row linkedBlocs gridData linkedWeeks w blocName :
  stackOf w blocName
    (foldl (addWeekLink weeksMapB blocsMapB row linkedBlocs) gridData linkedWeeks)
  = stackOf w blocName gridData
    ++ flat_map (fun _ => (fun _ => row) <$> filter (toBloc cfg blocName) linkedBlocs)
                (filter (toWeek cfg w) linkedWeeks).
Proof.
  revert gridData. induction linkedWeeks as [|weekLink linkedWeeks IH]; intros gridData.
  - by rewrite app_nil_r.
  - simpl. rewrite IH, stackOf_addWeekLink, filter_cons.
    case_decide; simpl; by rewrite <-?app_assoc, ?app_nil_r.
Qed.

Lemma stackOf_processEvent gridData event w blocName :
  stackOf w blocName (processEvent weeksMapB blocsMapB gridData event)
  = stackOf w blocName gridData ++ rowsUnder cfg w blocName event.
Proof.
  unfold processEvent, rowsUnder.
  destruct (ev_weeks event) as [linkedWeeks|]; [|by rewrite app_nil_r].
  destruct (ev_blocs event) as [linkedBlocs|]; [|by rewrite app_nil_r].
  apply stackOf_linkedWeeks.
Qed.

Lemma stackOf_foldl gridData eventRecords w blocName :
  stackOf w blocName (foldl (processEvent weeksMapB blocsMapB) gridData eventRecords)
  = stackOf w blocName gridData ++ flat_map (rowsUnder cfg w blocName) eventRecords.
Proof.
  revert gridData. induction eventRecords as [|event eventRecords IH]; intros gridData.
  - by rewrite app_nil_r.
  - simpl. by rewrite IH, stackOf_processEvent, <-app_assoc.
Qed.

(** The keys of the grid: a week link adds its week when the week is a
    record of the weeks table. *)
Lemma keys_addWeekLink row linkedBlocs gridData weekLink w :
  w ∈ (addWeekLink weeksMapB blocsMapB row linkedBlocs gridData weekLink).*1
  <-> w ∈ gridData.*1 \/ toWeek cfg w weekLink.
Proof.
  unfold addWeekLink, toWeek.
  destruct (weeksMapB !! l_id weekLink) as [info|] eqn:Hinfo.
  - rewrite upsert_keys. case_decide as Hin.
    + split; [by left|]. intros [?|[<- _]]; done.
    + rewrite elem_of_app, list_elem_of_singleton. split.
      * intros [?| ->]; [by left|right]. split; [done|by rewrite Hinfo].
      * intros [?|[<- _]]; [by left|by right].
  - split; [by left|]. intros [?|[<- Hsome]]; [done|].
    rewrite Hinfo in Hsome. by destruct Hsome.
Qed.

Lemma NoDup_addWeekLink row linkedBlocs gridData weekLink :
  NoDup gridData.*1 ->
  NoDup (addWeekLink weeksMapB blocsMapB row linkedBlocs gridData weekLink).*1.
Proof.
  intros Hnd. unfold addWeekLink.
  destruct (weeksMapB !! l_id weekLink); [by apply upsert_NoDup|done].
Qed.

Lemma keys_processEvent gridData event w :
  w ∈ (processEvent weeksMapB blocsMapB gridData event).*1
  <-> w ∈ gridData.*1 \/ reachesWeek cfg w event.
Proof.
  unfold processEvent, reachesWeek.
  destruct (ev_weeks event) as [linkedWeeks|].
  2:{ split; [by left|]. by intros [?|(? & ? & ? & ? & _)]. }
  destruct (ev_blocs event) as [linkedBlocs|].
  2:{ split; [by left|]. by intros [?|(? & ? & ? & _ & ? & _)]. }
  generalize (EventRow (ev_name event) (activeDaysOf event)). intros row.
  assert (forall todo gridData,
            w ∈ (foldl (addWeekLink weeksMapB blocsMapB row linkedBlocs) gridData todo).*1
            <-> w ∈ gridData.*1 \/ exists weekLink, weekLink ∈ todo /\ toWeek cfg w weekLink)
    as Hfold.
  { induction todo as [|weekLink todo IH]; intros g.
    - split; [by left|]. intros [?|(? & ?%elem_of_nil & _)]; done.
    - simpl. rewrite IH, keys_addWeekLink. split.
      + intros [[?|?]|(wl & ? & ?)]; [by left|right|right].
        * exists weekLink. split; [left|done].
        * exists wl. split; [by right|done].
      + intros [?|(wl & [-> |?]%elem_of_cons & ?)].
        * left. by left.
        * left. by right.
        * right. by exists wl. }
  rewrite Hfold. split.
  - intros [?|(wl & ? & ?)]; [by left|right]. by exists linkedWeeks, linkedBlocs, wl.
  - intros [?|(lw & lb & wl & ? & ? & ? & ?)]; [by left|right]. simplify_eq. by exists wl.
Qed.

Lemma NoDup_processEvent gridData event :
  NoDup gridData.*1 -> NoDup (processEvent weeksMapB blocsMapB gridData event).*1.
Proof.
  intros Hnd. unfold processEvent.
  destruct (ev_weeks event) as [linkedWeeks|]; [|done].
  destruct (ev_blocs event) as [linkedBlocs|]; [|done].
  generalize (EventRow (ev_name event) (activeDaysOf event)). intros row.
  revert gridData Hnd. induction linkedWeeks as [|weekLink linkedWeeks IH];
    intros gridData Hnd; [done|].
  simpl. by apply IH, NoDup_addWeekLink.
Qed.

Lemma keys_gridDataOf eventRecords w :
  w ∈ (gridDataOf cfg eventRecords).*1
  <-> exists event, event ∈ eventRecords /\ reachesWeek cfg w event.
Proof.
  induction eventRecords as [|event eventRecords IH] using rev_ind.
  - split; [by intros ?%elem_of_nil|by intros (? & ?%elem_of_nil & _)].
  - rewrite CrossProduct.gridDataOf_snoc, keys_processEvent, IH. split.
    + intros [(ev & ? & ?)|?].
      * exists ev. split; [|done]. apply elem_of_app. by left.
      * exists event. split; [|done]. apply elem_of_app. right. left.
    + intros (ev & [?| ->%list_elem_of_singleton]%elem_of_app & ?); [left|by right].
      by exists ev.
Qed.

Lemma NoDup_gridDataOf eventRecords : NoDup (gridDataOf cfg eventRecords).*1.
Proof.
  induction eventRecords as [|event eventRecords IH] using rev_ind; [constructor|].
  rewrite CrossProduct.gridDataOf_snoc. by apply NoDup_processEvent.
Qed.

End stacks.

End CrossProductView.

(** X14. In the cross-product grid the rows stacked under a bloc of a
    week that is drawn are, in the order of the event records, one row for
    each pair of a link of the event to that week and a link of the event
    to a bloc record of that name: an event linked to [m] weeks and [n]
    blocs is drawn [m * n] times. *)
Theorem cross_product_stack (cfg : RoutageB.config)
    (eventRecords : list RoutageB.eventRecord) (weekData : RoutageB.weekEntry)
    (blocName : string) :
  weekData ∈ RoutageB.sortedWeeks cfg eventRecords ->
  default [] (mapGet blocName (RoutageB.blocs weekData))
  = flat_map (RoutageBView.rowsUnder cfg (RoutageB.weekId weekData) blocName) eventRecords
  /\ forall event linkedWeeks linkedBlocs,
       RoutageB.ev_weeks event = Some linkedWeeks ->
       RoutageB.ev_blocs event = Some linkedBlocs ->
       length (RoutageBView.rowsUnder cfg (RoutageB.weekId weekData) blocName event)
       = length (filter (RoutageBView.toWeek cfg (RoutageB.weekId weekData)) linkedWeeks)
         * length (filter (RoutageBView.toBloc cfg blocName) linkedBlocs).
Proof.
  intros Hin. split.
  - unfold RoutageB.sortedWeeks in Hin.
    destruct (RoutageB.allConfigured cfg); [|by apply elem_of_nil in Hin].
    cbn [negb] in Hin. rewrite sortBy_Permutation in Hin.
    apply list_elem_of_fmap in Hin as ([w entry] & -> & Hin). simpl.
    destruct (CrossProduct.gridDataOf_sourced cfg eventRecords w entry Hin) as [_ [-> _]].
    pose proof (CrossProductView.stackOf_foldl cfg [] eventRecords w blocName) as Hstack.
    fold (RoutageB.gridDataOf cfg eventRecords) in Hstack.
    unfold RoutageBView.stackOf in Hstack at 1.
    rewrite (mapGet_elem w entry) in Hstack;
      [done|apply CrossProductView.NoDup_gridDataOf|done].
  - intros event linkedWeeks linkedBlocs Hw Hb. unfold RoutageBView.rowsUnder.
    rewrite Hw, Hb.
    induction (filter (RoutageBView.toWeek cfg (RoutageB.weekId weekData)) linkedWeeks)
      as [|weekLink todo IH]; [done|].
    simpl. by rewrite length_app, IH, length_fmap.
Qed.

Lemma cross_product_stack_witness :
  default [] (mapGet "PM"
                (RoutageB.blocs
                   (RoutageB.WeekEntry "recW2" "Semaine 2" (Some 1704690000000%Z) None
                      [("AM", [RoutageB.EventRow "Montage" {["L"]}]);
                       ("PM", [RoutageB.EventRow "Montage" {["L"]}])])))
  = flat_map (RoutageBView.rowsUnder RoutageBView.crossConfig "recW2" "PM")
             [RoutageBView.crossEvent].
Proof.
  apply (cross_product_stack RoutageBView.crossConfig [RoutageBView.crossEvent]
           (RoutageB.WeekEntry "recW2" "Semaine 2" (Some 1704690000000%Z) None
              [("AM", [RoutageB.EventRow "Montage" {["L"]}]);
               ("PM", [RoutageB.EventRow "Montage" {["L"]}])])
           "PM").
  vm_compute. right. left.
Defined.

(** X15. A week is drawn in the cross-product grid exactly when the grid
    is configured and some event record, with arrays in its week and bloc
    cells, has a link to that week and the week is a record of the weeks
    table, whether or not any of its bloc links resolves; each such week
    is drawn once. *)
Theorem cross_product_weeks (cfg : RoutageB.config)
    (eventRecords : list RoutageB.eventRecord) (w : string) :
  NoDup (RoutageB.weekId <$> RoutageB.sortedWeeks cfg eventRecords)
  /\ (w ∈ RoutageB.weekId <$> RoutageB.sortedWeeks cfg eventRecords
      <-> RoutageB.allConfigured cfg = true
          /\ exists event, event ∈ eventRecords /\ RoutageBView.reachesWeek cfg w event).
Proof.
  unfold RoutageB.sortedWeeks.
  destruct (RoutageB.allConfigured cfg); cbn [negb].
  2:{ split; [constructor|]. split; [by intros ?%elem_of_nil|by intros [? _]]. }
  assert (RoutageB.weekId <$> (RoutageB.gridDataOf cfg eventRecords).*2
          = (RoutageB.gridDataOf cfg eventRecords).*1) as Hids.
  { pose proof (CrossProduct.gridDataOf_sourced cfg eventRecords) as Hsrc.
    induction (RoutageB.gridDataOf cfg eventRecords) as [|[k entry] rest IH]; [done|].
    rewrite !fmap_cons. f_equal.
    - destruct (Hsrc k entry) as [_ [Hid _]]; [left|done].
    - apply IH. intros k' entry' Hin'. apply Hsrc. by right. }
  rewrite sortBy_Permutation, Hids. split.
  - apply CrossProductView.NoDup_gridDataOf.
  - rewrite CrossProductView.keys_gridDataOf. split; [by intros ?|by intros [_ ?]].
Qed.

(** X16. The body of a week of the cross-product grid has as many rows as
    the tallest of the four stacks, and one row when all are empty; the
    event number [k] of a stack is drawn in row [k] under its bloc, and
    every row after the first holds at least one event. *)
Theorem body_rows_follow_stacks (weekData : RoutageB.weekEntry) :
  let n := RoutageBView.maxEvents weekData in
  length (RoutageBView.body weekData) = n /\ 1 <= n
  /\ (forall blocName k row,
        blocName ∈ RoutageB.BLOC_ORDER ->
        RoutageBView.blocStack blocName weekData !! k = Some row ->
        k < n /\ RoutageBView.cellEvent weekData blocName k = Some row)
  /\ (forall k, 0 < k < n ->
        exists blocName row,
          blocName ∈ RoutageB.BLOC_ORDER
          /\ RoutageBView.cellEvent weekData blocName k = Some row).
Proof.
  intros n.
  set (heights := (fun bn => match mapGet bn (RoutageB.blocs weekData) with
                             | Some evs => length evs
                             | None => 0
                             end) <$> RoutageB.BLOC_ORDER).
  assert (n = Nat.max 1 (max_list heights)) as Hn by done.
  split_and!.
  - unfold RoutageBView.body. by rewrite length_fmap, length_seq.
  - lia.
  - intros blocName k row Hbn Hk. unfold RoutageBView.blocStack in Hk.
    unfold RoutageBView.cellEvent.
    destruct (mapGet blocName (RoutageB.blocs weekData)) as [evs|] eqn:Hget; [|done].
    simpl in Hk. split; [|done].
    assert (length evs ∈ heights) as Hin.
    { unfold heights. apply list_elem_of_fmap. exists blocName. by rewrite Hget. }
    apply max_list_elem_of_le in Hin. apply lookup_lt_Some in Hk. lia.
  - intros k Hk.
    assert (max_list heights ∈ heights) as Hin by (by apply max_list_elem_of).
    unfold heights in Hin at 2. apply list_elem_of_fmap in Hin as (blocName & Hmax & Hbn).
    unfold RoutageBView.cellEvent.
    destruct (mapGet blocName (RoutageB.blocs weekData)) as [evs|] eqn:Hget; [|lia].
    destruct (lookup_lt_is_Some_2 evs k) as [row Hrow]; [lia|].
    exists blocName, row. split; [done|]. by rewrite Hget.
Qed.

(** ** The campaign charts: labels and filter *)

Import MultiAxis.

Lemma length_substring_0 (max : nat) (s : string) :
  String.length (String.substring 0 max s) = Nat.min max (String.length s).
Proof.
  revert max. induction s as [|c s IH]; intros [|max]; simpl; try done.
  by rewrite IH.
Qed.

Lemma length_string_app (a b : string) :
  String.length (a +:+ b) = String.length a + String.length b.
Proof. induction a as [|c a IH]; simpl; [done|by rewrite IH]. Qed.

Lemma substring_0_app (max : nat) (a b : string) :
  String.length a = max -> String.substring 0 max (a +:+ b) = a.
Proof.
  revert max. induction a as [|c a IH]; intros max Hlen; simpl in *; subst; [by destruct b|].
  simpl. by rewrite IH.
Qed.

(** X17. A truncated label is never longer than the limit plus the three
    dots; a label within the limit is returned as it is, a longer one is
    cut to its first [max] code units followed by the dots, and truncating
    a truncated label changes nothing. *)
Theorem truncate_bounds (s : string) (max : nat) :
  String.length (truncate (Some s) max) <= max + 3
  /\ (String.length s <= max -> truncate (Some s) max = s)
  /\ (max < String.length s ->
      truncate (Some s) max = String.substring 0 max s +:+ "..."
      /\ String.length (truncate (Some s) max) = max + 3)
  /\ truncate (Some (truncate (Some s) max)) max = truncate (Some s) max.
Proof.
  unfold truncate at 1 2 3 4 6. case_bool_decide as Hlong.
  - assert (String.length (String.substring 0 max s +:+ "...") = max + 3) as Hlen.
    { rewrite length_string_app, length_substring_0. simpl. lia. }
    split_and!; [lia|intros; lia|intros _; by split|].
    unfold truncate. rewrite (bool_decide_true (max < String.length s)) by done.
    rewrite bool_decide_true by lia.
    rewrite substring_0_app; [done|]. rewrite length_substring_0. lia.
  - split_and!; [lia|done|intros; lia|].
    unfold truncate. by rewrite !bool_decide_false.
Qed.

Lemma addOption_spec st n :
  coherent st ->
  coherent (addOption st n)
  /\ forall name, name ∈ (addOption st n).2 <-> name ∈ st.2 \/ (name = n /\ n <> "").
Proof.
  intros [Hnd Hseen]. unfold addOption.
  destruct (decide (n = "")) as [Hn|Hn].
  { rewrite (bool_decide_true _ Hn). cbn [negb andb]. split; [done|].
    intros name. split; [by left|]. by intros [?|[_ ?]]. }
  rewrite (bool_decide_false _ Hn). cbn [negb andb].
  destruct (decide (n ∈ st.1)) as [Hin|Hnin].
  { rewrite (bool_decide_true _ Hin). cbn [negb]. split; [done|].
    intros name. split; [by left|]. intros [?|[-> _]]; [done|]. by apply Hseen. }
  rewrite (bool_decide_false _ Hnin). cbn [negb fst snd]. split; [split|].
  - cbn [fst snd]. apply NoDup_app. split_and!; [done| |apply NoDup_singleton].
    intros x Hx ->%list_elem_of_singleton. by apply Hnin, Hseen.
  - intros name. cbn [fst snd].
    rewrite elem_of_union, elem_of_singleton, elem_of_app, list_elem_of_singleton, Hseen.
    tauto.
  - intros name. cbn [fst snd]. rewrite elem_of_app, list_elem_of_singleton. tauto.
Qed.

Lemma scanLinks_spec links st :
  coherent st ->
  let st' := foldl (fun st link => addOption st (l_name link)) st links in
  coherent st'
  /\ forall name, name ∈ st'.2
       <-> name ∈ st.2
           \/ (name <> "" /\ existsb (fun link => bool_decide (l_name link = name)) links = true).
Proof.
  revert st. induction links as [|link links IH]; intros st Hst; cbv zeta.
  - split; [done|]. intros name. split; [by left|]. by intros [?|[_ ?]].
  - simpl. destruct (addOption_spec st (l_name link) Hst) as [Hst1 Hmem1].
    destruct (IH _ Hst1) as [Hst2 Hmem2]. split; [done|].
    intros name. rewrite Hmem2, Hmem1, orb_true_iff, bool_decide_eq_true.
    split.
    + intros [[?|[-> ?]]|[? ?]]; [by left|right|right]; split; auto.
    + intros [?|[? [?|?]]]; [left; by left|left; right|right]; [|by auto].
      split; congruence.
Qed.

Lemma scanRecord_spec st record :
  coherent st ->
  coherent (scanRecord st record)
  /\ forall name, name ∈ (scanRecord st record).2
       <-> name ∈ st.2 \/ (name <> "" /\ matchesFilter name record = true).
Proof.
  intros Hst. unfold scanRecord, matchesFilter.
  destruct (cr_cell record) as [links|cellName|].
  - apply (scanLinks_spec links st Hst).
  - destruct (decide (cellName = "")) as [Hn|Hn].
    + rewrite !(bool_decide_true _ Hn).
      destruct (addOption_spec st (cr_string record) Hst) as [Hst1 Hmem1].
      split; [done|]. intros name. rewrite Hmem1, bool_decide_eq_true.
      split; (intros [?|[? ?]]; [by left|right]); split; congruence.
    + rewrite !(bool_decide_false _ Hn).
      destruct (addOption_spec st cellName Hst) as [Hst1 Hmem1].
      split; [done|]. intros name. rewrite Hmem1, bool_decide_eq_true.
      split; (intros [?|[? ?]]; [by left|right]); split; congruence.
  - destruct (addOption_spec st (cr_string record) Hst) as [Hst1 Hmem1].
    split; [done|]. intros name. rewrite Hmem1, bool_decide_eq_true.
    split; (intros [?|[? ?]]; [by left|right]); split; congruence.
Qed.

Lemma scanRecords_spec records st :
  coherent st ->
  coherent (foldl scanRecord st records)
  /\ forall name, name ∈ (foldl scanRecord st records).2
       <-> name ∈ st.2
           \/ (name <> "" /\ exists record, record ∈ records
                                            /\ matchesFilter name record = true).
Proof.
  revert st. induction records as [|record records IH]; intros st Hst.
  - split; [done|]. intros name. split; [by left|].
    by intros [?|(_ & ? & ?%elem_of_nil & _)].
  - simpl. destruct (scanRecord_spec st record Hst) as [Hst1 Hmem1].
    destruct (IH _ Hst1) as [Hst2 Hmem2]. split; [done|].
    intros name. rewrite Hmem2, Hmem1. split.
    + intros [[?|[? ?]]|(? & r & ? & ?)]; [by left|right|right]; (split; [done|]).
      * exists record. split; [left|done].
      * exists r. split; [by right|done].
    + intros [?|(? & r & [->|?]%elem_of_cons & ?)]; [left; by left|left; by right|right].
      split; [done|]. by exists r.
Qed.

(** X18. With a filter field configured, the options of the dropdown are
    distinct, sorted, and are exactly the non-empty names that select at
    least one record: every option, when chosen, leaves a record to chart,
    and every non-empty name borne by a record (a linked record of its
    cell, its single-select choice, or its cell as a string) is offered. *)
Theorem filter_options_match_records (records : list chartRecord) :
  let options := filterOptions true records in
  NoDup options /\ StronglySorted str_le options
  /\ (forall name, name ∈ options
        <-> name <> "" /\ exists record, record ∈ records
                                         /\ matchesFilter name record = true)
  /\ (forall name, name ∈ options -> name <> "__all__" ->
        filteredRecords true name records <> []).
Proof.
  intros options. subst options. unfold filterOptions. cbn [negb].
  destruct (scanRecords_spec records (∅, [])) as [[Hnd _] Hmem].
  { split; [constructor|]. intros name. simpl. by rewrite elem_of_empty, elem_of_nil. }
  assert (Hopts : forall name,
            name ∈ merge_sort str_le (foldl scanRecord (∅, []) records).2
            <-> name <> "" /\ exists record, record ∈ records
                                             /\ matchesFilter name record = true).
  { intros name. rewrite merge_sort_Permutation, Hmem. simpl. rewrite elem_of_nil. tauto. }
  split_and!.
  - by rewrite merge_sort_Permutation.
  - apply StronglySorted_merge_sort; apply _.
  - done.
  - intros name (_ & record & Hin & Hmatch)%Hopts Hall.
    unfold filteredRecords. rewrite bool_decide_false by done. cbn [negb orb].
    intros Hnil.
    assert (record ∈ filter (fun record => matchesFilter name record = true) records) as Hr.
    { by apply list_elem_of_filter. }
    rewrite Hnil in Hr. by apply elem_of_nil in Hr.
Qed.

(** ** Day numbers of a week *)

Module Calendar.

Import HostDate GridDates.
Local Open Scope Z_scope.

Lemma DayFromYear_succ y : DayFromYear (y + 1) = DayFromYear y + DaysInYear y.
Proof.
  unfold DayFromYear, DaysInYear.
  destruct (Z.eqb_spec (y mod 4) 0), (Z.eqb_spec (y mod 100) 0), (Z.eqb_spec (y mod 400) 0);
    cbn [negb]; Z.to_euclidean_division_equations; lia.
Qed.

Lemma DaysInYear_cases y : DaysInYear y = 365 \/ DaysInYear y = 366.
Proof. unfold DaysInYear. repeat (destruct (negb _)); auto. Qed.

Lemma YearFromTime_spec t :
  DayFromYear (YearFromTime t) <= Day t < DayFromYear (YearFromTime t + 1).
Proof.
  unfold YearFromTime. generalize (Day t). intros d. cbv zeta.
  set (y := 1970 + 400 * d / 146097).
  destruct (Z.leb_spec (DayFromYear (y + 1)) d) as [H1|H1].
  - split; [assumption|]. unfold DayFromYear in *. subst y.
    Z.to_euclidean_division_equations; lia.
  - destruct (Z.leb_spec (DayFromYear y) d) as [H2|H2].
    + split; assumption.
    + replace (y - 1 + 1) with y by lia. split; [|assumption].
      unfold DayFromYear in *. subst y. Z.to_euclidean_division_equations; lia.
Qed.

Lemma DayFromYear_mono a b : a <= b -> DayFromYear a <= DayFromYear b.
Proof. unfold DayFromYear. intros. Z.to_euclidean_division_equations; lia. Qed.

Lemma YearFromTime_unique t y :
  DayFromYear y <= Day t < DayFromYear (y + 1) -> YearFromTime t = y.
Proof.
  intros Hy. pose proof (YearFromTime_spec t) as Hs.
  destruct (Z.lt_trichotomy (YearFromTime t) y) as [Hlt|[Heq|Hgt]]; [|done|].
  - pose proof (DayFromYear_mono (YearFromTime t + 1) y). lia.
  - pose proof (DayFromYear_mono (y + 1) (YearFromTime t)). lia.
Qed.

Lemma DayWithinYear_range t :
  0 <= DayWithinYear t < 365 + InLeapYear t.
Proof.
  unfold DayWithinYear, InLeapYear. pose proof (YearFromTime_spec t) as Hs.
  rewrite DayFromYear_succ in Hs.
  destruct (DaysInYear_cases (YearFromTime t)) as [Hd|Hd]; rewrite Hd in *; simpl; lia.
Qed.

(** The date of the month, and where the month starts. *)
Lemma date_in_month t :
  0 <= MonthFromTime t <= 11
  /\ DayWithinYear t = monthStart (InLeapYear t) (MonthFromTime t) + DateFromTime t - 1
  /\ 1 <= DateFromTime t <= 31.
Proof.
  pose proof (DayWithinYear_range t) as Hr.
  assert (InLeapYear t = 0 \/ InLeapYear t = 1) as Hl.
  { unfold InLeapYear. destruct (_ =? _); auto. }
  unfold DateFromTime, MonthFromTime. cbv zeta.
  repeat (match goal with |- context [?a <? ?b] => destruct (Z.ltb_spec a b) end);
    cbn [monthStart]; lia.
Qed.

Lemma Day_MakeDate day time : 0 <= time < msPerDay -> Day (MakeDate day time) = day.
Proof.
  intros Ht. unfold Day, MakeDate, msPerDay in *. Z.to_euclidean_division_equations; lia.
Qed.

Lemma Day_add t k : Day (t + k * msPerDay) = Day t + k.
Proof. unfold Day. by rewrite Z.div_add. Qed.

Lemma YearFromTime_Day t t' : Day t = Day t' -> YearFromTime t = YearFromTime t'.
Proof. unfold YearFromTime. by intros ->. Qed.

Lemma DateFromTime_Day t t' : Day t = Day t' -> DateFromTime t = DateFromTime t'.
Proof.
  intros Hd. pose proof (YearFromTime_Day t t' Hd) as Hy.
  unfold DateFromTime, MonthFromTime, DayWithinYear, InLeapYear. by rewrite Hd, Hy.
Qed.

Lemma MakeDay_in_year year mn date :
  0 <= mn <= 11 ->
  MakeDay year mn date
  = DayFromYear year + monthStart (if DaysInYear year =? 365 then 0 else 1) mn + date - 1.
Proof.
  intros Hm. unfold MakeDay. cbv zeta.
  replace (mn / 12) with 0 by (Z.to_euclidean_division_equations; lia).
  replace (mn mod 12) with mn by (Z.to_euclidean_division_equations; lia).
  by rewrite Z.add_0_r.
Qed.

(** Setting the date of the month from the current one moves by whole days. *)
Lemma MakeDay_shift t k :
  MakeDay (YearFromTime t) (MonthFromTime t) (DateFromTime t + k) = Day t + k.
Proof.
  destruct (date_in_month t) as (Hm & Hd & _).
  rewrite MakeDay_in_year by done. fold (InLeapYear t).
  unfold DayWithinYear in Hd. lia.
Qed.

(** A calendar date read back from the day it denotes. *)
Lemma date_of_MakeDay t year mn date :
  0 <= mn <= 11 -> 1 <= date <= daysInMonth year mn ->
  Day t = MakeDay year mn date ->
  YearFromTime t = year /\ MonthFromTime t = mn /\ DateFromTime t = date.
Proof.
  intros Hm Hd Ht. rewrite MakeDay_in_year in Ht by done.
  unfold daysInMonth in Hd. cbv zeta in Hd.
  set (l := if DaysInYear year =? 365 then 0 else 1) in *.
  assert (DaysInYear year = 365 + l /\ (l = 0 \/ l = 1)) as [Hdays Hl].
  { subst l. destruct (DaysInYear_cases year) as [H|H]; rewrite H; simpl; lia. }
  assert (mn = 0 \/ mn = 1 \/ mn = 2 \/ mn = 3 \/ mn = 4 \/ mn = 5 \/ mn = 6 \/ mn = 7
          \/ mn = 8 \/ mn = 9 \/ mn = 10 \/ mn = 11) as Hcases by lia.
  assert (YearFromTime t = year) as Hy.
  { apply YearFromTime_unique. rewrite DayFromYear_succ, Hdays, Ht.
    repeat (destruct Hcases as [->|Hcases]); [..|subst mn]; cbn [monthStart] in *; lia. }
  split; [done|].
  assert (DayWithinYear t = monthStart l mn + date - 1) as Hw.
  { unfold DayWithinYear. rewrite Hy, Ht. lia. }
  assert (InLeapYear t = l) as Hleap by (unfold InLeapYear; by rewrite Hy).
  unfold DateFromTime, MonthFromTime. cbv zeta. rewrite Hw, Hleap.
  repeat (destruct Hcases as [->|Hcases]); [..|subst mn]; cbn [monthStart] in *;
    repeat (match goal with |- context [?a <? ?b] => destruct (Z.ltb_spec a b) end);
    try lia; split; lia.
Qed.

Lemma daysInMonth_range year mn : 28 <= daysInMonth year mn <= 31.
Proof.
  unfold daysInMonth. cbv zeta. destruct (_ =? _);
    (destruct mn as [|p|p]; [lia| |lia]);
    do 4 (try destruct p as [p|p|]); lia.
Qed.


Lemma monthStart_succ year mn :
  0 <= mn <= 10 ->
  monthStart (if DaysInYear year =? 365 then 0 else 1) (mn + 1)
  = monthStart (if DaysInYear year =? 365 then 0 else 1) mn + daysInMonth year mn.
Proof.
  intros Hm. unfold daysInMonth. cbv zeta.
  generalize (if DaysInYear year =? 365 then 0 else 1). intros l.
  assert (mn = 0 \/ mn = 1 \/ mn = 2 \/ mn = 3 \/ mn = 4 \/ mn = 5 \/ mn = 6 \/ mn = 7
          \/ mn = 8 \/ mn = 9 \/ mn = 10) as Hcases by lia.
  repeat (destruct Hcases as [->|Hcases]); [..|subst mn]; simpl; lia.
Qed.

(** The date of the month [k] days after a calendar date, for a step
    shorter than a month. *)
Lemma date_after t year mn date k :
  0 <= mn <= 11 -> 1 <= date <= daysInMonth year mn -> 0 <= k <= 6 ->
  Day t = MakeDay year mn date + k ->
  DateFromTime t
  = if date + k <=? daysInMonth year mn then date + k
    else date + k - daysInMonth year mn.
Proof.
  intros Hm Hd Hk Ht.
  destruct (Z.leb_spec (date + k) (daysInMonth year mn)) as [Hin|Hout].
  - apply (date_of_MakeDay t year mn (date + k)); [done|lia|].
    rewrite Ht, !MakeDay_in_year by done. lia.
  - destruct (decide (mn = 11)) as [->|Hne].
    + apply (date_of_MakeDay t (year + 1) 0 (date + k - daysInMonth year 11)); [lia| |].
      * pose proof (daysInMonth_range (year + 1) 0).
        pose proof (daysInMonth_range year 11). lia.
      * rewrite Ht, !MakeDay_in_year by lia. rewrite DayFromYear_succ.
        unfold daysInMonth. cbn [monthStart].
        destruct (DaysInYear_cases year) as [H|H]; rewrite H; simpl; lia.
    + apply (date_of_MakeDay t year (mn + 1) (date + k - daysInMonth year mn)); [lia| |].
      * pose proof (daysInMonth_range year (mn + 1)).
        pose proof (daysInMonth_range year mn). lia.
      * rewrite Ht, !MakeDay_in_year by lia. rewrite monthStart_succ by lia. lia.
Qed.


Section zone_lemmas.

Context (LocalTime UTC : Z -> Z).
Hypothesis Hzone : forall x, Day (LocalTime (UTC x)) = Day x.

Lemma getDate_setDate t k :
  getDate LocalTime (setDate LocalTime UTC t (getDate LocalTime t + k))
  = DateFromTime (LocalTime t + k * msPerDay).
Proof.
  unfold getDate, setDate. cbv zeta. apply DateFromTime_Day.
  rewrite Hzone, Day_MakeDate, MakeDay_shift, Day_add; [done|].
  apply Z.mod_pos_bound. done.
Qed.

Lemma computeDayNumbers_closed (codes : list string) (start : Z) :
  computeDayNumbers LocalTime UTC codes (Some start)
  = imap (fun index _ => Some (DateFromTime (LocalTime start + Z.of_nat index * msPerDay)))
         codes.
Proof.
  unfold computeDayNumbers. apply imap_ext. intros index code _. cbv beta.
  by rewrite getDate_setDate.
Qed.

End zone_lemmas.

End Calendar.



(** X20. A week whose start cell reads as year, month and day of a date
    of the calendar (a year from 100 on) gets that day as its first day
    number, and the six following numbers count on from it, starting
    again at 1 after the last day of the month: the start date
    2024-01-07 gives 7 to 13. *)
Theorem day_numbers_of_a_week_start (LocalTime UTC : Z -> Z) (year month day : Z) :
  (forall x, HostDate.Day (LocalTime (UTC x)) = HostDate.Day x) ->
  (100 <= year)%Z -> (1 <= month <= 12)%Z ->
  (1 <= day <= HostDate.daysInMonth year (month - 1))%Z ->
  GridDates.computeDayNumbers LocalTime UTC RoutageA.DAY_CODES
    (GridDates.parseAirtableDate UTC (Some [year; month; day]))
  = (fun k => Some (if (day + k <=? HostDate.daysInMonth year (month - 1))%Z
                    then (day + k)%Z
                    else (day + k - HostDate.daysInMonth year (month - 1))%Z))
    <$> seqZ 0 7.
Proof.
  intros Hzone Hy Hm Hd. cbn [GridDates.parseAirtableDate].
  rewrite (Calendar.computeDayNumbers_closed LocalTime UTC Hzone).
  unfold GridDates.newDate. cbv zeta.
  replace ((0 <=? year)%Z && (year <=? 99)%Z) with false
    by (symmetry; apply andb_false_iff; right; lia).
  assert (Hk : forall k : Z, (0 <= k <= 6)%Z ->
            HostDate.DateFromTime
              (LocalTime (UTC (HostDate.MakeDate (HostDate.MakeDay year (month - 1) day) 0))
               + k * HostDate.msPerDay)%Z
            = if (day + k <=? HostDate.daysInMonth year (month - 1))%Z then (day + k)%Z
              else (day + k - HostDate.daysInMonth year (month - 1))%Z).
  { intros k Hk. apply Calendar.date_after; [lia|done|done|].
    rewrite Calendar.Day_add, Hzone, Calendar.Day_MakeDate; [done|].
    unfold HostDate.msPerDay. lia. }
  unfold RoutageA.DAY_CODES. cbn [imap]. unfold compose.
  change (seqZ 0 7) with [0; 1; 2; 3; 4; 5; 6]%Z. cbn [fmap list_fmap].
  repeat f_equal; (rewrite <-Hk by lia; do 2 f_equal; lia).
Qed.

Lemma day_numbers_of_a_week_start_witness :
  GridDates.computeDayNumbers GridDates.minusFive GridDates.plusFive RoutageA.DAY_CODES
    (GridDates.parseAirtableDate GridDates.plusFive (Some [2024; 1; 7]%Z))
  = Some <$> [7; 8; 9; 10; 11; 12; 13]%Z.
Proof.
  apply (day_numbers_of_a_week_start GridDates.minusFive GridDates.plusFive 2024 1 7).
  - intros x. unfold GridDates.minusFive, GridDates.plusFive. f_equal. lia.
  - lia.
  - lia.
  - vm_compute. split; discriminate.
Defined.

(** ** The indicator cards *)

Local Open Scope Z_scope.

Lemma filteredSalesData_unbounded salesData :
  filteredSalesData salesData None None = refsOf salesData.
Proof. unfold filteredSalesData. by case_bool_decide. Qed.

Lemma last_refsOf (salesData : list point) :
  last (refsOf salesData) = (fun p => (pred (length salesData), p)) <$> last salesData.
Proof.
  induction salesData as [|p salesData _] using rev_ind; [done|].
  unfold refsOf. rewrite imap_app, last_snoc, length_app. simpl.
  rewrite last_snoc. do 2 f_equal. lia.
Qed.

Lemma filteredSalesData_none salesData dateFrom dateTo :
  (forall q, q ∈ salesData -> ~ inRange dateFrom dateTo (p_date q)) ->
  filteredSalesData salesData dateFrom dateTo = [].
Proof.
  intros Hnone. rewrite filteredSalesData_inRange. unfold refsOf.
  by apply (filter_refs_none (inRange dateFrom dateTo)).
Qed.

Lemma length_omap_le {B C} (f : B -> option C) (l : list B) :
  (length (omap f l) <= length l)%nat.
Proof.
  induction l as [|x l IH]; [done|]. simpl.
  change (list_omap B C f l) with (omap f l). destruct (f x); simpl; lia.
Qed.

(** X21. With a series on screen, the two fixed cards show the sold and
    revenue figures of the last point of the whole series, under the
    labels of the totals, both when no date bound is set and when the
    date range holds no point of the series: an empty range falls back on
    all-time totals, not on a period of zero.  And the band always has
    eight cards: the two fixed ones, one per configured indicator of the
    selected spectacle, and empty slots up to six. *)
Theorem indicator_cards (toLocaleString toLocaleString0 : Z -> string)
    (salesData : list point) (dateFrom dateTo : option Z) (lastP : point)
    (selectedSpectacleId : option string) (spectacleRecords : list spectacleRecord)
    (configured : list (option field)) :
  last salesData = Some lastP ->
  hasFilter dateFrom dateTo = false
  \/ (forall q, q ∈ salesData -> ~ inRange dateFrom dateTo (p_date q)) ->
  length configured = 6%nat ->
  let filtered := filteredSalesData salesData dateFrom dateTo in
  let fixed := fixedKPIs toLocaleString toLocaleString0 salesData filtered
                 (hasFilter dateFrom dateTo) (periodStats salesData filtered) in
  let shown := spectacleKPIs selectedSpectacleId spectacleRecords (kpiFieldsOf configured) in
  fixed = [Kpi (toLocaleString (ventes lastP)) "Billets vendus";
           Kpi (toLocaleString0 (total_dollars lastP) +:+ " $") "Revenus"]
  /\ (length fixed + length shown + emptySlots (length shown) = 8)%nat.
Proof.
  intros Hlast Hcase Hsix filtered fixed shown.
  assert (fixed = [Kpi (toLocaleString (ventes lastP)) "Billets vendus";
                   Kpi (toLocaleString0 (total_dollars lastP) +:+ " $") "Revenus"]) as Hfixed.
  { subst fixed filtered. unfold fixedKPIs.
    rewrite bool_decide_false by (by destruct salesData).
    destruct Hcase as [Hno|Hnone].
    - rewrite Hno. unfold hasFilter in Hno. apply orb_false_iff in Hno as [Hf Ht].
      apply bool_decide_eq_false in Hf, Ht.
      destruct dateFrom; [by destruct Hf|]. destruct dateTo; [by destruct Ht|].
      rewrite filteredSalesData_unbounded, last_refsOf, Hlast. done.
    - rewrite (period_delta_none salesData dateFrom dateTo Hnone).
      rewrite filteredSalesData_none by done. cbn [last]. rewrite Hlast. cbn [default].
      by destruct (hasFilter dateFrom dateTo). }
  split; [done|]. rewrite Hfixed. cbn [length].
  assert (length shown <= 6)%nat as Hshown.
  { subst shown. unfold spectacleKPIs, kpiFieldsOf.
    pose proof (length_omap_le id configured) as Hle.
    destruct selectedSpectacleId as [sid|]; [|simpl; lia].
    case_bool_decide; [simpl; lia|].
    destruct (List.find _ _); [|simpl; lia]. rewrite length_fmap. lia. }
  unfold emptySlots. lia.
Qed.

Lemma indicator_cards_witness :
  let filtered := filteredSalesData fiveDays (Some 10) None in
  let fixed := fixedKPIs pretty pretty fiveDays filtered
                 (hasFilter (Some 10) None) (periodStats fiveDays filtered) in
  let shown := spectacleKPIs None [] (kpiFieldsOf (replicate 6 None)) in
  fixed = [Kpi (pretty (ventes (Point 5 15 0 0))) "Billets vendus";
           Kpi (pretty (total_dollars (Point 5 15 0 0)) +:+ " $") "Revenus"]
  /\ (length fixed + length shown + emptySlots (length shown) = 8)%nat.
Proof.
  apply (indicator_cards pretty pretty fiveDays (Some 10) None (Point 5 15 0 0)
           None [] (replicate 6 None)).
  - reflexivity.
  - right. intros q Hq [Hfrom _]. simpl in Hfrom. unfold fiveDays in Hq.
    repeat (apply elem_of_cons in Hq as [->|Hq]; [simpl in Hfrom; lia|]).
    by apply elem_of_nil in Hq.
  - reflexivity.
Defined.

(** ** The representations of a spectacle *)

Import Representations.

Lemma sortBy_snoc_cmp {B} (cmp : B -> B -> Z) (l : list B) (x : B) :
  sortBy cmp (l ++ [x]) = insertBy cmp x (sortBy cmp l).
Proof. unfold sortBy. by rewrite foldl_app. Qed.

Lemma insertBy_Permutation_cmp {B} (cmp : B -> B -> Z) (x : B) (sorted : list B) :
  insertBy cmp x sorted ≡ₚ x :: sorted.
Proof.
  induction sorted as [|e sorted IH]; [done|].
  simpl. destruct (_ <? _)%Z; [done|]. by rewrite IH, Permutation_swap.
Qed.

Section representations_order.

Context (localeCompare : string -> string -> Z).

#[local] Abbreviation rcmp := (repCmp localeCompare).

Lemma repCmp_dated x e t : rawDate x = Some t -> rcmp x e = weekCmp rawDate x e.
Proof. intros Hx. unfold repCmp, weekCmp. rewrite Hx. by destruct (rawDate e). Qed.

Lemma insertBy_repCmp_dated x t sorted :
  rawDate x = Some t -> insertBy rcmp x sorted = insertBy (weekCmp rawDate) x sorted.
Proof.
  intros Hx. induction sorted as [|e sorted IH]; [done|].
  simpl. rewrite (repCmp_dated x e t Hx), IH. done.
Qed.

Lemma insertBy_repCmp_undated x dated undated :
  rawDate x = None -> Forall (fun a => is_Some (rawDate a)) dated ->
  insertBy rcmp x (dated ++ undated) = dated ++ insertBy rcmp x undated.
Proof.
  intros Hx Hdated. induction Hdated as [|e dated [t He] _ IH]; [done|].
  simpl. unfold repCmp at 1. rewrite Hx, He. simpl. by rewrite IH.
Qed.

(** The sorted array: the dated representations as the week comparator
    would sort them, then the undated ones in some order. *)
Lemma sortBy_repCmp (l : list representation) :
  exists undated,
    sortBy rcmp l
    = sortBy (weekCmp rawDate) (filter (fun a => is_Some (rawDate a)) l) ++ undated
    /\ undated ≡ₚ filter (fun a => rawDate a = None) l.
Proof.
  induction l as [|x l (undated & IH & Hperm)] using rev_ind.
  { by exists []. }
  rewrite sortBy_snoc_cmp, !filter_app, !filter_cons, !filter_nil, IH.
  destruct (rawDate x) as [t|] eqn:Hx.
  - rewrite decide_True by done. rewrite decide_False by done.
    exists undated. rewrite app_nil_r, sortBy_snoc. split; [|done].
    rewrite (insertBy_repCmp_dated x t) by done.
    apply (insertBy_dated_app rawDate x t); [done|].
    rewrite Hperm. apply Forall_forall. by intros a [Ha _]%list_elem_of_filter.
  - rewrite decide_False by (by intros [? ?]). rewrite decide_True by done.
    exists (insertBy rcmp x undated). rewrite app_nil_r. split.
    + apply insertBy_repCmp_undated; [done|].
      rewrite sortBy_Permutation. apply Forall_forall.
      by intros a [Ha _]%list_elem_of_filter.
    + rewrite insertBy_Permutation_cmp, Hperm. by rewrite Permutation_cons_append.
Qed.

End representations_order.

Lemma sortBy_Permutation_cmp {B} (cmp : B -> B -> Z) (l : list B) : sortBy cmp l ≡ₚ l.
Proof.
  induction l as [|x l IH] using rev_ind; [done|].
  by rewrite sortBy_snoc_cmp, insertBy_Permutation_cmp, IH, Permutation_cons_append.
Qed.

(** X22. The representations listed for the selected spectacle are
    exactly the records linked to it whose name is not empty; those with
    a date come first, in ascending order of date, and those without date
    come after them.  Without selection, or without link field, the list
    is empty. *)
Theorem representations_kept_and_ordered (localeCompare : string -> string -> Z)
    (nameField dateField statusField : bool) (sid : string) (repRecords : list repRecord) :
  let fields := RepFields true nameField dateField statusField in
  let reps := representations localeCompare fields (Some sid) repRecords in
  (forall r, r ∈ reps
     <-> rep_name r <> ""
         /\ exists record, record ∈ repRecords /\ linkedTo sid record = true
                           /\ r = toRepresentation fields record)
  /\ (exists dated undated,
        reps = dated ++ undated
        /\ Forall (fun r => is_Some (rawDate r)) dated
        /\ Forall (fun r => rawDate r = None) undated
        /\ StronglySorted (startsBefore rawDate) dated)
  /\ representations localeCompare fields None repRecords = []
  /\ representations localeCompare
       (RepFields false nameField dateField statusField) (Some sid) repRecords = [].
Proof.
  intros fields reps. subst reps. unfold representations. cbn [spectacleLinkField fields negb].
  split_and!; [| |done|done].
  - intros r. rewrite sortBy_Permutation_cmp, list_elem_of_filter, list_elem_of_fmap.
    split.
    + intros (Hname & record & -> & Hin). apply list_elem_of_filter in Hin as [Hl Hin].
      split; [done|]. by exists record.
    + intros (Hname & record & Hin & Hl & ->). split; [done|].
      exists record. split; [done|]. by apply list_elem_of_filter.
  - set (kept := filter (fun r => rep_name r <> "") _).
    destruct (sortBy_repCmp localeCompare kept) as (undated & -> & Hperm).
    exists (sortBy (weekCmp rawDate) (filter (fun a => is_Some (rawDate a)) kept)), undated.
    split_and!.
    + done.
    + rewrite sortBy_Permutation. apply Forall_forall.
      by intros a [Ha _]%list_elem_of_filter.
    + rewrite Hperm. apply Forall_forall. by intros a [Ha _]%list_elem_of_filter.
    + apply sortBy_sorted. apply Forall_forall. by intros a [Ha _]%list_elem_of_filter.
Qed.

(** ** The week dropdown and the grid *)

Local Close Scope Z_scope.








(** ** Selections that start no fetch *)

Lemma cancelled_run w (rs : list (nat * response)) :
  (forall i f, fetches w !! i = Some f -> didCancel f = true) ->
  ui (run w (respond <$> rs)) = ui w.
Proof.
  revert w. induction rs as [|[i resp] rs IH]; intros w Hall; [done|].
  rewrite fmap_cons, run_cons. change (respond (i, resp)) with (Respond i resp).
  unfold step. destruct (fetches w !! i) as [f|] eqn:Hf; [|by apply IH].
  destruct (running f); [|by apply IH].
  rewrite IH; cbn [ui fetches].
  - apply resume_cancelled. by apply (Hall i).
  - intros j f' Hj. destruct (decide (j = i)) as [->|Hne].
    + rewrite list_lookup_insert_eq in Hj by (by eapply lookup_lt_Some).
      simplify_eq. rewrite resume_didCancel. by apply (Hall i).
    + rewrite list_lookup_insert_ne in Hj by done. by apply (Hall j).
Qed.

(** X24. A change of selection that starts no fetch cancels the pending
    one, and no response changes the page afterwards.  Without the remote
    source configured the page then shows the empty-series message, with
    [loading] and the error cleared.  With the total selected for a
    spectacle without representation the series is emptied but [loading]
    and the error are left as they were: if the spinner was showing, it
    keeps showing whatever responses arrive. *)
Theorem selection_without_fetch (pre : list event) (selectedRepId : option string)
    (allRepIds : string) (rs : list (nat * response)) :
  let w := run initial pre in
  ui (run w (Select false selectedRepId allRepIds :: (respond <$> rs)))
  = View [] false None (cache (ui w))
  /\ chartContent (ui (run w (Select false selectedRepId allRepIds :: (respond <$> rs))))
     = NoSales
  /\ ui (run w (Select true None "" :: (respond <$> rs)))
     = View [] (loading (ui w)) (error (ui w)) (cache (ui w))
  /\ (loading (ui w) = true ->
      chartContent (ui (run w (Select true None "" :: (respond <$> rs)))) = Spinner).
Proof.
  intros w.
  assert (superseded (fetches w)) as Hsup by apply run_superseded, initial_superseded.
  assert (ui (run w (Select false selectedRepId allRepIds :: (respond <$> rs)))
          = View [] false None (cache (ui w))) as H1.
  { rewrite run_cons, cancelled_run; [done|].
    cbn [step]. unfold runEffect. cbn [negb fetches].
    exact (fun i f => cleanup_cancelled _ i f Hsup). }
  assert (ui (run w (Select true None "" :: (respond <$> rs)))
          = View [] (loading (ui w)) (error (ui w)) (cache (ui w))) as H2.
  { rewrite run_cons, cancelled_run; [done|].
    cbn [step]. unfold runEffect. cbn [negb fetches].
    exact (fun i f => cleanup_cancelled _ i f Hsup). }
  rewrite H1, H2. split_and!; [done|done|done|].
  intros Hloading. unfold chartContent. cbn [loading]. by rewrite Hloading.
Qed.

Lemma selection_without_fetch_witness :
  chartContent
    (ui (run (run initial [Select true None "recA,recB"])
             (Select true None "" :: (respond <$> [(0, RespOk rowsP1)]))))
  = Spinner.
Proof.
  apply (selection_without_fetch [Select true None "recA,recB"] None ""
           [(0, RespOk rowsP1)]).
  reflexivity.
Defined.
